(** * A shallow embedding of the agent bus and of the query translator

    The development follows the Python sources:
    - [bus/messages.py]   : [Performative], [Message], [Message.create], [Message.reply]
    - [bus/router.py]     : [Router]
    - [agents/base.py]    : [BaseAgent] (handler table, dispatch boundary, run loop)
    - [agents/models.py]  : [Task], [PlanStep], [Plan]
    - [db/models.py]      : [ScriptInput], [Script], [WorkflowStep], [Workflow]
    - [agents/translator.py] : [QueryTranslatorAgent]

    A Python string is modelled by the [string] of the bytes of its UTF-8
    encoding: comparison, [in], [startswith], [endswith], [split] and
    [replace] of a non-empty string are then those of Python on every text,
    while [lower], [upper] and the regular expression class [\w] are those
    of Python on ASCII text only ([PyMore.is_ascii]).  Python dictionaries
    are modelled by insertion-ordered association lists ([Py.dict]), Python
    sets of strings by [gset string], and exceptions by an explicit [result]
    type. *)

From stdpp Require Import gmap strings list fin_maps pretty.

Local Open Scope string_scope.
Local Open Scope list_scope.
Local Open Scope nat_scope.
Local Set Warnings "-register-all".

(** ** Python primitives *)

Module Py.

(** *** Exceptions

    [Exception cls msg] stands for an instance of the class [Exception] (or
    of one of its subclasses, named by [cls]) with [str(e) = msg].
    [BaseOnly cls msg] stands for an instance of a class deriving from
    [BaseException] but not from [Exception] ([asyncio.CancelledError],
    [KeyboardInterrupt], [SystemExit]); an [except Exception] clause lets
    those through. *)
Inductive exn : Type :=
| Exception (cls msg : string)
| BaseOnly (cls msg : string).

Definition str_exn (e : exn) : string :=
  match e with Exception _ msg | BaseOnly _ msg => msg end.

Inductive result (A : Type) : Type :=
| Ok (a : A)
| Raise (e : exn).
Global Arguments Ok {A} a.
Global Arguments Raise {A} e.

Definition bind {A B} (r : result A) (k : A → result B) : result B :=
  match r with
  | Ok a => k a
  | Raise e => Raise e
  end.

(** *** Strings *)

(** [s.startswith(p)] *)
Fixpoint startswith (s p : string) {struct p} : bool :=
  match p, s with
  | EmptyString, _ => true
  | String _ _, EmptyString => false
  | String b p', String a s' => if Ascii.eqb a b then startswith s' p' else false
  end.

(** [s.endswith(suf)] *)
Fixpoint endswith (s suf : string) : bool :=
  if String.eqb s suf then true
  else match s with
       | EmptyString => false
       | String _ s' => endswith s' suf
       end.

(** [sub in s] on strings *)
Fixpoint contains (s sub : string) : bool :=
  if startswith s sub then true
  else match s with
       | EmptyString => false
       | String _ s' => contains s' sub
       end.

Definition between (lo hi : N) (c : Ascii.ascii) : bool :=
  let n := Ascii.N_of_ascii c in ((lo <=? n) && (n <=? hi))%N.

Definition is_upper (c : Ascii.ascii) : bool := between 65 90 c.
Definition is_lower (c : Ascii.ascii) : bool := between 97 122 c.
Definition is_digit (c : Ascii.ascii) : bool := between 48 57 c.

(** Characters matched by the regular expression class [\w]. *)
Definition is_word (c : Ascii.ascii) : bool :=
  is_upper c || is_lower c || is_digit c || between 95 95 c.

Definition lower_char (c : Ascii.ascii) : Ascii.ascii :=
  if is_upper c then Ascii.ascii_of_N (Ascii.N_of_ascii c + 32) else c.

(** [s.lower()] *)
Fixpoint lower (s : string) : string :=
  match s with
  | EmptyString => EmptyString
  | String c s' => String (lower_char c) (lower s')
  end.

Definition flush (cur : string) : list string :=
  match cur with
  | EmptyString => []
  | _ => [cur]
  end.

(** Maximal runs of characters satisfying [keep], left to right; [cur] is
    the run being read. *)
Fixpoint runs (keep : Ascii.ascii → bool) (s cur : string) : list string :=
  match s with
  | EmptyString => flush cur
  | String c s' =>
      if keep c then runs keep s' (cur +:+ String c EmptyString)
      else flush cur ++ runs keep s' EmptyString
  end.

(** [re.findall(r'\w+', s)] *)
Definition findall_word (s : string) : list string := runs is_word s "".

(** The code points on which [str.split()] without arguments splits,
    those for which [str.isspace()] holds: the ASCII ones (tab to carriage
    return, the separators 28 to 31, the space), next line, no-break
    space, ogham space mark, en quad to hair space, line and paragraph
    separators, narrow no-break space, medium mathematical space and
    ideographic space. *)
Definition whitespace : list N :=
  [0x9; 0xA; 0xB; 0xC; 0xD; 0x1C; 0x1D; 0x1E; 0x1F; 0x20; 0x85; 0xA0; 0x1680;
   0x2000; 0x2001; 0x2002; 0x2003; 0x2004; 0x2005; 0x2006; 0x2007; 0x2008;
   0x2009; 0x200A; 0x2028; 0x2029; 0x202F; 0x205F; 0x3000]%N.

Definition byte (n : N) : Ascii.ascii := Ascii.ascii_of_N n.

(** The UTF-8 encoding of a code point below [0x10000]. *)
Definition utf8 (cp : N) : string :=
  if (cp <? 0x80)%N then String (byte cp) EmptyString
  else if (cp <? 0x800)%N then
    String (byte (0xC0 + cp / 0x40)) (String (byte (0x80 + cp mod 0x40)) EmptyString)
  else
    String (byte (0xE0 + cp / 0x1000))
      (String (byte (0x80 + (cp / 0x40) mod 0x40))
         (String (byte (0x80 + cp mod 0x40)) EmptyString)).

(** The number of bytes of the whitespace character [s] starts with, and
    [0] when it starts with none. *)
Definition space_prefix (s : string) : nat :=
  match List.find (λ cp, startswith s (utf8 cp)) whitespace with
  | Some cp => String.length (utf8 cp)
  | None => 0
  end.

(** The maximal runs without whitespace, left to right; [cur] is the run
    being read and [skip] counts the bytes of a whitespace character still
    to be passed. *)
Fixpoint split_from (s cur : string) (skip : nat) : list string :=
  match s with
  | EmptyString => flush cur
  | String c s' =>
      match skip with
      | S k => split_from s' cur k
      | O =>
          match space_prefix s with
          | O => split_from s' (cur +:+ String c EmptyString) 0
          | S k => flush cur ++ split_from s' EmptyString k
          end
      end
  end.

(** [s.split()] *)
Definition split (s : string) : list string := split_from s "" 0.

(** [sep.join(l)] on a list of strings *)
Definition join (sep : string) (l : list string) : string := String.concat sep l.

(** [str(n)] for a non-negative integer *)
Definition str_nat (n : nat) : string := pretty n.

(** *** Dictionaries

    A Python [dict] keeps its keys in insertion order; assigning to a key
    that is present replaces the value in place. *)
Definition dict (V : Type) : Type := list (string * V).

Section Dict.
Context {V : Type}.

(** [d.get(k)] *)
Fixpoint get (k : string) (d : dict V) : option V :=
  match d with
  | [] => None
  | (k', v) :: d' => if String.eqb k k' then Some v else get k d'
  end.

(** [d[k] = v] *)
Fixpoint set (k : string) (v : V) (d : dict V) : dict V :=
  match d with
  | [] => [(k, v)]
  | (k', v') :: d' =>
      if String.eqb k k' then (k, v) :: d' else (k', v') :: set k v d'
  end.

(** [k in d] *)
Definition mem (k : string) (d : dict V) : bool :=
  match get k d with Some _ => true | None => false end.

Definition keys (d : dict V) : list string := fst <$> d.
Definition values (d : dict V) : list V := snd <$> d.
End Dict.

(** *** Dynamically typed values ([Dict[str, Any]] payloads) *)
Inductive value : Type :=
| VNone
| VBool (b : bool)
| VInt (z : Z)
| VStr (s : string)
| VList (l : list value)
| VDict (d : list (string * value)).

End Py.

Import Py.

(** ** The message bus ([bus/messages.py], [bus/router.py]) *)

Inductive Performative : Type := REQUEST | INFORM | PROPOSE | AGREE | FAILURE.

Module Message.

(** Timestamps are readings of the wall clock, kept abstract as integers. *)
Record t : Type := mk {
  performative : Performative;
  sender : string;
  receiver : string;
  conversation_id : string;
  content_type : string;
  content : dict value;
  timestamp : Z
}.

(** [Message.create]; [now] is what [datetime.now()] returns when the
    caller passes no timestamp. *)
Definition create (now : Z) (performative : Performative)
    (sender receiver conversation_id content_type : string)
    (content : dict value) (timestamp : option Z) : t :=
  let timestamp := match timestamp with None => now | Some ts => ts end in
  mk performative sender receiver conversation_id content_type content timestamp.

(** [a or b] where [a : Optional[str]]: [None] and the empty string are
    falsy. *)
Definition or_else (a : option string) (b : string) : string :=
  match a with
  | None => b
  | Some EmptyString => b
  | Some s => s
  end.

(** [Message.reply] *)
Definition reply (now : Z) (self : t) (performative : Performative)
    (content_type : string) (content : dict value) (sender : option string) : t :=
  create now performative
    (or_else sender (Message.receiver self))
    (Message.sender self)
    (Message.conversation_id self)
    content_type content None.

End Message.

Module Router.

(** Inboxes are [asyncio.Queue()] objects living on the heap: [heap] maps
    the address of a queue to its pending messages, oldest first (an
    address not yet written holds the empty queue), and [_agents] maps an
    agent name to the address of its inbox, so that the router and the
    owning agent share one queue. *)
Record t : Type := mk {
  _agents : gmap string nat;
  heap : gmap nat (list Message.t)
}.

Definition empty : t := mk ∅ ∅.

Definition items (q : nat) (r : t) : list Message.t := default [] (heap r !! q).

(** The queue at address [q] with [message] appended. *)
Definition enqueue (q : nat) (message : Message.t) (r : t) : t :=
  mk (_agents r) (<[q := items q r ++ [message]]> (heap r)).

(** [await inbox.put(message)]: an unbounded [asyncio.Queue()] accepts
    every message without blocking, so the call always returns. *)
Definition put (q : nat) (message : Message.t) (r : t) : result t :=
  Ok (enqueue q message r).

Definition register_agent (name : string) (inbox : nat) (r : t) : t :=
  mk (<[name := inbox]> (_agents r)) (heap r).

Definition unregister_agent (name : string) (r : t) : t :=
  match _agents r !! name with
  | Some _ => mk (delete name (_agents r)) (heap r)
  | None => r
  end.

Definition route (message : Message.t) (r : t) : t * bool :=
  match _agents r !! Message.receiver message with
  | None => (r, false)
  | Some receiver_inbox =>
      match put receiver_inbox message r with
      | Ok r' => (r', true)
      | Raise _ => (r, false)                 (* except Exception *)
      end
  end.

Definition is_agent_registered (name : string) (r : t) : bool :=
  bool_decide (is_Some (_agents r !! name)).

End Router.

(** Calls made on a router by its clients, in the order they happen. *)
Module Calls.

Inductive t : Type :=
| Register (name : string) (inbox : nat)
| Unregister (name : string)
| Route (message : Message.t).

Definition exec_call (r : Router.t) (c : t) : Router.t :=
  match c with
  | Register name inbox => Router.register_agent name inbox r
  | Unregister name => Router.unregister_agent name r
  | Route message => (Router.route message r).1
  end.

Definition exec (calls : list t) (r : Router.t) : Router.t :=
  foldl exec_call r calls.

(** Does the call register or unregister [name]? *)
Definition rebinds (name : string) (c : t) : bool :=
  match c with
  | Register n _ | Unregister n => String.eqb n name
  | Route _ => false
  end.

End Calls.

(** ** The agent runtime ([agents/base.py]) *)

Module BaseAgent.

(** A handler is a coroutine taking the message; it may route messages of
    its own and either returns or raises. *)
Abbreviation handler := (Message.t → Router.t → Router.t * result unit) (only parsing).

Record t : Type := mk {
  name : string;
  inbox : nat;
  _handlers : gmap string handler;
  _running : bool
}.

(** [BaseAgent.__init__]; [inbox] is the address of the fresh queue. *)
Definition init (name : string) (inbox : nat) (r : Router.t) : t * Router.t :=
  (mk name inbox ∅ false, Router.register_agent name inbox r).

(** [@self.on(content_type)] applied to [h] *)
Definition on (content_type : string) (h : handler) (self : t) : t :=
  mk (name self) (inbox self) (<[content_type := h]> (_handlers self)) (_running self).

(** [send]; [uuid] is what [uuid.uuid4()] yields when no conversation id is
    passed. *)
Definition send (now : Z) (uuid : string) (self : t) (receiver : string)
    (performative : Performative) (content_type : string) (content : dict value)
    (conversation_id : option string) (r : Router.t) : Router.t * bool :=
  let conversation_id := match conversation_id with None => uuid | Some c => c end in
  Router.route
    (Message.create now performative (name self) receiver conversation_id
       content_type content None) r.

Definition reply (now : Z) (self : t) (original_message : Message.t)
    (performative : Performative) (content_type : string) (content : dict value)
    (r : Router.t) : Router.t * bool :=
  Router.route
    (Message.reply now original_message performative content_type content
       (Some (name self))) r.

(** [handle_message]: the dispatch boundary.  Only instances of
    [Exception] are caught; anything else keeps propagating. *)
Definition handle_message (now : Z) (self : t) (message : Message.t)
    (r : Router.t) : Router.t * result unit :=
  match _handlers self !! Message.content_type message with
  | Some h =>
      match h message r with
      | (r', Ok _) => (r', Ok ())
      | (r', Raise (Exception cls msg)) =>
          let '(r'', _) :=
            reply now self message FAILURE "error"
              [("error", VStr msg);
               ("original_content_type", VStr (Message.content_type message))] r' in
          (r'', Ok ())
      | (r', Raise e) => (r', Raise e)
      end
  | None => (r, Ok ())
  end.

(** [await asyncio.wait_for(self.inbox.get(), timeout=1.0)]: the oldest
    message of the inbox, or a timeout when the inbox stays empty. *)
Definition get (self : t) (r : Router.t) : option (Message.t * Router.t) :=
  match Router.items (inbox self) r with
  | [] => None
  | m :: rest =>
      Some (m, Router.mk (Router._agents r) (<[inbox self := rest]> (Router.heap r)))
  end.

(** One pass through the body of the [while self._running] loop. *)
Definition cycle (now : Z) (self : t) (r : Router.t) : Router.t * result unit :=
  match get self r with
  | None => (r, Ok ())                        (* asyncio.TimeoutError: continue *)
  | Some (message, r') =>
      match handle_message now self message r' with
      | (r'', Raise (Exception _ _)) => (r'', Ok ())   (* logged *)
      | out => out
      end
  end.

(** The loop of [run], unrolled for [n] passes; [clock i] is the clock
    reading during pass [i].  An exception that is not an [Exception]
    leaves the loop. *)
Fixpoint loop (clock : nat → Z) (i n : nat) (self : t) (r : Router.t)
    : Router.t * result unit :=
  match n with
  | O => (r, Ok ())
  | S n' =>
      if _running self then
        match cycle (clock i) self r with
        | (r', Ok _) => loop clock (S i) n' self r'
        | (r', Raise e) => (r', Raise e)
        end
      else (r, Ok ())
  end.

Definition stop (self : t) : t :=
  mk (name self) (inbox self) (_handlers self) false.

Definition run (clock : nat → Z) (n : nat) (self : t) (r : Router.t)
    : Router.t * result unit :=
  loop clock 0 n (mk (name self) (inbox self) (_handlers self) true) r.

Definition shutdown (self : t) (r : Router.t) : t * Router.t :=
  (stop self, Router.unregister_agent (name self) r).

End BaseAgent.

(** ** Request and plan models ([agents/models.py]) *)

Inductive Scope : Type := building | district.

Definition scope_str (s : Scope) : string :=
  match s with
  | building => "building"
  | district => "district"
  end.

Module Task.

Record t : Type := mk {
  intent : string;
  scope : option Scope;
  inputs : dict string;
  constraints : dict string;
  raw_text : string
}.

(** Validation of one field of type [str]: the failures found, or the
    string. *)
Definition validate_str (v : option value) : nat + string :=
  match v with
  | Some (VStr s) => inr s
  | _ => inl 1
  end.

(** [Optional[Literal["building", "district"]]], default [None] *)
Definition validate_scope (v : option value) : nat + option Scope :=
  match v with
  | None | Some VNone => inr None
  | Some (VStr s) =>
      if String.eqb s "building" then inr (Some building)
      else if String.eqb s "district" then inr (Some district)
      else inl 1
  | Some _ => inl 1
  end.

Fixpoint validate_entries (d : list (string * value)) : nat * dict string :=
  match d with
  | [] => (0, [])
  | (k, VStr s) :: d' => let '(n, out) := validate_entries d' in (n, (k, s) :: out)
  | (k, _) :: d' => let '(n, out) := validate_entries d' in (S n, out)
  end.

(** [Dict[str, str]], default the empty dictionary *)
Definition validate_dict (v : option value) : nat + dict string :=
  match v with
  | None => inr []
  | Some (VDict d) =>
      match validate_entries d with
      | (O, out) => inr out
      | (n, _) => inl n
      end
  | Some _ => inl 1
  end.

Definition failures {A} (r : nat + A) : nat :=
  match r with inl n => n | inr _ => 0 end.

(** [Task.from_dict(data)], the constructor applied to the entries of
    [data] as keyword arguments: pydantic checks every
    declared field, ignores the other keys and raises one
    [ValidationError] counting all failures.  Of the text of that error
    only the headline is kept. *)
Definition from_dict (data : dict value) : result t :=
  let i := validate_str (get "intent" data) in
  let s := validate_scope (get "scope" data) in
  let ins := validate_dict (get "inputs" data) in
  let cs := validate_dict (get "constraints" data) in
  let raw := validate_str (get "raw_text" data) in
  match i, s, ins, cs, raw with
  | inr i, inr s, inr ins, inr cs, inr raw => Ok (mk i s ins cs raw)
  | _, _, _, _, _ =>
      let n := failures i + failures s + failures ins + failures cs + failures raw in
      Raise (Exception "ValidationError"
               (str_nat n +:+ " validation error"
                +:+ (if Nat.eqb n 1 then "" else "s") +:+ " for Task"))
  end.

Definition str_dict (d : dict string) : value :=
  VDict ((λ kv, (kv.1, VStr kv.2)) <$> d).

(** [Task.to_dict], that is [model_dump()] *)
Definition to_dict (self : t) : dict value :=
  [("intent", VStr (intent self));
   ("scope", match scope self with Some s => VStr (scope_str s) | None => VNone end);
   ("inputs", str_dict (inputs self));
   ("constraints", str_dict (constraints self));
   ("raw_text", VStr (raw_text self))].

End Task.

Module PlanStep.
Record t : Type := mk {
  script_id : string;
  args : dict string
}.

Definition to_dict (self : t) : dict value :=
  [("script_id", VStr (script_id self)); ("args", Task.str_dict (args self))].
End PlanStep.

Module Plan.
Record t : Type := mk {
  plan : list PlanStep.t;
  explain : string;
  assumptions : list string;
  missing : list string
}.

Definition to_dict (self : t) : dict value :=
  [("plan", VList ((λ st, VDict (PlanStep.to_dict st)) <$> plan self));
   ("explain", VStr (explain self));
   ("assumptions", VList (VStr <$> assumptions self));
   ("missing", VList (VStr <$> missing self))].
End Plan.

(** ** The catalogue ([db/models.py]); only the fields the translator reads *)

Module ScriptInput.
Record t : Type := mk {
  name : string;
  type : string;
  required : bool
}.
End ScriptInput.

Module Script.
Record t : Type := mk {
  id : option string;
  name : string;
  inputs : list ScriptInput.t
}.
End Script.

Module WorkflowStep.
Record t : Type := mk {
  step : Z;
  script_id : string;
  action : string;
  description : option string
}.
End WorkflowStep.

Module Workflow.
Record t : Type := mk {
  id : option string;
  name : string;
  steps : list WorkflowStep.t;
  tags : list string
}.
End Workflow.

(** ** The capability provider ([agents/capabilities.py])

    The translator reads the catalogue through two calls only.  A provider
    is taken as a snapshot: the calls return and do not raise. *)
Class CapabilitiesProvider (P : Type) : Type := {
  get_all_workflows : P → list Workflow.t;
  get_script_by_id : P → string → option Script.t
}.

(** A catalogue held in memory: the workflows in the order they are
    returned, and the scripts, found by identifier as in
    [SELECT * FROM scripts WHERE id = ?]. *)
Record Catalogue : Type := {
  workflows : list Workflow.t;
  scripts : list Script.t
}.

Definition has_id (script_id : string) (s : Script.t) : bool :=
  match Script.id s with
  | Some i => String.eqb i script_id
  | None => false
  end.

Definition find_script (script_id : string) (l : list Script.t) : option Script.t :=
  List.find (has_id script_id) l.

#[export] Instance CatalogueProvider : CapabilitiesProvider Catalogue := {
  get_all_workflows c := workflows c;
  get_script_by_id c script_id := find_script script_id (scripts c)
}.

(** ** The query translator ([agents/translator.py]) *)

Module QueryTranslatorAgent.

(** [x in [a, b, ...]] on a list of strings *)
Definition in_list (x : string) (l : list string) : bool := existsb (String.eqb x) l.

(** [", ".join(l)] where items may be [None]: the first [None] raises
    [TypeError]. *)
Fixpoint checked_items (i : nat) (l : list (option string)) : result (list string) :=
  match l with
  | [] => Ok []
  | Some x :: l' => bind (checked_items (S i) l') (λ xs, Ok (x :: xs))
  | None :: _ =>
      Raise (Exception "TypeError"
               ("sequence item " +:+ str_nat i
                +:+ ": expected str instance, NoneType found"))
  end.

Definition join_checked (sep : string) (l : list (option string)) : result string :=
  bind (checked_items 0 l) (λ xs, Ok (join sep xs)).

Section Translator.
Context {P : Type} `{CapabilitiesProvider P}.

(** [self.capabilities] *)
Variable capabilities : P.

(** The order in which the running interpreter iterates over a set of
    strings (it depends on the hash seed of the process). *)
Variable iter_set : gset string → list string.

Definition _extract_task_tags (task : Task.t) : gset string :=
  let tags : gset string := ∅ in
  let intent_words := findall_word (lower (Task.intent task)) in
  let tags := tags ∪ list_to_set intent_words in
  let tags :=
    match Task.scope task with
    | Some s => tags ∪ {[scope_str s]}
    | None => tags
    end in
  let tags :=
    foldl (λ (tags : gset string) input_type,
             if in_list input_type ["geometry"; "weather"; "schedule"; "data"; "config"]
             then tags ∪ {[input_type]} else tags)
          tags (keys (Task.inputs task)) in
  let tags :=
    foldl (λ (tags : gset string) input_file,
             if endswith input_file ".geojson" then tags ∪ {["geometry"]}
             else if endswith input_file ".epw" then tags ∪ {["weather"]}
             else if endswith input_file ".csv" then tags ∪ {["data"]}
             else if endswith input_file ".xlsx" then tags ∪ {["schedule"]}
             else tags)
          tags (values (Task.inputs task)) in
  let tags :=
    foldl (λ (tags : gset string) constraint_type,
             if in_list constraint_type ["algorithm"; "timestep"; "temperature"]
             then tags ∪ {[constraint_type]} else tags)
          tags (keys (Task.constraints task)) in
  tags.

(** [task_tags.intersection(set(workflow.tags))] *)
Definition overlap (task : Task.t) (workflow : Workflow.t) : gset string :=
  _extract_task_tags task ∩ list_to_set (Workflow.tags workflow).

Definition _get_candidate_workflows (task : Task.t) : list Workflow.t :=
  let all_workflows := get_all_workflows capabilities in
  filter (λ workflow, overlap task workflow ≠ ∅) all_workflows.

Definition _calculate_workflow_score (task : Task.t) (workflow : Workflow.t) : nat :=
  let overlap_score := size (overlap task workflow) in
  let intent_bonus :=
    if contains (Workflow.name workflow) (Task.intent task)
       || existsb (λ word, contains (Workflow.name workflow) word)
            (split (Task.intent task))
    then 5 else 0 in
  let scope_bonus :=
    match Task.scope task with
    | Some s => if in_list (scope_str s) (Workflow.tags workflow) then 2 else 0
    | None => 0
    end in
  overlap_score + intent_bonus + scope_bonus.

(** The body of the selection loop: [(best_workflow, best_score)] is
    replaced only by a strictly greater score. *)
Definition better (task : Task.t) (best : option Workflow.t * nat)
    (workflow : Workflow.t) : option Workflow.t * nat :=
  let score := _calculate_workflow_score task workflow in
  if best.2 <? score then (Some workflow, score) else best.

Definition _find_best_workflow (task : Task.t) : option Workflow.t :=
  let candidate_workflows := _get_candidate_workflows task in
  match candidate_workflows with
  | [] => None
  | _ => (foldl (better task) (None, 0) candidate_workflows).1
  end.

(** Body of the loop over [task.inputs.items()]. *)
Definition map_input (args : dict string) (item : string * string) : dict string :=
  let '(task_input_key, task_input_value) := item in
  if String.eqb task_input_key "geometry" || endswith task_input_value ".geojson"
  then set "buildings" task_input_value args
  else if String.eqb task_input_key "weather" || endswith task_input_value ".epw"
  then set "weather_file" task_input_value args
  else if String.eqb task_input_key "schedule" || endswith task_input_value ".xlsx"
  then set "occupancy_schedules" task_input_value args
  else if String.eqb task_input_key "data" || endswith task_input_value ".csv"
  then set "energy_demands" task_input_value args
  else args.

(** Body of the loop over [task.constraints.items()]. *)
Definition map_constraint (args : dict string) (item : string * string) : dict string :=
  let '(constraint_key, constraint_value) := item in
  if String.eqb constraint_key "algorithm"
  then set "algorithm" constraint_value args
  else if String.eqb constraint_key "timestep"
  then set "timestep" constraint_value args
  else args.

Definition _map_task_inputs_to_script_args (task : Task.t) (script : Script.t)
    : dict string :=
  let args : dict string := [] in
  let args := foldl map_input args (Task.inputs task) in
  let args := foldl map_constraint args (Task.constraints task) in
  if existsb (λ inp, String.eqb (ScriptInput.name inp) "scenario_config")
       (Script.inputs script)
  then set "scenario_config" "scenario.yml" args
  else args.

Definition _generate_explanation (task : Task.t) (workflow : Workflow.t)
    (available_inputs : gset string) (missing_inputs : list string) : result string :=
  let explanation :=
    "Selected workflow '" +:+ Workflow.name workflow
    +:+ "' because it matches your intent to " +:+ Task.intent task +:+ "." in
  let explanation :=
    match Task.scope task with
    | Some s =>
        explanation +:+ " This workflow is suitable for " +:+ scope_str s
        +:+ "-level analysis."
    | None => explanation
    end in
  let explanation :=
    explanation +:+ " The workflow consists of "
    +:+ str_nat (length (Workflow.steps workflow)) +:+ " steps: " in
  let step_descriptions := WorkflowStep.description <$> Workflow.steps workflow in
  bind (join_checked ", " step_descriptions) (λ joined,
    let explanation := explanation +:+ joined +:+ "." in
    let explanation :=
      if bool_decide (available_inputs ≠ ∅)
      then explanation +:+ " Available inputs: "
           +:+ join ", " (iter_set available_inputs) +:+ "."
      else explanation in
    let explanation :=
      match missing_inputs with
      | [] => explanation
      | _ => explanation +:+ " Missing required inputs: "
             +:+ join ", " missing_inputs +:+ "."
      end in
    Ok explanation).

Definition _generate_assumptions (task : Task.t) (workflow : Workflow.t) : list string :=
  let assumptions :=
    ["Using default building schedules if not provided";
     "Standard thermal model parameters unless specified"] in
  let assumptions :=
    match Task.scope task with
    | Some district =>
        assumptions ++ ["All buildings in district have similar characteristics"]
    | Some building =>
        assumptions ++ ["Single building analysis with typical occupancy patterns"]
    | None => assumptions
    end in
  let assumptions :=
    if contains (Task.intent task) "cooling"
    then assumptions ++ ["Focusing on cooling loads and systems"]
    else assumptions in
  if existsb (λ step, contains (WorkflowStep.action step) "optimization")
       (Workflow.steps workflow)
  then assumptions ++ ["Using default optimization objectives unless specified"]
  else assumptions.

(** Body of the loop over [script_ids]. *)
Definition remember_script (scripts : dict Script.t) (script_id : string)
    : dict Script.t :=
  match get_script_by_id capabilities script_id with
  | Some script => set script_id script scripts
  | None => scripts
  end.

(** The scripts of the workflow that the provider resolves, keyed by
    identifier. *)
Definition resolve_scripts (workflow : Workflow.t) : dict Script.t :=
  let script_ids := WorkflowStep.script_id <$> Workflow.steps workflow in
  foldl remember_script [] script_ids.

(** Body of the loop over [script.inputs]. *)
Definition require_input (required_inputs : dict string) (inp : ScriptInput.t)
    : dict string :=
  if ScriptInput.required inp
  then set (ScriptInput.name inp) (ScriptInput.type inp) required_inputs
  else required_inputs.

(** Name and type of every input flagged [required]. *)
Definition required_inputs_of (scripts : dict Script.t) : dict string :=
  foldl (λ required_inputs script,
           foldl require_input required_inputs (Script.inputs script))
        [] (values scripts).

(** The three availability checks; the result is
    [(available_inputs, missing_inputs)]. *)
Definition check_inputs (task : Task.t) (required_inputs : dict string)
    : gset string * list string :=
  let available_inputs : gset string := ∅ in
  let missing_inputs : list string := [] in
  let '(available_inputs, missing_inputs) :=
    if mem "weather_file" required_inputs
       || existsb (λ req, contains (lower req) "weather") (keys required_inputs)
    then
      if existsb (λ inp, endswith inp ".epw") (values (Task.inputs task))
         || mem "weather" (Task.inputs task)
      then (available_inputs ∪ {["weather_epw"]}, missing_inputs)
      else (available_inputs, missing_inputs ++ ["weather_epw"])
    else (available_inputs, missing_inputs) in
  let '(available_inputs, missing_inputs) :=
    if mem "buildings" required_inputs
       || existsb (λ req, contains (lower req) "geometry") (keys required_inputs)
    then
      if existsb (λ inp, endswith inp ".geojson") (values (Task.inputs task))
         || mem "geometry" (Task.inputs task)
      then (available_inputs ∪ {["geometry"]}, missing_inputs)
      else (available_inputs, missing_inputs ++ ["geometry"])
    else (available_inputs, missing_inputs) in
  if mem "scenario_config" required_inputs
  then
    if bool_decide (available_inputs ≠ ∅)
    then (available_inputs ∪ {["scenario_config"]}, missing_inputs)
    else (available_inputs, missing_inputs ++ ["scenario_config"])
  else (available_inputs, missing_inputs).

(** Body of the loop that creates the plan steps. *)
Definition add_plan_step (task : Task.t) (scripts : dict Script.t)
    (plan_steps : list PlanStep.t) (step : WorkflowStep.t) : list PlanStep.t :=
  match get (WorkflowStep.script_id step) scripts with
  | Some script =>
      let args := _map_task_inputs_to_script_args task script in
      plan_steps ++ [PlanStep.mk (WorkflowStep.script_id step) args]
  | None => plan_steps
  end.

(** One [PlanStep] per workflow step whose script was resolved. *)
Definition make_plan_steps (task : Task.t) (workflow : Workflow.t)
    (scripts : dict Script.t) : list PlanStep.t :=
  foldl (add_plan_step task scripts) [] (Workflow.steps workflow).

Definition _compute_plan (task : Task.t) (workflow : Workflow.t) : result Plan.t :=
  let scripts := resolve_scripts workflow in
  let required_inputs := required_inputs_of scripts in
  let '(available_inputs, missing_inputs) := check_inputs task required_inputs in
  let plan_steps := make_plan_steps task workflow scripts in
  bind (_generate_explanation task workflow available_inputs missing_inputs)
    (λ explanation,
       let assumptions := _generate_assumptions task workflow in
       Ok (Plan.mk plan_steps explanation assumptions missing_inputs)).

(** The [try] block of [handle_task]: the reply it sends. *)
Definition task_reply (message : Message.t)
    : result (Performative * string * dict value) :=
  bind (Task.from_dict (Message.content message)) (λ task,
    match _find_best_workflow task with
    | None =>
        Ok (FAILURE, "error",
            [("error", VStr ("No workflow found for intent: " +:+ Task.intent task))])
    | Some best_workflow =>
        bind (_compute_plan task best_workflow) (λ plan,
          match Plan.missing plan with
          | _ :: _ =>
              Ok (FAILURE, "plan",
                  [("reason",
                    VStr ("Missing required inputs: "
                          +:+ join ", " (Plan.missing plan)));
                   ("missing", VList (VStr <$> Plan.missing plan));
                   ("plan", VDict (Plan.to_dict plan))])
          | [] =>
              Ok (INFORM, "plan",
                  [("plan", VDict (Plan.to_dict plan));
                   ("workflow_id",
                    match Workflow.id best_workflow with
                    | Some i => VStr i
                    | None => VNone
                    end);
                   ("workflow_name", VStr (Workflow.name best_workflow))])
          end)
    end).

(** [handle_task], the handler registered for content type ["task"]. *)
Definition handle_task (now : Z) (self : BaseAgent.t) : BaseAgent.handler :=
  λ message r,
    match task_reply message with
    | Ok (performative, content_type, content) =>
        let '(r', _) :=
          BaseAgent.reply now self message performative content_type content r in
        (r', Ok ())
    | Raise (Exception _ msg) =>
        let '(r', _) :=
          BaseAgent.reply now self message FAILURE "error"
            [("error", VStr ("Failed to process task: " +:+ msg))] r in
        (r', Ok ())
    | Raise e => (r, Raise e)
    end.

End Translator.

End QueryTranslatorAgent.

(** ** Vocabulary of the specification *)

Module Spec.

(** [a] occurs in [b] as a substring. *)
Definition substring (a b : string) : Prop := ∃ pre post, b = pre +:+ a +:+ post.

(** [s] ends in [suf]. *)
Definition ends_with (s suf : string) : Prop := ∃ pre, s = pre +:+ suf.

(** The number of bytes that follow, in UTF-8, a first byte [b] below
    [0xF0]. *)
Definition following (b : Ascii.ascii) : nat :=
  if (Ascii.N_of_ascii b <? 0x80)%N then 0
  else if (Ascii.N_of_ascii b <? 0xE0)%N then 1 else 2.

(** [s] starts with a whitespace character. *)
Definition starts_space (s : string) : Prop :=
  ∃ cp rest, cp ∈ whitespace ∧ s = utf8 cp +:+ rest.

(** No whitespace character starts inside [w], read in front of [rest]. *)
Definition space_free (w rest : string) : Prop :=
  ∀ u v, w = u +:+ v → v ≠ "" → ¬ starts_space (v +:+ rest).

(** [words s l]: [l] lists, left to right, the pieces of [s] that
    whitespace separates.  Whitespace is passed over; a word is not empty,
    has no whitespace in it, and goes up to the next whitespace or to the
    end of [s]. *)
Inductive words : string → list string → Prop :=
| words_end : words "" []
| words_space (cp : N) (rest : string) (l : list string) :
    cp ∈ whitespace → words rest l → words (utf8 cp +:+ rest) l
| words_word (w rest : string) (l : list string) :
    w ≠ "" → space_free w rest → rest = "" ∨ starts_space rest →
    words rest l → words (w +:+ rest) (w :: l).

(** The workflow name contains the intent, or one of the whitespace-split
    words of the intent. *)
Definition intent_matches (task : Task.t) (workflow : Workflow.t) : Prop :=
  substring (Task.intent task) (Workflow.name workflow)
  ∨ ∃ word, word ∈ split (Task.intent task) ∧ substring word (Workflow.name workflow).

(** The scope is set and is one of the tags of the workflow. *)
Definition scope_matches (task : Task.t) (workflow : Workflow.t) : Prop :=
  ∃ s, Task.scope task = Some s ∧ scope_str s ∈ Workflow.tags workflow.

(** [b] is [amount] when [P] holds and [0] otherwise. *)
Definition bonus (P : Prop) (amount b : nat) : Prop :=
  (P ∧ b = amount) ∨ (¬ P ∧ b = 0).

(** The task and the workflow share at least one tag. *)
Definition shares_tag (task : Task.t) (workflow : Workflow.t) : Prop :=
  ∃ tag, tag ∈ QueryTranslatorAgent._extract_task_tags task
         ∧ tag ∈ Workflow.tags workflow.

(** What the selection loop has found after running over [seen]. *)
Definition selected (task : Task.t) (seen : list Workflow.t)
    (best : option Workflow.t * nat) : Prop :=
  match best.1 with
  | None =>
      best.2 = 0 ∧ ∀ x, x ∈ seen → QueryTranslatorAgent._calculate_workflow_score task x = 0
  | Some w =>
      best.2 = QueryTranslatorAgent._calculate_workflow_score task w
      ∧ ∃ pre post,
          seen = pre ++ w :: post
          ∧ (∀ x, x ∈ pre →
               QueryTranslatorAgent._calculate_workflow_score task x < QueryTranslatorAgent._calculate_workflow_score task w)
          ∧ (∀ x, x ∈ post →
               QueryTranslatorAgent._calculate_workflow_score task x ≤ QueryTranslatorAgent._calculate_workflow_score task w)
  end.

(** The lookup table for task inputs: key, file extension, argument. *)
Definition input_table : list (string * string * string) :=
  [("geometry", ".geojson", "buildings");
   ("weather", ".epw", "weather_file");
   ("schedule", ".xlsx", "occupancy_schedules");
   ("data", ".csv", "energy_demands")].

(** The lookup table for constraints: key, argument. *)
Definition constraint_table : list (string * string) :=
  [("algorithm", "algorithm"); ("timestep", "timestep")].

(** The argument of the first row that an input matches, by its key or
    by the extension of its value. *)
Definition arg_of_input (key value : string) : option string :=
  (λ row, row.2) <$>
    List.find (λ row, String.eqb key row.1.1 || endswith value row.1.2) input_table.

Definition arg_of_constraint (key : string) : option string :=
  (λ row, row.2) <$> List.find (λ row, String.eqb key row.1) constraint_table.

Definition declares (script : Script.t) (name : string) : bool :=
  existsb (λ inp, String.eqb (ScriptInput.name inp) name) (Script.inputs script).

(** Do the tables send the input, or the constraint, to [arg]? *)
Definition input_goes_to (arg : string) (item : string * string) : bool :=
  match arg_of_input item.1 item.2 with
  | Some a => String.eqb a arg
  | None => false
  end.

Definition constraint_goes_to (arg : string) (item : string * string) : bool :=
  match arg_of_constraint item.1 with
  | Some a => String.eqb a arg
  | None => false
  end.

(** What the tables give to argument [arg]: the value of the last input
    mapped to [arg], else the value of the last constraint mapped to
    [arg], else the default of [scenario_config] when the script declares
    it, else nothing. *)
Definition table_arg (task : Task.t) (script : Script.t) (arg : string)
    : option string :=
  match last (List.filter (input_goes_to arg) (Task.inputs task)) with
  | Some item => Some item.2
  | None =>
      match last (List.filter (constraint_goes_to arg) (Task.constraints task)) with
      | Some item => Some item.2
      | None =>
          if String.eqb arg "scenario_config" && declares script "scenario_config"
          then Some "scenario.yml"
          else None
      end
  end.

Definition arg_names : list string :=
  ["buildings"; "weather_file"; "occupancy_schedules"; "energy_demands";
   "algorithm"; "timestep"; "scenario_config"].

(** Every step of the workflow carries a description. *)
Definition described (workflow : Workflow.t) : Prop :=
  ∀ step, step ∈ Workflow.steps workflow → is_Some (WorkflowStep.description step).

(** The workflow without the steps whose script the provider does not
    know. *)
Definition known_steps `{CapabilitiesProvider P} (capabilities : P)
    (workflow : Workflow.t) : Workflow.t :=
  Workflow.mk (Workflow.id workflow) (Workflow.name workflow)
    (filter (λ step, is_Some (get_script_by_id capabilities (WorkflowStep.script_id step)))
       (Workflow.steps workflow))
    (Workflow.tags workflow).

(** The plan step of a workflow step, when its script is known. *)
Definition step_of `{CapabilitiesProvider P} (capabilities : P) (task : Task.t)
    (step : WorkflowStep.t) : option PlanStep.t :=
  (λ script,
     PlanStep.mk (WorkflowStep.script_id step)
       (QueryTranslatorAgent._map_task_inputs_to_script_args task script))
  <$> get_script_by_id capabilities (WorkflowStep.script_id step).

(** Is [inp] a required input named [k]? *)
Definition requires (k : string) (inp : ScriptInput.t) : bool :=
  ScriptInput.required inp && String.eqb k (ScriptInput.name inp).

(** Some script of the workflow, as the provider returns it, declares a
    required input whose lower-cased name contains ["weather"]. *)
Definition requires_weather `{CapabilitiesProvider P} (capabilities : P)
    (workflow : Workflow.t) : Prop :=
  ∃ step script inp,
    step ∈ Workflow.steps workflow
    ∧ get_script_by_id capabilities (WorkflowStep.script_id step) = Some script
    ∧ inp ∈ Script.inputs script
    ∧ ScriptInput.required inp = true
    ∧ substring "weather" (lower (ScriptInput.name inp)).

(** Some input value ends in [.epw] or the key [weather] is present. *)
Definition weather_available (task : Task.t) : Prop :=
  (∃ value, value ∈ values (Task.inputs task) ∧ ends_with value ".epw")
  ∨ "weather" ∈ keys (Task.inputs task).

(** Resolving a task: the workflow selected and the outcome of the plan
    computation for it. *)
Definition resolution `{CapabilitiesProvider P} (capabilities : P)
    (iter_set : gset string → list string) (task : Task.t)
    : option (Workflow.t * result Plan.t) :=
  match QueryTranslatorAgent._find_best_workflow capabilities task with
  | Some workflow =>
      Some (workflow,
            QueryTranslatorAgent._compute_plan capabilities iter_set task workflow)
  | None => None
  end.

(** [handle_task] ends normally after sending one reply, made of the
    given performative, content type and content. *)
Definition sends `{CapabilitiesProvider P} (capabilities : P)
    (iter_set : gset string → list string) (now : Z) (self : BaseAgent.t)
    (message : Message.t) (r : Router.t)
    (reply : Performative * string * dict value) : Prop :=
  QueryTranslatorAgent.handle_task capabilities iter_set now self message r
  = ((Router.route
        (Message.reply now message reply.1.1 reply.1.2 reply.2
           (Some (BaseAgent.name self))) r).1,
     Ok ()).

(** The three shapes of reply. *)
Definition no_workflow_shape (reply : Performative * string * dict value) : Prop :=
  ∃ intent,
    reply = (FAILURE, "error",
             [("error", VStr ("No workflow found for intent: " +:+ intent))]).

Definition incomplete_shape (reply : Performative * string * dict value) : Prop :=
  ∃ reason missing plan,
    reply = (FAILURE, "plan",
             [("reason", reason); ("missing", missing); ("plan", plan)]).

Definition complete_shape (reply : Performative * string * dict value) : Prop :=
  ∃ plan workflow_id workflow_name,
    reply = (INFORM, "plan",
             [("plan", plan); ("workflow_id", workflow_id);
              ("workflow_name", workflow_name)]).

End Spec.

(** ** Concrete scenarios *)

Module Scenario.

Definition ping : Message.t :=
  Message.mk REQUEST "alice" "bob" "conv-1" "ping" [("text", VStr "hi")] 100.

(** A router on which [bob] owns the inbox at address [7], and on which
    [carol] registered and left again afterwards. *)
Definition bob_online : Router.t :=
  Calls.exec [Calls.Register "carol" 3; Calls.Unregister "carol"]
    (Router.register_agent "bob" 7 Router.empty).

(** A handler that fails on every message. *)
Definition failing : BaseAgent.handler :=
  λ _ r, (r, Raise (Exception "ValueError" "boom")).

(** A handler that acknowledges every message. *)
Definition acknowledging (self : BaseAgent.t) : BaseAgent.handler :=
  λ message r, ((BaseAgent.reply 0 self message AGREE "ack" [] r).1, Ok ()).

Definition bob : BaseAgent.t :=
  let self := BaseAgent.mk "bob" 7 ∅ true in
  BaseAgent.on "hello" (acknowledging self) (BaseAgent.on "ping" failing self).

Definition hello : Message.t :=
  Message.mk REQUEST "alice" "bob" "conv-2" "hello" [] 102.

(** [alice] and [bob] are registered; [ping] then [hello] wait in the
    inbox of [bob]. *)
Definition two_pending : Router.t :=
  Calls.exec
    [Calls.Register "alice" 5; Calls.Register "bob" 7;
     Calls.Route ping; Calls.Route hello]
    Router.empty.

(** The catalogue of the scoring example of the specification, with a
    third workflow that ties with the first. *)
Definition W1 : Workflow.t :=
  Workflow.mk (Some "wf-1") "estimate_cooling_demand"
    [WorkflowStep.mk 1 "script-001" "calculate_cooling_loads"
       (Some "Calculate hourly cooling loads for buildings")]
    ["cooling"; "demand"; "thermal"].

Definition W2 : Workflow.t :=
  Workflow.mk (Some "wf-2") "design_network"
    [WorkflowStep.mk 1 "script-002" "run_network_optimization"
       (Some "Design optimal thermal network")]
    ["network"; "pipes"; "district"].

Definition W3 : Workflow.t :=
  Workflow.mk (Some "wf-3") "cooling_report"
    [WorkflowStep.mk 1 "script-404" "generate_report" (Some "Generate report")]
    ["demand"; "cooling"; "report"].

Definition script_001 : Script.t :=
  Script.mk (Some "script-001") "demand_calculation"
    [ScriptInput.mk "weather_file" "epw" true;
     ScriptInput.mk "buildings" "shapefile" true].

Definition catalogue : Catalogue :=
  {| workflows := [W2; W1; W3]; scripts := [script_001] |}.

Definition cooling_task : Task.t :=
  Task.mk "cooling demand" (Some district) [("geometry", "zone.geojson")] []
    "estimate district cooling demand".

Definition mixed_task : Task.t :=
  Task.mk "network layout" None
    [("geometry", "old.geojson"); ("weather", "site.epw"); ("zones", "new.geojson");
     ("notes", "readme.txt")]
    [("algorithm", "steiner"); ("temperature", "12")]
    "lay out the network".

(** An input whose key names one row of the table and whose extension
    names another. *)
Definition relabelled_task : Task.t :=
  Task.mk "cooling demand" None [("weather", "site.geojson")] []
    "cooling demand with site.geojson as weather".

Definition script_002 : Script.t :=
  Script.mk (Some "script-002") "network_layout"
    [ScriptInput.mk "scenario_config" "yaml" true;
     ScriptInput.mk "algorithm" "string" false].

(** A workflow whose second step names a script missing from the
    catalogue. *)
Definition W4 : Workflow.t :=
  Workflow.mk (Some "wf-4") "cooling_demand_with_report"
    [WorkflowStep.mk 1 "script-001" "calculate_cooling_loads"
       (Some "Calculate hourly cooling loads for buildings");
     WorkflowStep.mk 2 "script-404" "generate_report" (Some "Generate report")]
    ["cooling"; "demand"; "report"].

(** The workflow of the missing-input test, as a plain [Workflow]: its
    step carries no description. *)
Definition W5 : Workflow.t :=
  Workflow.mk (Some "wf-5") "estimate_cooling_demand"
    [WorkflowStep.mk 1 "script-001" "calculate_cooling_loads" None]
    ["cooling"; "demand"; "thermal"].

(** The same catalogue, with a shadowed duplicate of its script. *)
Definition catalogue' : Catalogue :=
  {| workflows := [W2; W1; W3]; scripts := [script_001; script_001] |}.

Definition translator : BaseAgent.t := BaseAgent.mk "translator" 1 ∅ true.

(** [chat] and [translator] are registered, with empty inboxes. *)
Definition chat_online : Router.t :=
  Calls.exec [Calls.Register "chat" 2; Calls.Register "translator" 1] Router.empty.

Definition task_message : Message.t :=
  Message.mk REQUEST "chat" "translator" "conv-3" "task"
    (Task.to_dict cooling_task) 300.

(** A message of content type ["task"] whose content is not a task. *)
Definition bad_message : Message.t :=
  Message.mk REQUEST "chat" "translator" "conv-4" "task" [] 301.

(** The reply that [bad_message] gets. *)
Definition validation_failure : Performative * string * dict value :=
  (FAILURE, "error",
   [("error", VStr "Failed to process task: 2 validation errors for Task")]).

Definition cooling_plan : Plan.t :=
  Eval vm_compute in
    match QueryTranslatorAgent._compute_plan catalogue elements cooling_task W1 with
    | Ok plan => plan
    | Raise _ => Plan.mk [] "" [] []
    end.

End Scenario.

(** * Further parts of the sources *)

(** ** Further Python primitives *)

Module PyMore.

Definition upper_char (c : Ascii.ascii) : Ascii.ascii :=
  if is_lower c then Ascii.ascii_of_N (Ascii.N_of_ascii c - 32) else c.

(** [s.upper()] *)
Fixpoint upper (s : string) : string :=
  match s with
  | EmptyString => EmptyString
  | String c s' => String (upper_char c) (upper s')
  end.

(** [s.isascii()]; on such text [lower], [upper] and [findall_word] are
    the functions of Python. *)
Fixpoint is_ascii (s : string) : bool :=
  match s with
  | EmptyString => true
  | String c s' => (Ascii.N_of_ascii c <? 128)%N && is_ascii s'
  end.

(** [s.replace("", new)]: [new] after every character. *)
Fixpoint after_each (s new : string) : string :=
  match s with
  | EmptyString => EmptyString
  | String c s' => String c (new +:+ after_each s' new)
  end.

(** Left-to-right replacement of the occurrences of a non-empty [old];
    [skip] counts the characters of an occurrence still to be passed. *)
Fixpoint replace_from (s old new : string) (skip : nat) : string :=
  match s with
  | EmptyString => EmptyString
  | String c s' =>
      match skip with
      | S k => replace_from s' old new k
      | O =>
          if startswith s old
          then new +:+ replace_from s' old new (String.length old - 1)
          else String c (replace_from s' old new 0)
      end
  end.

(** [s.replace(old, new)] *)
Definition replace (s old new : string) : string :=
  match old with
  | EmptyString => new +:+ after_each s new
  | _ => replace_from s old new 0
  end.

(** [bool(v)] *)
Definition truthy (v : value) : bool :=
  match v with
  | VNone => false
  | VBool b => b
  | VInt z => negb (Z.eqb z 0)
  | VStr s => negb (String.eqb s "")
  | VList l => match l with [] => false | _ => true end
  | VDict d => match d with [] => false | _ => true end
  end.

(** [type(v).__name__] *)
Definition type_name (v : value) : string :=
  match v with
  | VNone => "NoneType"
  | VBool _ => "bool"
  | VInt _ => "int"
  | VStr _ => "str"
  | VList _ => "list"
  | VDict _ => "dict"
  end.

(** What [v.attr] raises when [v] has no attribute [attr]. *)
Definition attribute_error (v : value) (attr : string) : exn :=
  Exception "AttributeError"
    ("'" +:+ type_name v +:+ "' object has no attribute '" +:+ attr +:+ "'").

(** [d.get(k, default)] *)
Definition get_default {V} (k : string) (d : dict V) (default : V) : V :=
  match get k d with
  | Some v => v
  | None => default
  end.

(** [del d[k]] for a key that is present *)
Fixpoint del {V} (k : string) (d : dict V) : dict V :=
  match d with
  | [] => []
  | (k', v) :: d' => if String.eqb k k' then d' else (k', v) :: del k d'
  end.

End PyMore.

Import PyMore.

(** ** The translation handlers of the translator ([agents/translator.py]) *)

Module Translation.

Definition value_is (v : value) (s : string) : bool :=
  match v with
  | VStr t => String.eqb s t
  | _ => false
  end.

(** [translation_map], in insertion order: phrase, language, translation. *)
Definition translation_map : list (string * string * string) :=
  [("hello", "es", "hola");
   ("cooling demand", "es", "demanda de refrigeración");
   ("energy analysis", "es", "análisis energético");
   ("building", "es", "edificio");
   ("simulation", "es", "simulación")].

(** [_translate]; the handler passes whatever the message holds. *)
Definition _translate (text target_language : value) : result string :=
  match text with
  | VStr t =>
      let text_lower := lower t in
      match List.find (λ entry,
                         contains text_lower entry.1.1
                         && value_is target_language entry.1.2)
              translation_map with
      | Some entry => Ok (replace t entry.1.1 entry.2)
      | None =>
          match target_language with
          | VStr lang => Ok ("[" +:+ upper lang +:+ "] " +:+ t)
          | v => Raise (attribute_error v "upper")
          end
      end
  | v => Raise (attribute_error v "lower")
  end.

Definition spanish_keywords : list string :=
  ["hola"; "energía"; "edificio"; "análisis"; "simulación"].
Definition french_keywords : list string :=
  ["bonjour"; "énergie"; "bâtiment"; "analyse"; "simulation"].
Definition german_keywords : list string :=
  ["hallo"; "energie"; "gebäude"; "analyse"; "simulation"].

(** [any(keyword in text for keyword in keywords)] *)
Definition any_in (text : string) (keywords : list string) : bool :=
  existsb (λ keyword, contains text keyword) keywords.

Definition _detect_language (text : value) : result string :=
  match text with
  | VStr t =>
      let text_lower := lower t in
      if any_in text_lower spanish_keywords then Ok "es"
      else if any_in text_lower french_keywords then Ok "fr"
      else if any_in text_lower german_keywords then Ok "de"
      else Ok "en"
  | v => Raise (attribute_error v "lower")
  end.

(** The handler registered for content type ["translate"]. *)
Definition handle_translate (now : Z) (self : BaseAgent.t) : BaseAgent.handler :=
  λ message r,
    let text := get_default "text" (Message.content message) (VStr "") in
    let target_language :=
      get_default "target_language" (Message.content message) (VStr "en") in
    if negb (truthy text) then
      let '(r', _) :=
        BaseAgent.reply now self message FAILURE "error"
          [("error", VStr "No text provided for translation")] r in
      (r', Ok ())
    else
      match _translate text target_language with
      | Ok translated_text =>
          let '(r', _) :=
            BaseAgent.reply now self message INFORM "translation_result"
              [("original_text", text);
               ("translated_text", VStr translated_text);
               ("target_language", target_language)] r in
          (r', Ok ())
      | Raise e => (r, Raise e)
      end.

(** The handler registered for content type ["language_detect"];
    [confidence] stands for the floating-point constant [0.95]. *)
Definition handle_language_detect (confidence : value) (now : Z) (self : BaseAgent.t)
    : BaseAgent.handler :=
  λ message r,
    let text := get_default "text" (Message.content message) (VStr "") in
    if negb (truthy text) then
      let '(r', _) :=
        BaseAgent.reply now self message FAILURE "error"
          [("error", VStr "No text provided for language detection")] r in
      (r', Ok ())
    else
      match _detect_language text with
      | Ok detected_language =>
          let '(r', _) :=
            BaseAgent.reply now self message INFORM "language_detection_result"
              [("text", text);
               ("detected_language", VStr detected_language);
               ("confidence", confidence)] r in
          (r', Ok ())
      | Raise e => (r, Raise e)
      end.

(** [setup_handlers] of the translator: the three handlers, in the order
    they are registered. *)
Definition setup_handlers `{CapabilitiesProvider P} (capabilities : P)
    (iter_set : gset string → list string) (confidence : value) (now : Z)
    (self : BaseAgent.t) : BaseAgent.t :=
  let self1 := BaseAgent.on "translate" (handle_translate now self) self in
  let self2 :=
    BaseAgent.on "language_detect" (handle_language_detect confidence now self) self1 in
  BaseAgent.on "task"
    (QueryTranslatorAgent.handle_task capabilities iter_set now self) self2.

(** [QueryTranslatorAgent.__init__] with a capabilities provider. *)
Definition init `{CapabilitiesProvider P} (capabilities : P)
    (iter_set : gset string → list string) (confidence : value) (now : Z)
    (inbox : nat) (r : Router.t) : BaseAgent.t * Router.t :=
  let '(self, r') := BaseAgent.init "translator" inbox r in
  (setup_handlers capabilities iter_set confidence now self, r').

(** The phrases the mock translation knows. *)
Definition phrases : list string := (λ entry, entry.1.1) <$> translation_map.

End Translation.

(** ** The ping-pong agents ([agents/ping_pong.py]) *)

Module PingPong.

(** The fields a [PingerAgent] adds to those of [BaseAgent]; clock
    readings of [time.time()] are floating-point numbers and are kept
    abstract. *)
Record pinger : Type := mk {
  response_received : bool;
  response_message : option Message.t;
  ping_sent_time : option value
}.

Definition init : pinger := mk false None None.

(** The handler of the pinger for content type ["pong"]. *)
Definition handle_pong (message : Message.t) (st : pinger) : pinger :=
  mk true (Some message) (ping_sent_time st).

(** [send_ping]; [time] is the reading of [time.time()]. *)
Definition send_ping (now : Z) (uuid : string) (time : value) (self : BaseAgent.t)
    (st : pinger) (conversation_id : option string) (r : Router.t)
    : pinger * (Router.t * bool) :=
  (mk (response_received st) (response_message st) (Some time),
   BaseAgent.send now uuid self "ponger" REQUEST "ping"
     [("message", VStr "ping"); ("timestamp", time)] conversation_id r).

Definition reset (st : pinger) : pinger := mk false None None.

(** The handler of the ponger for content type ["ping"]. *)
Definition handle_ping (now : Z) (time : value) (self : BaseAgent.t)
    : BaseAgent.handler :=
  λ message r,
    let '(r', _) :=
      BaseAgent.reply now self message INFORM "pong"
        [("message", VStr "pong");
         ("original_timestamp",
          match get "timestamp" (Message.content message) with
          | Some t => t
          | None => VNone
          end);
         ("reply_timestamp", time)] r in
    (r', Ok ()).

(** [PongerAgent.__init__]: the agent registers under the name
    ["ponger"] and installs [handle_ping]. *)
Definition ponger_init (now : Z) (time : value) (inbox : nat) (r : Router.t)
    : BaseAgent.t * Router.t :=
  let '(self, r') := BaseAgent.init "ponger" inbox r in
  (BaseAgent.on "ping" (handle_ping now time self) self, r').

End PingPong.

(** ** The chat agent ([agents/chat.py]): text analysis and forwarding *)

Module ChatAgent.

(** [sum(1 for word in words if word in text)] *)
Definition count_in (text : string) (words : list string) : nat :=
  length (List.filter (λ word, contains text word) words).

Definition district_words : list string :=
  ["district"; "neighbourhood"; "neighborhood"; "area"; "zone"; "region"].
Definition building_words : list string :=
  ["building"; "house"; "structure"; "facility"].

Definition _detect_scope (text : string) : option Scope :=
  let text_lower := lower text in
  let district_score := count_in text_lower district_words in
  let building_score := count_in text_lower building_words in
  if building_score <? district_score then Some district
  else if 0 <? building_score then Some building
  else None.

(** The keyword table of [_parse_task], in insertion order. *)
Definition intent_keywords : dict (list string) :=
  [("cooling demand", ["cooling"; "demand"; "cool"; "estimate"]);
   ("network", ["network"; "pipe"; "distribution"; "optimize"]);
   ("tech selection", ["technology"; "system"; "selection"; "choose"]);
   ("kpis", ["kpi"; "performance"; "indicator"; "metric"]);
   ("cost", ["cost"; "economic"; "financial"; "price"]);
   ("ghg", ["emission"; "carbon"; "ghg"; "co2"; "greenhouse"])].

(** Body of the loop over the keywords of one intent. *)
Definition add_keyword (text_lower : string) (text_words : list string)
    (score : nat) (keyword : string) : nat :=
  let score := if contains text_lower keyword then score + 1 else score in
  if QueryTranslatorAgent.in_list keyword text_words then score + 1 else score.

(** [max(scores, key=scores.get)] on a dictionary that is not empty: the
    first key of greatest value. *)
Definition max_key (scores : dict nat) : option string :=
  match keys scores with
  | [] => None
  | k :: ks =>
      Some (foldl (λ best k',
                     if get_default best scores 0 <? get_default k' scores 0
                     then k' else best)
              k ks)
  end.

Definition _detect_intent (text : string) (intent_keywords : dict (list string))
    : string :=
  let text_lower := lower text in
  let text_words := findall_word text_lower in
  let intent_scores :=
    foldl (λ (intent_scores : dict nat) '(intent, keywords),
             set intent (foldl (add_keyword text_lower text_words) 0 keywords)
               intent_scores)
          [] intent_keywords in
  match max_key intent_scores with
  | Some best_intent =>
      if 0 <? get_default best_intent intent_scores 0 then best_intent
      else "general_analysis"
  | None => "general_analysis"
  end.

(** An entry of the [faq] list of the glossary. *)
Record faq_item : Type := {
  question : string;
  answer : string
}.

Definition faq_indicators : list string :=
  ["what is"; "how do"; "what are"; "how to"; "what file"; "what format"].

Definition stop_words : gset string :=
  list_to_set ["the"; "a"; "an"; "are"; "to"; "of"; "for"; "with"; "in"; "on"; "at"].

Definition key_terms : list string :=
  ["cea"; "cooling"; "demand"; "file"; "formats"; "support"; "network";
   "optimization"; "calculate"; "analyze"].

(** The words shared by the question of an entry and the text of the
    user, stop words apart. *)
Definition common_words (user_lower : string) (item : faq_item) : gset string :=
  let question := lower (question item) in
  let question_words : gset string := list_to_set (findall_word question) in
  let user_words : gset string := list_to_set (findall_word user_lower) in
  let question_content_words := question_words ∖ stop_words in
  let user_content_words := user_words ∖ stop_words in
  question_content_words ∩ user_content_words.

(** The test of the loop over the entries. *)
Definition answers (user_lower : string) (item : faq_item) : bool :=
  let common := common_words user_lower item in
  (1 <=? size common)
  && existsb (λ word, QueryTranslatorAgent.in_list word key_terms) (elements common).

(** [_lookup_faq]; [glossary] is the [faq] list of [self.glossary]. *)
Definition _lookup_faq (glossary : list faq_item) (user_text : string)
    : option string :=
  let user_lower := lower user_text in
  let is_faq_question := existsb (λ indicator, contains user_lower indicator)
                           faq_indicators in
  if negb is_faq_question then None
  else
    match List.find (answers user_lower) glossary with
    | Some item => Some (answer item)
    | None => None
    end.

(** The handler for content type ["plan"]; [pending_queries] maps a
    conversation id to the message that opened the conversation. *)
Definition handle_plan (now : Z) (self : BaseAgent.t)
    (pending_queries : dict Message.t) (message : Message.t) (r : Router.t)
    : dict Message.t * Router.t :=
  match get (Message.conversation_id message) pending_queries with
  | Some original_message =>
      let '(r', _) :=
        BaseAgent.reply now self original_message
          (Message.performative message)
          (Message.content_type message)
          (Message.content message) r in
      (del (Message.conversation_id message) pending_queries, r')
  | None => (pending_queries, r)
  end.

(** The handler for content type ["response"]. *)
Definition handle_response (now : Z) (self : BaseAgent.t)
    (pending_queries : dict Message.t) (message : Message.t) (r : Router.t)
    : dict Message.t * Router.t :=
  let response := get_default "answer" (Message.content message) (VStr "No response") in
  match get (Message.conversation_id message) pending_queries with
  | Some original_message =>
      let '(r', _) :=
        BaseAgent.reply now self original_message INFORM "response"
          [("answer", response)] r in
      (del (Message.conversation_id message) pending_queries, r')
  | None => (pending_queries, r)
  end.

End ChatAgent.

(** ** The tests made by the translator, named *)

Module Conditions.

(** The last character of a string. *)
Fixpoint last_char (s : string) : option Ascii.ascii :=
  match s with
  | EmptyString => None
  | String c s' =>
      match last_char s' with
      | Some d => Some d
      | None => Some c
      end
  end.

(** The file extensions [_extract_task_tags] looks for, with the tag each
    contributes. *)
Definition file_tags : list (string * string) :=
  [(".geojson", "geometry"); (".epw", "weather"); (".csv", "data");
   (".xlsx", "schedule")].

(** The names [_compute_plan] can report as available or missing. *)
Definition tracked : list string := ["weather_epw"; "geometry"; "scenario_config"].

(** The tests of the three availability checks of [_compute_plan]. *)
Definition weather_required (required_inputs : dict string) : bool :=
  mem "weather_file" required_inputs
  || existsb (λ req, contains (lower req) "weather") (keys required_inputs).

Definition weather_found (task : Task.t) : bool :=
  existsb (λ inp, endswith inp ".epw") (values (Task.inputs task))
  || mem "weather" (Task.inputs task).

Definition geometry_required (required_inputs : dict string) : bool :=
  mem "buildings" required_inputs
  || existsb (λ req, contains (lower req) "geometry") (keys required_inputs).

Definition geometry_found (task : Task.t) : bool :=
  existsb (λ inp, endswith inp ".geojson") (values (Task.inputs task))
  || mem "geometry" (Task.inputs task).

(** Some input value ends in [.geojson] or the key [geometry] is
    present. *)
Definition geometry_available (task : Task.t) : Prop :=
  (∃ value, value ∈ values (Task.inputs task) ∧ Spec.ends_with value ".geojson")
  ∨ "geometry" ∈ keys (Task.inputs task).

(** The number of keywords that occur in the lower-cased text, plus the
    number of keywords that are words of it. *)
Definition keyword_score (text : string) (keywords : list string) : nat :=
  length (List.filter (λ keyword, contains (lower text) keyword) keywords)
  + length (List.filter
              (λ keyword,
                 QueryTranslatorAgent.in_list keyword (findall_word (lower text)))
              keywords).

(** The text holds one of the phrases that mark a question. *)
Definition asks (user_text : string) : Prop :=
  ∃ indicator,
    indicator ∈ ChatAgent.faq_indicators ∧ contains (lower user_text) indicator = true.

(** A key term is a word of both the question of the entry and the text
    of the user, case apart. *)
Definition shares_key_term (user_text : string) (item : ChatAgent.faq_item) : Prop :=
  ∃ term,
    term ∈ ChatAgent.key_terms
    ∧ term ∈ findall_word (lower (ChatAgent.question item))
    ∧ term ∈ findall_word (lower user_text).

(** The fourth shape of reply to a task message. *)
Definition processing_failure_shape (reply : Performative * string * dict value)
    : Prop :=
  ∃ msg,
    reply = (FAILURE, "error",
             [("error", VStr ("Failed to process task: " +:+ msg))]).

End Conditions.

(** ** Further scenarios *)

Module Scenario2.

Definition m1 : Message.t :=
  Message.mk REQUEST "alice" "bob" "conv-a" "note" [("n", VInt 1)] 10.
Definition m2 : Message.t :=
  Message.mk REQUEST "carol" "bob" "conv-b" "note" [("n", VInt 2)] 11.

(** An agent without handlers, running, whose inbox is at address [7]. *)
Definition quiet_bob : BaseAgent.t := BaseAgent.mk "bob" 7 ∅ true.

(** A handler that is interrupted by the cancellation of its task. *)
Definition cancelled : BaseAgent.handler :=
  λ _ r, (r, Raise (BaseOnly "CancelledError" "")).

Definition fragile_bob : BaseAgent.t := BaseAgent.on "note" cancelled quiet_bob.

(** [bob] registered at [7] with [m1] then [m2] pending. *)
Definition two_notes : Router.t :=
  Calls.exec [Calls.Register "bob" 7; Calls.Route m1; Calls.Route m2] Router.empty.

(** Two tasks that differ in the order of their inputs and in the value
    of a constraint. *)
Definition ordered_task : Task.t :=
  Task.mk "cooling demand" (Some district)
    [("geometry", "zone.geojson"); ("weather", "site.epw")]
    [("timestep", "hourly")] "cooling demand for the district".

(** A workflow of two steps whose scripts are both in the catalogue. *)
Definition W6 : Workflow.t :=
  Workflow.mk (Some "wf-6") "cooling_demand_and_network"
    [WorkflowStep.mk 1 "script-001" "calculate_cooling_loads"
       (Some "Calculate hourly cooling loads for buildings");
     WorkflowStep.mk 2 "script-002" "run_network_optimization"
       (Some "Design optimal thermal network")]
    ["cooling"; "network"].

Definition catalogue2 : Catalogue :=
  {| workflows := [W6]; scripts := [Scenario.script_001; Scenario.script_002] |}.

Definition two_step_plan : Plan.t :=
  Eval vm_compute in
    match QueryTranslatorAgent._compute_plan catalogue2 elements
            Scenario.cooling_task W6 with
    | Ok plan => plan
    | Raise _ => Plan.mk [] "" [] []
    end.

(** A glossary of two entries and a question of a user. *)
Definition glossary : list ChatAgent.faq_item :=
  [ChatAgent.Build_faq_item "What is CEA?" "The City Energy Analyst.";
   ChatAgent.Build_faq_item "How do I calculate cooling demand?"
     "Run the demand workflow."].

(** The request that opened conversation [conv-9], and the plan the
    translator sent back in that conversation. *)
Definition user_query : Message.t :=
  Message.mk REQUEST "user" "chat" "conv-9" "user_text"
    [("text", VStr "estimate cooling demand")] 400.

Definition plan_message : Message.t :=
  Message.mk FAILURE "translator" "chat" "conv-9" "plan"
    [("reason", VStr "Missing required inputs: weather_epw")] 401.

Definition chat : BaseAgent.t := BaseAgent.mk "chat" 2 ∅ true.

(** [user], [chat] and [translator] are registered, with empty inboxes. *)
Definition user_online : Router.t :=
  Calls.exec [Calls.Register "user" 3] Scenario.chat_online.

(** The iteration order of another interpreter process: that of
    [elements], reversed. *)
Definition reversed (X : gset string) : list string := reverse (elements X).

Definition reordered_task : Task.t :=
  Task.mk "cooling demand" (Some district)
    [("weather", "site.epw"); ("geometry", "zone.geojson")]
    [("timestep", "daily")] "cooling demand for the district".

End Scenario2.

(** * Properties *)

(** ** Python primitives *)

Module PyFacts.

Lemma string_eqb_true (a b : string) : String.eqb a b = true ↔ a = b.
Proof. apply String.eqb_eq. Qed.

Lemma append_nil_l (s : string) : "" +:+ s = s.
Proof. reflexivity. Qed.

Lemma append_cons (a : Ascii.ascii) (s t : string) :
  String a s +:+ t = String a (s +:+ t).
Proof. reflexivity. Qed.

Lemma startswith_spec (s p : string) :
  startswith s p = true ↔ ∃ post, s = p +:+ post.
Proof.
  revert s. induction p as [|b p IH]; intros s; simpl.
  - split; [intros _; by exists s | done].
  - destruct s as [|a s].
    + split; [done | intros [post Hp]; discriminate].
    + destruct (Ascii.eqb a b) eqn:E.
      * apply Ascii.eqb_eq in E as ->. rewrite IH. split.
        -- intros [post ->]. by exists post.
        -- intros [post Hp]. injection Hp as ->. by exists post.
      * split; [done |]. intros [post Hp]. injection Hp as -> _.
        by rewrite Ascii.eqb_refl in E.
Qed.

Lemma contains_spec (s sub : string) :
  contains s sub = true ↔ ∃ pre post, s = pre +:+ sub +:+ post.
Proof.
  induction s as [|a s IH]; simpl.
  - destruct (startswith "" sub) eqn:E.
    + apply startswith_spec in E as [post E]. split; [|done].
      intros _. by exists "", post.
    + split; [done |]. intros (pre & post & Hs).
      destruct pre; [|discriminate]. simpl in Hs.
      assert (startswith "" sub = true) as E' by (apply startswith_spec; eauto).
      congruence.
  - destruct (startswith (String a s) sub) eqn:E.
    + apply startswith_spec in E as [post E]. split; [|done].
      intros _. by exists "", post.
    + rewrite IH. split.
      * intros (pre & post & ->). by exists (String a pre), post.
      * intros (pre & post & Hs). destruct pre as [|c pre].
        -- simpl in Hs.
           assert (startswith (String a s) sub = true) as E'
             by (apply startswith_spec; eauto).
           congruence.
        -- injection Hs as -> ->. by exists pre, post.
Qed.

Lemma endswith_eq (s suf : string) :
  endswith s suf =
  if String.eqb s suf then true
  else match s with
       | EmptyString => false
       | String _ s' => endswith s' suf
       end.
Proof. by destruct s. Qed.

Lemma endswith_spec (s suf : string) :
  endswith s suf = true ↔ ∃ pre, s = pre +:+ suf.
Proof.
  induction s as [|a s IH]; rewrite endswith_eq.
  - destruct (String.eqb "" suf) eqn:E.
    + apply String.eqb_eq in E as <-. split; [|done]. intros _. by exists "".
    + split; [done |]. intros [pre Hs]. destruct pre; [|discriminate].
      rewrite append_nil_l in Hs. rewrite <- Hs in E. by rewrite String.eqb_refl in E.
  - destruct (String.eqb (String a s) suf) eqn:E.
    + apply String.eqb_eq in E as <-. split; [|done]. intros _. by exists "".
    + rewrite IH. split.
      * intros [pre ->]. by exists (String a pre).
      * intros [pre Hs]. destruct pre as [|c pre].
        -- rewrite append_nil_l in Hs. rewrite <- Hs in E. by rewrite String.eqb_refl in E.
        -- injection Hs as -> ->. by exists pre.
Qed.

Section DictFacts.
Context {V : Type}.
Implicit Types (d : dict V) (k : string) (v : V).

Lemma get_set d k k' v :
  get k' (set k v d) = if String.eqb k' k then Some v else get k' d.
Proof.
  induction d as [|[k0 v0] d IH]; simpl.
  - by destruct (String.eqb k' k).
  - destruct (String.eqb k k0) eqn:E; simpl.
    + apply String.eqb_eq in E as ->. by destruct (String.eqb k' k0).
    + destruct (String.eqb k' k0) eqn:E'.
      * apply String.eqb_eq in E' as ->.
        rewrite String.eqb_sym in E. by rewrite E.
      * by rewrite IH.
Qed.

Lemma mem_set d k k' v :
  mem k' (set k v d) = String.eqb k' k || mem k' d.
Proof. unfold mem. rewrite get_set. by destruct (String.eqb k' k). Qed.

Lemma mem_keys d k : mem k d = true ↔ k ∈ keys d.
Proof.
  unfold mem, keys. induction d as [|[k0 v0] d IH]; simpl.
  - split; [done | by intros ?%elem_of_nil].
  - rewrite elem_of_cons. destruct (String.eqb k k0) eqn:E.
    + apply String.eqb_eq in E. split; [by left | done].
    + apply String.eqb_neq in E. rewrite IH. split; [by right | by intros [?|?]].
Qed.
End DictFacts.

End PyFacts.

(** ** Messages and routing *)

Module BusFacts.

(** C2 — the reply to [M] keeps the conversation of [M], goes back to
    the sender of [M] and comes from the receiver of [M] or from the
    override: from the receiver when no override is passed, from the
    override when one is passed and is not the empty string (the empty
    string, being falsy, counts as no override); performative, content
    type and content are the arguments of the call and the timestamp is
    the clock reading at the call.  [M] is a value and is not modified. *)
Theorem reply_correlates (now : Z) (M : Message.t) (performative : Performative)
    (content_type : string) (content : dict value) (sender : option string) :
  let R := Message.reply now M performative content_type content sender in
  Message.conversation_id R = Message.conversation_id M
  ∧ (Message.sender R = Message.receiver M ∨ sender = Some (Message.sender R))
  ∧ (sender = None → Message.sender R = Message.receiver M)
  ∧ (∀ s, sender = Some s → s ≠ "" → Message.sender R = s)
  ∧ (sender = Some "" → Message.sender R = Message.receiver M)
  ∧ Message.receiver R = Message.sender M
  ∧ Message.performative R = performative
  ∧ Message.content_type R = content_type
  ∧ Message.content R = content
  ∧ Message.timestamp R = now.
Proof.
  simpl. split_and!; try reflexivity.
  - destruct sender as [[|a s]|]; [by left | by right | by left].
  - by intros ->.
  - intros s -> Hs. by destruct s.
  - by intros ->.
Qed.

Lemma reply_correlates_witness :
  Message.sender
    (Message.reply 101 Scenario.ping INFORM "pong" [] (Some "carol")) = "carol".
Proof.
  destruct (reply_correlates 101 Scenario.ping INFORM "pong" [] (Some "carol"))
    as (_ & _ & _ & Hoverride & _).
  apply Hoverride; [reflexivity | discriminate].
Defined.

(** An empty override: the reply to [ping] is sent in the name of [bob],
    the receiver of [ping]. *)
Example reply_empty_override :
  Message.sender (Message.reply 101 Scenario.ping INFORM "pong" [] (Some "")) = "bob".
Proof. reflexivity. Qed.

Lemma items_enqueue_eq (q : nat) (m : Message.t) (r : Router.t) :
  Router.items q (Router.enqueue q m r) = Router.items q r ++ [m].
Proof. unfold Router.items, Router.enqueue. simpl. by rewrite lookup_insert_eq. Qed.

Lemma items_enqueue_ne (q q' : nat) (m : Message.t) (r : Router.t) :
  q' ≠ q → Router.items q' (Router.enqueue q m r) = Router.items q' r.
Proof.
  intros Hne. unfold Router.items, Router.enqueue. simpl.
  by rewrite lookup_insert_ne.
Qed.

Lemma route_registered (m : Message.t) (r : Router.t) (q : nat) :
  Router._agents r !! Message.receiver m = Some q →
  Router.route m r = (Router.enqueue q m r, true).
Proof. intros Hq. unfold Router.route. by rewrite Hq. Qed.

Lemma route_unregistered (m : Message.t) (r : Router.t) :
  Router._agents r !! Message.receiver m = None →
  Router.route m r = (r, false).
Proof. intros Hq. unfold Router.route. by rewrite Hq. Qed.

Lemma route_agents (m : Message.t) (r : Router.t) :
  Router._agents (Router.route m r).1 = Router._agents r.
Proof. unfold Router.route. by destruct (Router._agents r !! _). Qed.

(** A registration survives every call that neither registers nor
    unregisters the same name. *)
Lemma registration_stable (id : string) (q : nat) (calls : list Calls.t) (r : Router.t) :
  Forall (λ c, Calls.rebinds id c = false) calls →
  Router._agents r !! id = Some q →
  Router._agents (Calls.exec calls r) !! id = Some q.
Proof.
  unfold Calls.exec. intros Hcalls. revert r.
  induction Hcalls as [|c calls Hc _ IH]; intros r Hq; [done |].
  simpl. apply IH. destruct c as [n i|n|m]; simpl in *.
  - apply String.eqb_neq in Hc. by rewrite lookup_insert_ne.
  - apply String.eqb_neq in Hc. unfold Router.unregister_agent.
    destruct (Router._agents r !! n); [|done]. simpl.
    by rewrite lookup_delete_ne.
  - by rewrite route_agents.
Qed.

(** C3 — [route] reports [false] exactly when the receiver is not
    registered, and then leaves the router as it was; when the receiver is
    registered the message is appended once to the registered inbox,
    nothing else changes and [true] is reported.  Hence a message routed
    after [register_agent id q], with no call rebinding [id] in between,
    lands on [q] once, and a message routed after [unregister_agent] is
    dropped. *)
Theorem route_iff_registered (m : Message.t) (r : Router.t) :
  ((Router.route m r).2 = false ↔ Router._agents r !! Message.receiver m = None)
  ∧ ((Router.route m r).2 = false → (Router.route m r).1 = r)
  ∧ (∀ q, Router._agents r !! Message.receiver m = Some q →
       (Router.route m r).2 = true
       ∧ Router.items q (Router.route m r).1 = Router.items q r ++ [m]
       ∧ (∀ q', q' ≠ q → Router.items q' (Router.route m r).1 = Router.items q' r)
       ∧ Router._agents (Router.route m r).1 = Router._agents r)
  ∧ (∀ q calls r0,
       Forall (λ c, Calls.rebinds (Message.receiver m) c = false) calls →
       r = Calls.exec calls (Router.register_agent (Message.receiver m) q r0) →
       (Router.route m r).2 = true
       ∧ Router.items q (Router.route m r).1 = Router.items q r ++ [m])
  ∧ (Router.route m (Router.unregister_agent (Message.receiver m) r)).2 = false.
Proof.
  assert (∀ q, Router._agents r !! Message.receiver m = Some q →
            (Router.route m r).2 = true
            ∧ Router.items q (Router.route m r).1 = Router.items q r ++ [m]
            ∧ (∀ q', q' ≠ q →
                 Router.items q' (Router.route m r).1 = Router.items q' r)
            ∧ Router._agents (Router.route m r).1 = Router._agents r) as Hreg.
  { intros q Hq. rewrite (route_registered _ _ _ Hq). simpl.
    split_and!; [done | apply items_enqueue_eq | |done].
    intros q' Hne. by apply items_enqueue_ne. }
  split_and!.
  - destruct (Router._agents r !! Message.receiver m) as [q|] eqn:Hq.
    + rewrite (route_registered _ _ _ Hq). simpl. split; discriminate.
    + by rewrite (route_unregistered _ _ Hq).
  - destruct (Router._agents r !! Message.receiver m) as [q|] eqn:Hq.
    + rewrite (route_registered _ _ _ Hq). discriminate.
    + by rewrite (route_unregistered _ _ Hq).
  - exact Hreg.
  - intros q calls r0 Hcalls ->.
    destruct (Hreg q) as (? & ? & _); [|done].
    apply registration_stable; [done |]. simpl. apply lookup_insert_eq.
  - rewrite route_unregistered; [done |]. unfold Router.unregister_agent.
    destruct (Router._agents r !! Message.receiver m) eqn:Hq; [|done].
    simpl. apply lookup_delete_eq.
Qed.

Lemma route_iff_registered_witness :
  (Router.route Scenario.ping Scenario.bob_online).2 = true
  ∧ Router.items 7 (Router.route Scenario.ping Scenario.bob_online).1
    = Router.items 7 Scenario.bob_online ++ [Scenario.ping].
Proof.
  destruct (route_iff_registered Scenario.ping Scenario.bob_online)
    as (_ & _ & _ & H & _).
  apply (H 7 [Calls.Register "carol" 3; Calls.Unregister "carol"] Router.empty).
  - repeat constructor.
  - reflexivity.
Defined.

End BusFacts.

(** ** The dispatch boundary *)

Module AgentFacts.

Lemma reply_routes (now : Z) (self : BaseAgent.t) (M : Message.t)
    (performative : Performative) (content_type : string) (content : dict value)
    (r : Router.t) :
  BaseAgent.reply now self M performative content_type content r =
  Router.route
    (Message.reply now M performative content_type content
       (Some (BaseAgent.name self))) r.
Proof. reflexivity. Qed.

(** An exception that is not an [Exception] is not caught at the
    boundary. *)
Lemma base_exception_escapes (now : Z) (self : BaseAgent.t) (M : Message.t)
    (h : BaseAgent.handler) (r r' : Router.t) (cls msg : string) :
  BaseAgent._handlers self !! Message.content_type M = Some h →
  h M r = (r', Raise (BaseOnly cls msg)) →
  BaseAgent.handle_message now self M r = (r', Raise (BaseOnly cls msg)).
Proof. intros Hh Hr. unfold BaseAgent.handle_message. by rewrite Hh, Hr. Qed.

(** C4 — when the handler registered for the content type of [M] raises
    an [Exception], [handle_message] returns normally after routing one
    reply [R]: a FAILURE of content type ["error"], addressed to the
    sender of [M] in the conversation of [M], carrying the text of the
    exception and the content type of [M].  Nothing else is done to the
    router after the handler stopped, and the loop of [run] goes on to its
    next pass. *)
Theorem handler_failure_contained (now : Z) (self : BaseAgent.t) (M : Message.t)
    (h : BaseAgent.handler) (r r' : Router.t) (cls msg : string) :
  BaseAgent._handlers self !! Message.content_type M = Some h →
  h M r = (r', Raise (Exception cls msg)) →
  let R :=
    Message.reply now M FAILURE "error"
      [("error", VStr msg);
       ("original_content_type", VStr (Message.content_type M))]
      (Some (BaseAgent.name self)) in
  BaseAgent.handle_message now self M r = ((Router.route R r').1, Ok ())
  ∧ Message.performative R = FAILURE
  ∧ Message.receiver R = Message.sender M
  ∧ Message.conversation_id R = Message.conversation_id M
  ∧ get "error" (Message.content R) = Some (VStr msg)
  ∧ get "original_content_type" (Message.content R)
    = Some (VStr (Message.content_type M))
  ∧ (∀ q, Router._agents r' !! Message.sender M = Some q →
       Router.items q (BaseAgent.handle_message now self M r).1
       = Router.items q r' ++ [R])
  ∧ (∀ clock i n r0,
       clock i = now →
       BaseAgent._running self = true →
       BaseAgent.get self r0 = Some (M, r) →
       BaseAgent.loop clock i (S n) self r0
       = BaseAgent.loop clock (S i) n self (Router.route R r').1).
Proof.
  intros Hh Hr R.
  assert (BaseAgent.handle_message now self M r = ((Router.route R r').1, Ok ()))
    as Hhandle.
  { unfold BaseAgent.handle_message. rewrite Hh, Hr, reply_routes.
    fold R. by destruct (Router.route R r'). }
  split_and!; try done.
  - intros q Hq. rewrite Hhandle. simpl.
    rewrite (BusFacts.route_registered R r' q) by done.
    apply BusFacts.items_enqueue_eq.
  - intros clock i n r0 Hclock Hrun Hget. simpl.
    rewrite Hrun. unfold BaseAgent.cycle. by rewrite Hget, Hclock, Hhandle.
Qed.

Lemma handler_failure_contained_witness :
  BaseAgent.loop (λ _, 200%Z) 0 2 Scenario.bob Scenario.two_pending
  = BaseAgent.loop (λ _, 200%Z) 1 1 Scenario.bob
      (Router.route
         (Message.reply 200 Scenario.ping FAILURE "error"
            [("error", VStr "boom"); ("original_content_type", VStr "ping")]
            (Some "bob"))
         (Router.mk (Router._agents Scenario.two_pending)
            (<[7 := [Scenario.hello]]> (Router.heap Scenario.two_pending)))).1.
Proof.
  eapply (handler_failure_contained 200 Scenario.bob Scenario.ping
            Scenario.failing _ _ "ValueError" "boom");
    reflexivity.
Defined.

(** Two passes of [bob] over [ping] then [hello]: the failure of the first
    handler is reported to [alice], and the second message is still
    handled. *)
Example failure_then_next_message :
  let out := BaseAgent.run (λ _, 200%Z) 2 Scenario.bob Scenario.two_pending in
  out.2 = Ok ()
  ∧ Router.items 7 out.1 = []
  ∧ Router.items 5 out.1
    = [Message.mk FAILURE "bob" "alice" "conv-1" "error"
         [("error", VStr "boom"); ("original_content_type", VStr "ping")] 200;
       Message.mk AGREE "bob" "alice" "conv-2" "ack" [] 0].
Proof. by vm_compute. Qed.

End AgentFacts.

(** ** Splitting at whitespace *)

Module SplitFacts.

Lemma append_nil_r (a : string) : a +:+ "" = a.
Proof. induction a as [|x a IH]; [done |]. by rewrite PyFacts.append_cons, IH. Qed.

Lemma append_assoc (a b c : string) : (a +:+ b) +:+ c = a +:+ b +:+ c.
Proof.
  induction a as [|x a IH]; [by rewrite !PyFacts.append_nil_l |].
  by rewrite !PyFacts.append_cons, IH.
Qed.

Lemma append_length (a b : string) :
  String.length (a +:+ b) = String.length a + String.length b.
Proof.
  induction a as [|x a IH]; [by rewrite PyFacts.append_nil_l |].
  rewrite PyFacts.append_cons. cbn [String.length]. by rewrite IH.
Qed.

Lemma append_inv_l (a b c : string) : a +:+ b = a +:+ c → b = c.
Proof.
  induction a as [|x a IH]; [by rewrite !PyFacts.append_nil_l |].
  rewrite !PyFacts.append_cons. intros [= Heq]. by apply IH.
Qed.

Lemma cons_append_inv (c : Ascii.ascii) (w u v : string) :
  String c w = u +:+ v →
  (u = "" ∧ v = String c w) ∨ (∃ u', u = String c u' ∧ w = u' +:+ v).
Proof.
  destruct u as [|d u'].
  - rewrite PyFacts.append_nil_l. intros <-. by left.
  - rewrite PyFacts.append_cons. intros [= <- ->]. right. by exists u'.
Qed.

Lemma utf8_length (cp : N) : 1 ≤ String.length (utf8 cp).
Proof. unfold utf8. repeat case_match; cbn; lia. Qed.

(** [space_prefix] finds a whitespace character exactly when one starts
    the string. *)
Lemma space_prefix_some (s : string) (k : nat) :
  space_prefix s = S k →
  ∃ cp rest,
    cp ∈ whitespace ∧ s = utf8 cp +:+ rest ∧ String.length (utf8 cp) = S k.
Proof.
  unfold space_prefix.
  destruct (List.find _ whitespace) as [cp|] eqn:Hfind; [|done].
  apply find_some in Hfind as [Hin%list_elem_of_In [rest Hrest]%PyFacts.startswith_spec].
  intros Hlen. by exists cp, rest.
Qed.

Lemma space_prefix_zero (s : string) :
  space_prefix s = 0 ↔ ¬ Spec.starts_space s.
Proof.
  unfold space_prefix, Spec.starts_space. split.
  - destruct (List.find _ whitespace) as [cp|] eqn:Hfind.
    + pose proof (utf8_length cp). lia.
    + intros _ (cp & rest & Hin%list_elem_of_In & Hs).
      pose proof (find_none _ _ Hfind cp Hin) as Hno. cbv beta in Hno.
      assert (startswith s (utf8 cp) = true) as Hyes
        by (apply PyFacts.startswith_spec; by exists rest).
      congruence.
  - intros Hno. destruct (List.find _ whitespace) as [cp|] eqn:Hfind; [|done].
    apply find_some in Hfind as [Hin%list_elem_of_In [rest Hrest]%PyFacts.startswith_spec].
    exfalso. apply Hno. by exists cp, rest.
Qed.

(** Passing the bytes still to be skipped. *)
Lemma split_skip (x rest cur : string) :
  split_from (x +:+ rest) cur (String.length x) = split_from rest cur 0.
Proof.
  induction x as [|c x IH].
  - rewrite PyFacts.append_nil_l. by destruct rest.
  - rewrite PyFacts.append_cons. cbn [String.length split_from]. apply IH.
Qed.

Lemma flush_words (w rest : string) (l : list string) :
  Spec.space_free w rest → rest = "" ∨ Spec.starts_space rest →
  Spec.words rest l → Spec.words (w +:+ rest) (flush w ++ l).
Proof.
  intros Hfree Hrest Hwords. destruct w as [|c w].
  - by rewrite PyFacts.append_nil_l.
  - cbn [flush app]. by apply Spec.words_word.
Qed.

(** The scan from a position where no byte is to be skipped: it reads the
    rest of the current word, then the words that follow. *)
Lemma split_from_words (n : nat) :
  ∀ s cur, String.length s ≤ n →
    ∃ w rest l,
      s = w +:+ rest
      ∧ Spec.space_free w rest
      ∧ (rest = "" ∨ Spec.starts_space rest)
      ∧ Spec.words rest l
      ∧ split_from s cur 0 = flush (cur +:+ w) ++ l.
Proof.
  induction n as [n IH] using lt_wf_ind. intros s cur Hlen.
  destruct s as [|c s'].
  - exists "", "", []. split_and!; [done | | by left | constructor |].
    + intros u v Huv Hv. by destruct u, v.
    + cbn [split_from]. by rewrite append_nil_r, app_nil_r.
  - cbn [String.length] in Hlen. cbn [split_from].
    destruct (space_prefix (String c s')) as [|k] eqn:Hspace.
    + destruct (IH (String.length s') ltac:(lia) s' (cur +:+ String c "") (le_n _))
        as (w & rest & l & -> & Hfree & Hrest & Hwords & Hsplit).
      exists (String c w), rest, l. split_and!; try done.
      * intros u v Huv Hv.
        apply cons_append_inv in Huv as [[-> ->]|(u' & -> & ->)].
        -- rewrite PyFacts.append_cons. by apply space_prefix_zero.
        -- by apply (Hfree u' v).
      * rewrite Hsplit. by rewrite append_assoc.
    + destruct (space_prefix_some _ _ Hspace) as (cp & rest0 & Hcp & Hs & Hk).
      destruct (utf8 cp) as [|b x] eqn:Hutf; [done |].
      rewrite PyFacts.append_cons in Hs. injection Hs as -> ->.
      cbn [String.length] in Hk. injection Hk as <-.
      rewrite split_skip.
      assert (String.length (x +:+ rest0) = String.length x + String.length rest0)
        as Hlen' by apply append_length.
      destruct (IH (String.length rest0) ltac:(lia) rest0 "" (le_n _))
        as (w & rest & l & -> & Hfree & Hrest & Hwords & Hsplit).
      exists "", (String b (x +:+ w +:+ rest)), (flush w ++ l). split_and!.
      * done.
      * intros u v Huv Hv. by destruct u, v.
      * right. exists cp, (w +:+ rest). split; [done |].
        by rewrite Hutf, PyFacts.append_cons.
      * rewrite <- PyFacts.append_cons, <- Hutf. apply Spec.words_space; [done |].
        by apply flush_words.
      * rewrite append_nil_r, Hsplit. by rewrite PyFacts.append_nil_l.
Qed.

(** [split] returns the words of the string. *)
Lemma split_words (s : string) : Spec.words s (split s).
Proof.
  unfold split.
  destruct (split_from_words (String.length s) s "" (le_n _))
    as (w & rest & l & -> & Hfree & Hrest & Hwords & ->).
  rewrite PyFacts.append_nil_l. by apply flush_words.
Qed.


Lemma append_eq_nil (a b : string) : a +:+ b = "" → a = "" ∧ b = "".
Proof. destruct a; [by rewrite PyFacts.append_nil_l | done]. Qed.

(** Two ways of cutting one string: one cut is inside the other piece. *)
Lemma append_eq_cases (a b c d : string) :
  a +:+ b = c +:+ d →
  ∃ m, (a = c +:+ m ∧ d = m +:+ b) ∨ (c = a +:+ m ∧ b = m +:+ d).
Proof.
  revert c. induction a as [|x a IH]; intros c Heq.
  - rewrite PyFacts.append_nil_l in Heq. exists c. right.
    by rewrite PyFacts.append_nil_l.
  - destruct c as [|y c].
    + rewrite PyFacts.append_nil_l in Heq. exists (String x a). left.
      by rewrite PyFacts.append_nil_l.
    + rewrite !PyFacts.append_cons in Heq. injection Heq as <- Heq.
      destruct (IH c Heq) as [m [[-> ->]|[-> ->]]]; exists m; [left | right];
        by rewrite PyFacts.append_cons.
Qed.

Lemma append_inj_length (a b c d : string) :
  String.length a = String.length c → a +:+ b = c +:+ d → a = c ∧ b = d.
Proof.
  revert c. induction a as [|x a IH]; intros [|y c] Hlen Heq; try done.
  rewrite !PyFacts.append_cons in Heq. injection Heq as <- Heq.
  cbn [String.length] in Hlen. injection Hlen as Hlen.
  by destruct (IH c Hlen Heq) as [-> ->].
Qed.

Lemma whitespace_following (cp : N) (b : Ascii.ascii) (x : string) :
  cp ∈ whitespace → utf8 cp = String b x → String.length x = Spec.following b.
Proof.
  intros Hcp%list_elem_of_In. unfold whitespace in Hcp. cbn [In] in Hcp.
  repeat (destruct Hcp as [<-|Hcp];
          [vm_compute; intros [= <- <-]; reflexivity |]).
  done.
Qed.

(** No whitespace character is the beginning of another. *)
Lemma whitespace_prefix_free (cp cp' : N) (rest rest' : string) :
  cp ∈ whitespace → cp' ∈ whitespace →
  utf8 cp +:+ rest = utf8 cp' +:+ rest' → rest = rest'.
Proof.
  intros Hcp Hcp' Heq.
  destruct (utf8 cp) as [|b x] eqn:Hx;
    [pose proof (utf8_length cp) as Hl; rewrite Hx in Hl; cbn in Hl; lia |].
  destruct (utf8 cp') as [|b' x'] eqn:Hx';
    [pose proof (utf8_length cp') as Hl; rewrite Hx' in Hl; cbn in Hl; lia |].
  rewrite !PyFacts.append_cons in Heq. injection Heq as <- Heq.
  apply (append_inj_length x rest x' rest'); [|done].
  by rewrite (whitespace_following cp b x), (whitespace_following cp' b x').
Qed.

Lemma utf8_append_ne (cp : N) (rest : string) : utf8 cp +:+ rest ≠ "".
Proof.
  intros [Hnil _]%append_eq_nil. pose proof (utf8_length cp) as Hlen.
  rewrite Hnil in Hlen. cbn in Hlen. lia.
Qed.

Lemma space_free_not_space (w rest : string) :
  w ≠ "" → Spec.space_free w rest → ¬ Spec.starts_space (w +:+ rest).
Proof. intros Hw Hfree. apply (Hfree "" w); [by rewrite PyFacts.append_nil_l | done]. Qed.

Lemma same_word (w rest w' rest' : string) :
  Spec.space_free w rest → rest' = "" ∨ Spec.starts_space rest' →
  w +:+ rest = w' +:+ rest' → (∃ m, w = w' +:+ m ∧ rest' = m +:+ rest) →
  w = w' ∧ rest = rest'.
Proof.
  intros Hfree Hrest' Heq (m & -> & ->). destruct m as [|c m].
  - by rewrite append_nil_r, PyFacts.append_nil_l.
  - exfalso. destruct Hrest' as [Hnil|Hspace]; [done |].
    by apply (Hfree w' (String c m)).
Qed.

(** The three ways a string can have words. *)
Lemma words_inv (s : string) (l : list string) :
  Spec.words s l →
  (s = "" ∧ l = [])
  ∨ (∃ cp rest, cp ∈ whitespace ∧ s = utf8 cp +:+ rest ∧ Spec.words rest l)
  ∨ (∃ w rest l',
        w ≠ "" ∧ Spec.space_free w rest ∧ (rest = "" ∨ Spec.starts_space rest)
        ∧ s = w +:+ rest ∧ l = w :: l' ∧ Spec.words rest l').
Proof.
  intros [|cp rest l' Hcp Hwords|w rest l' Hw Hfree Hrest Hwords].
  - by left.
  - right. left. by exists cp, rest.
  - right. right. by exists w, rest, l'.
Qed.

(** A string has one list of words. *)
Lemma words_unique (s : string) (l1 : list string) :
  Spec.words s l1 → ∀ l2, Spec.words s l2 → l1 = l2.
Proof.
  induction 1 as [|cp rest l Hcp Hwords IH|w rest l Hw Hfree Hrest Hwords IH];
    intros l2 H2;
    apply words_inv in H2
      as [[Heq ->]|[(cp' & rest' & Hcp' & Heq & Hwords')
                   |(w' & rest' & l' & Hw' & Hfree' & Hrest' & Heq & -> & Hwords')]].
  - done.
  - symmetry in Heq. by apply utf8_append_ne in Heq.
  - symmetry in Heq. apply append_eq_nil in Heq as [? _]. done.
  - by apply utf8_append_ne in Heq.
  - apply whitespace_prefix_free in Heq; [|done..]. subst rest'. by apply IH.
  - exfalso. apply (space_free_not_space w' rest' Hw' Hfree').
    rewrite <- Heq. by exists cp, rest.
  - apply append_eq_nil in Heq as [? _]. done.
  - exfalso. apply (space_free_not_space w rest Hw Hfree).
    rewrite Heq. by exists cp', rest'.
  - assert (w = w' ∧ rest = rest') as [<- <-].
    { destruct (append_eq_cases w rest w' rest' Heq) as [m [Hm|Hm]].
      - apply (same_word w rest w' rest'); [done | done | done |]. by exists m.
      - symmetry in Heq.
        destruct (same_word w' rest' w rest) as [-> ->]; [done | done | done | |done].
        by exists m. }
    f_equal. by apply IH.
Qed.

(** [split] returns the words of the string, and nothing else does. *)
Lemma split_spec (s : string) (l : list string) : Spec.words s l ↔ l = split s.
Proof.
  split.
  - intros Hwords. by apply (words_unique s l Hwords), split_words.
  - intros ->. apply split_words.
Qed.

End SplitFacts.

(** ** Scoring and selection *)

Module SelectionFacts.

Import QueryTranslatorAgent.

Lemma in_list_spec (x : string) (l : list string) : in_list x l = true ↔ x ∈ l.
Proof.
  unfold in_list. rewrite existsb_exists. split.
  - intros (y & Hy & Heq%String.eqb_eq). subst y. by apply list_elem_of_In.
  - intros Hx. exists x. split; [by apply list_elem_of_In | apply String.eqb_refl].
Qed.

Lemma overlap_nonempty (task : Task.t) (workflow : Workflow.t) :
  overlap task workflow ≠ ∅ ↔ Spec.shares_tag task workflow.
Proof.
  unfold overlap, Spec.shares_tag. split.
  - intros [tag Htag]%set_choose_L. exists tag.
    apply elem_of_intersection in Htag as [? ?%elem_of_list_to_set]. done.
  - intros (tag & Ht & Hw) Hempty.
    assert (tag ∈ (∅ : gset string)) as Hin; [|by apply not_elem_of_empty in Hin].
    rewrite <- Hempty. apply elem_of_intersection. split; [done |].
    by apply elem_of_list_to_set.
Qed.

Lemma candidate_spec `{CapabilitiesProvider P} (capabilities : P) (task : Task.t)
    (workflow : Workflow.t) :
  workflow ∈ _get_candidate_workflows capabilities task
  ↔ workflow ∈ get_all_workflows capabilities ∧ Spec.shares_tag task workflow.
Proof.
  unfold _get_candidate_workflows. rewrite list_elem_of_filter, overlap_nonempty.
  tauto.
Qed.

Lemma score_ge_overlap (task : Task.t) (workflow : Workflow.t) :
  size (overlap task workflow) ≤ _calculate_workflow_score task workflow.
Proof. unfold _calculate_workflow_score. lia. Qed.

Lemma overlap_size_pos (task : Task.t) (workflow : Workflow.t) :
  overlap task workflow ≠ ∅ → 1 ≤ size (overlap task workflow).
Proof.
  intros Hne. destruct (size (overlap task workflow)) eqn:Hsize; [|lia].
  apply size_empty_iff in Hsize. by apply leibniz_equiv in Hsize.
Qed.

Lemma selection_loop (task : Task.t) (seen : list Workflow.t) :
  Spec.selected task seen (foldl (better task) (None, 0) seen).
Proof.
  induction seen as [|x seen IH] using rev_ind.
  - split; [done |]. by intros x ?%elem_of_nil.
  - rewrite foldl_snoc. unfold better at 1.
    destruct (foldl (better task) (None, 0) seen) as [[w|] s];
      unfold Spec.selected in *; simpl in *.
    + destruct IH as (-> & pre & post & -> & Hpre & Hpost).
      destruct (_ <? _) eqn:Hlt; simpl.
      * apply Nat.ltb_lt in Hlt. split; [done |].
        exists (pre ++ w :: post), []. split_and!; [done | |by intros ? ?%elem_of_nil].
        intros y [Hy|[->|Hy]%elem_of_cons]%elem_of_app.
        -- specialize (Hpre y Hy). lia.
        -- done.
        -- specialize (Hpost y Hy). lia.
      * apply Nat.ltb_ge in Hlt. split; [done |].
        exists pre, (post ++ [x]). split_and!; [by rewrite <- app_assoc | done |].
        intros y [Hy|Hy%list_elem_of_singleton]%elem_of_app; [by apply Hpost | by subst y].
    + destruct IH as (-> & Hzero).
      destruct (_ <? _) eqn:Hlt; simpl.
      * split; [done |]. exists seen, []. split_and!; [done | |by intros ? ?%elem_of_nil].
        intros y Hy. rewrite (Hzero y Hy). by apply Nat.ltb_lt in Hlt.
      * apply Nat.ltb_ge in Hlt. split; [done |].
        intros y [Hy|Hy%list_elem_of_singleton]%elem_of_app; [by apply Hzero | subst y; lia].
Qed.

Lemma intent_bonus_spec (task : Task.t) (workflow : Workflow.t) :
  contains (Workflow.name workflow) (Task.intent task)
  || existsb (λ word, contains (Workflow.name workflow) word) (split (Task.intent task))
  = true
  ↔ Spec.intent_matches task workflow.
Proof.
  unfold Spec.intent_matches, Spec.substring.
  rewrite orb_true_iff, PyFacts.contains_spec, existsb_exists.
  apply or_iff_compat_l. split.
  - intros (word & Hin & Hsub). exists word.
    by rewrite list_elem_of_In, <- PyFacts.contains_spec.
  - intros (word & Hin & Hsub). exists word.
    by rewrite <- list_elem_of_In, PyFacts.contains_spec.
Qed.

Lemma scope_bonus_spec (task : Task.t) (workflow : Workflow.t) :
  match Task.scope task with
  | Some s => in_list (scope_str s) (Workflow.tags workflow)
  | None => false
  end = true
  ↔ Spec.scope_matches task workflow.
Proof.
  unfold Spec.scope_matches. destruct (Task.scope task) as [s|].
  - rewrite in_list_spec. split; [by exists s |].
    by intros (s' & [= <-] & Hin).
  - split; [done | by intros (s' & [=] & _)].
Qed.

Lemma candidates_score_pos `{CapabilitiesProvider P} (capabilities : P)
    (task : Task.t) (workflow : Workflow.t) :
  workflow ∈ _get_candidate_workflows capabilities task →
  1 ≤ size (overlap task workflow)
  ∧ size (overlap task workflow) ≤ _calculate_workflow_score task workflow.
Proof.
  unfold _get_candidate_workflows. intros [Hne _]%list_elem_of_filter.
  split; [by apply overlap_size_pos | apply score_ge_overlap].
Qed.

(** The loop ends on the first candidate of greatest score. *)
Lemma best_of_candidates `{CapabilitiesProvider P} (capabilities : P) (task : Task.t) :
  _get_candidate_workflows capabilities task ≠ [] →
  ∃ pre w post,
    _get_candidate_workflows capabilities task = pre ++ w :: post
    ∧ _find_best_workflow capabilities task = Some w
    ∧ (∀ x, x ∈ pre →
         _calculate_workflow_score task x < _calculate_workflow_score task w)
    ∧ (∀ x, x ∈ post →
         _calculate_workflow_score task x ≤ _calculate_workflow_score task w).
Proof.
  intros Hne. unfold _find_best_workflow.
  pose proof (selection_loop task (_get_candidate_workflows capabilities task)) as Hsel.
  pose proof (candidates_score_pos capabilities task) as Hpos.
  destruct (_get_candidate_workflows capabilities task) as [|c cs] eqn:Hcs; [done |].
  unfold Spec.selected in Hsel.
  destruct (foldl (better task) (None, 0) (c :: cs)).1 as [w|].
  - destruct Hsel as (_ & pre & post & Heq & Hpre & Hpost).
    exists pre, w, post. by rewrite Heq.
  - destruct Hsel as (_ & Hzero).
    specialize (Hzero c (list_elem_of_here _ _)).
    specialize (Hpos c (list_elem_of_here _ _)). lia.
Qed.

Lemma best_none_iff `{CapabilitiesProvider P} (capabilities : P) (task : Task.t) :
  _find_best_workflow capabilities task = None
  ↔ _get_candidate_workflows capabilities task = [].
Proof.
  split.
  - intros Hnone.
    destruct (_get_candidate_workflows capabilities task) as [|c cs] eqn:Hcs; [done |].
    destruct (best_of_candidates capabilities task) as (? & w & ? & _ & Hbest & _);
      [by rewrite Hcs | congruence].
  - intros Hnil. unfold _find_best_workflow. by rewrite Hnil.
Qed.

Lemma no_shared_tag_no_best `{CapabilitiesProvider P} (capabilities : P)
    (task : Task.t) :
  (∀ workflow,
      workflow ∈ get_all_workflows capabilities → ¬ Spec.shares_tag task workflow) →
  _find_best_workflow capabilities task = None.
Proof.
  intros Hnone. apply best_none_iff.
  destruct (_get_candidate_workflows capabilities task) as [|c cs] eqn:Hcs; [done |].
  assert (c ∈ _get_candidate_workflows capabilities task) as Hc
    by (rewrite Hcs; left).
  apply candidate_spec in Hc as [Hall Hshare]. by destruct (Hnone c).
Qed.

(** Where an element kept by a filter stands in the filtered list. *)
Lemma filter_split {A} (P : A → Prop) `{!∀ x, Decision (P x)}
    (l kept_before kept_after : list A) (w : A) :
  filter P l = kept_before ++ w :: kept_after →
  ∃ pre post,
    l = pre ++ w :: post
    ∧ filter P pre = kept_before ∧ filter P post = kept_after ∧ P w.
Proof.
  revert kept_before. induction l as [|x l IH]; intros kept_before Hfilter.
  - by destruct kept_before.
  - destruct (decide (P x)) as [Hx|Hx].
    + rewrite filter_cons_True in Hfilter by done.
      destruct kept_before as [|y kept_before].
      * injection Hfilter as -> Hl. by exists [], l.
      * injection Hfilter as <- Hl.
        destruct (IH kept_before Hl) as (pre & post & -> & Hpre & Hpost & Hw).
        exists (x :: pre), post. split_and!; try done.
        by rewrite filter_cons_True, Hpre.
    + rewrite filter_cons_False in Hfilter by done.
      destruct (IH kept_before Hfilter) as (pre & post & -> & Hpre & Hpost & Hw).
      exists (x :: pre), post. split_and!; try done.
      by rewrite filter_cons_False.
Qed.

(** The selection, in the order in which the provider returns the
    workflows. *)
Lemma best_in_provider_order `{CapabilitiesProvider P} (capabilities : P)
    (task : Task.t) :
  (∃ workflow,
      workflow ∈ get_all_workflows capabilities ∧ Spec.shares_tag task workflow) →
  ∃ pre w post,
    get_all_workflows capabilities = pre ++ w :: post
    ∧ _find_best_workflow capabilities task = Some w
    ∧ Spec.shares_tag task w
    ∧ (∀ x, x ∈ pre → Spec.shares_tag task x →
         _calculate_workflow_score task x < _calculate_workflow_score task w)
    ∧ (∀ x, x ∈ post → Spec.shares_tag task x →
         _calculate_workflow_score task x ≤ _calculate_workflow_score task w).
Proof.
  intros (workflow & Hall & Hshare).
  assert (workflow ∈ _get_candidate_workflows capabilities task) as Hcand
    by by apply candidate_spec.
  destruct (best_of_candidates capabilities task)
    as (cpre & w & cpost & Heq & Hbest & Hcpre & Hcpost).
  { intros Hnil. rewrite Hnil in Hcand. by apply elem_of_nil in Hcand. }
  unfold _get_candidate_workflows in Heq.
  apply filter_split in Heq as (pre & post & Hsplit & Hpre & Hpost & Hw).
  exists pre, w, post. split_and!; [done | done | by apply overlap_nonempty | |].
  - intros x Hx Hx'. apply Hcpre. rewrite <- Hpre.
    apply list_elem_of_filter. split; [by apply overlap_nonempty | done].
  - intros x Hx Hx'. apply Hcpost. rewrite <- Hpost.
    apply list_elem_of_filter. split; [by apply overlap_nonempty | done].
Qed.

(** C5 — the score is the number of shared tags, plus 5 when the name of
    the workflow contains the intent or one of its whitespace-split
    words, plus 2 when the scope is set and is a tag of the workflow; the
    whitespace-split words of the intent are its pieces that are not
    empty, hold no whitespace character and go from one whitespace
    character, or from the beginning, to the next, or to the end.  The
    candidates are the workflows that share a tag with the task, in the
    order in which the provider returns them, and the selection returns
    the first workflow, in that order, that shares a tag with the task and
    whose score no other such workflow exceeds: those the provider returns
    before it score strictly less, those it returns after it score at most
    as much. *)
Theorem score_and_selection `{CapabilitiesProvider P} (capabilities : P)
    (task : Task.t) :
  (∀ workflow, ∃ intent_bonus scope_bonus,
      _calculate_workflow_score task workflow
      = size (_extract_task_tags task ∩ list_to_set (Workflow.tags workflow))
        + intent_bonus + scope_bonus
      ∧ Spec.bonus (Spec.intent_matches task workflow) 5 intent_bonus
      ∧ Spec.bonus (Spec.scope_matches task workflow) 2 scope_bonus)
  ∧ (∀ l, Spec.words (Task.intent task) l ↔ l = split (Task.intent task))
  ∧ (_get_candidate_workflows capabilities task ≠ [] →
     ∃ pre w post,
       _get_candidate_workflows capabilities task = pre ++ w :: post
       ∧ _find_best_workflow capabilities task = Some w
       ∧ (∀ x, x ∈ pre →
            _calculate_workflow_score task x < _calculate_workflow_score task w)
       ∧ (∀ x, x ∈ post →
            _calculate_workflow_score task x ≤ _calculate_workflow_score task w))
  ∧ sublist (_get_candidate_workflows capabilities task)
      (get_all_workflows capabilities)
  ∧ ((∃ workflow,
        workflow ∈ get_all_workflows capabilities ∧ Spec.shares_tag task workflow) →
     ∃ pre w post,
       get_all_workflows capabilities = pre ++ w :: post
       ∧ _find_best_workflow capabilities task = Some w
       ∧ Spec.shares_tag task w
       ∧ (∀ x, x ∈ pre → Spec.shares_tag task x →
            _calculate_workflow_score task x < _calculate_workflow_score task w)
       ∧ (∀ x, x ∈ post → Spec.shares_tag task x →
            _calculate_workflow_score task x ≤ _calculate_workflow_score task w)).
Proof.
  split_and!; [|apply SplitFacts.split_spec | apply best_of_candidates
               |apply sublist_filter | apply best_in_provider_order].
  intros workflow. unfold _calculate_workflow_score.
  pose proof (intent_bonus_spec task workflow) as Hintent.
  pose proof (scope_bonus_spec task workflow) as Hscope.
  eexists _, _. split; [reflexivity |]. unfold Spec.bonus. split.
  - destruct (contains _ _ || existsb _ _).
    + left. split; [by apply Hintent | done].
    + right. split; [|done]. intros Hm. by apply Hintent in Hm.
  - destruct (Task.scope task) as [s|].
    + destruct (in_list _ _).
      * left. split; [by apply Hscope | done].
      * right. split; [|done]. intros Hm. by apply Hscope in Hm.
    + right. split; [|done]. intros Hm. by apply Hscope in Hm.
Qed.

(** The words of an intent are separated by whitespace of any kind: here
    a no-break space, then an ideographic space and a space. *)
Example split_at_any_whitespace :
  split ("cooling" +:+ utf8 0xA0 +:+ "demand" +:+ utf8 0x3000 +:+ " ")
  = ["cooling"; "demand"].
Proof. reflexivity. Qed.

(** The scoring example: [W1] and [W3] tie at 7, [W2] scores 3, and [W1],
    met before [W3], is selected. *)
Example scoring_example :
  _calculate_workflow_score Scenario.cooling_task <$> [Scenario.W2; Scenario.W1; Scenario.W3]
  = [3; 7; 7]
  ∧ _find_best_workflow Scenario.catalogue Scenario.cooling_task = Some Scenario.W1.
Proof. by vm_compute. Qed.

Lemma score_and_selection_witness :
  ∃ pre w post,
    get_all_workflows Scenario.catalogue = pre ++ w :: post
    ∧ _find_best_workflow Scenario.catalogue Scenario.cooling_task = Some w
    ∧ Spec.shares_tag Scenario.cooling_task w
    ∧ (∀ x, x ∈ pre → Spec.shares_tag Scenario.cooling_task x →
         _calculate_workflow_score Scenario.cooling_task x
         < _calculate_workflow_score Scenario.cooling_task w)
    ∧ (∀ x, x ∈ post → Spec.shares_tag Scenario.cooling_task x →
         _calculate_workflow_score Scenario.cooling_task x
         ≤ _calculate_workflow_score Scenario.cooling_task w).
Proof.
  apply (score_and_selection Scenario.catalogue Scenario.cooling_task).
  exists Scenario.W3. split.
  - right. right. left.
  - exists "cooling". split; [by vm_compute | right; left].
Defined.

(** C9 — a workflow is a candidate exactly when the provider returns it
    and it shares a tag with the task; a candidate scores at least its
    overlap, which is at least 1; so as soon as some returned workflow
    shares a tag the selection returns a candidate, and it returns nothing
    only when there is no candidate. *)
Theorem candidate_is_selected `{CapabilitiesProvider P} (capabilities : P)
    (task : Task.t) :
  (∀ workflow,
      workflow ∈ _get_candidate_workflows capabilities task
      ↔ workflow ∈ get_all_workflows capabilities ∧ Spec.shares_tag task workflow)
  ∧ (∀ workflow,
      workflow ∈ _get_candidate_workflows capabilities task →
      1 ≤ size (overlap task workflow)
      ∧ size (overlap task workflow) ≤ _calculate_workflow_score task workflow)
  ∧ ((∃ workflow,
        workflow ∈ get_all_workflows capabilities ∧ Spec.shares_tag task workflow) →
     ∃ best,
       _find_best_workflow capabilities task = Some best
       ∧ best ∈ _get_candidate_workflows capabilities task)
  ∧ (_find_best_workflow capabilities task = None
     ↔ _get_candidate_workflows capabilities task = []).
Proof.
  split_and!.
  - intros workflow. apply candidate_spec.
  - apply candidates_score_pos.
  - intros (workflow & Hall & Hshare).
    assert (workflow ∈ _get_candidate_workflows capabilities task) as Hcand
      by by apply candidate_spec.
    destruct (best_of_candidates capabilities task) as (pre & w & post & Heq & Hbest & _).
    { intros Hnil. rewrite Hnil in Hcand. by apply elem_of_nil in Hcand. }
    exists w. split; [done |]. rewrite Heq. apply elem_of_app. right. left.
  - apply best_none_iff.
Qed.

Lemma candidate_is_selected_witness :
  ∃ best,
    _find_best_workflow Scenario.catalogue Scenario.cooling_task = Some best
    ∧ best ∈ _get_candidate_workflows Scenario.catalogue Scenario.cooling_task.
Proof.
  apply (candidate_is_selected Scenario.catalogue Scenario.cooling_task).
  exists Scenario.W3. split.
  - right. right. left.
  - exists "cooling". split; [by vm_compute | right; left].
Defined.

End SelectionFacts.

(** ** Arguments of a plan step *)

Module ArgsFacts.

Import QueryTranslatorAgent.

Local Arguments String.eqb : simpl never.

Lemma map_input_get (args : dict string) (item : string * string) (arg : string) :
  get arg (map_input args item)
  = if Spec.input_goes_to arg item then Some item.2 else get arg args.
Proof.
  destruct item as [key value].
  unfold map_input, Spec.input_goes_to, Spec.arg_of_input. simpl.
  repeat (destruct (_ || _); simpl; [by rewrite PyFacts.get_set, (String.eqb_sym arg) |]).
  done.
Qed.

Lemma map_constraint_get (args : dict string) (item : string * string) (arg : string) :
  get arg (map_constraint args item)
  = if Spec.constraint_goes_to arg item then Some item.2 else get arg args.
Proof.
  destruct item as [key value].
  unfold map_constraint, Spec.constraint_goes_to, Spec.arg_of_constraint. simpl.
  repeat (destruct (String.eqb key _); simpl;
          [by rewrite PyFacts.get_set, (String.eqb_sym arg) |]).
  done.
Qed.

(** A loop whose body overwrites [arg] exactly on the items selected by
    [sel] leaves under [arg] the value of the last selected item. *)
Lemma last_writer_wins (body : dict string → string * string → dict string)
    (sel : string * string → bool) (arg : string) :
  (∀ args item,
      get arg (body args item) = if sel item then Some item.2 else get arg args) →
  ∀ items args,
    get arg (foldl body args items)
    = match last (List.filter sel items) with
      | Some item => Some item.2
      | None => get arg args
      end.
Proof.
  intros Hbody items args. induction items as [|item items IH] using rev_ind; [done |].
  rewrite foldl_snoc, Hbody, List.filter_app. simpl.
  destruct (sel item).
  - by rewrite last_snoc.
  - by rewrite app_nil_r.
Qed.

Lemma last_filter_holds {A} (sel : A → bool) (l : list A) (x : A) :
  last (List.filter sel l) = Some x → sel x = true.
Proof.
  intros Hlast. apply last_Some in Hlast as [l' Hl'].
  assert (In x (List.filter sel l)) as Hin
    by (rewrite Hl'; apply in_or_app; right; by left).
  by apply filter_In in Hin as [_ ?].
Qed.

Lemma input_goes_to_range (arg : string) (item : string * string) :
  Spec.input_goes_to arg item = true →
  arg = "buildings" ∨ arg = "weather_file" ∨ arg = "occupancy_schedules"
  ∨ arg = "energy_demands".
Proof.
  unfold Spec.input_goes_to, Spec.arg_of_input. simpl.
  repeat (destruct (_ || _); simpl; [intros Heq%String.eqb_eq; subst arg; tauto |]).
  done.
Qed.

Lemma constraint_goes_to_range (arg : string) (item : string * string) :
  Spec.constraint_goes_to arg item = true → arg = "algorithm" ∨ arg = "timestep".
Proof.
  unfold Spec.constraint_goes_to, Spec.arg_of_constraint. simpl.
  repeat (destruct (String.eqb item.1 _); simpl; [intros Heq%String.eqb_eq; subst arg; tauto |]).
  done.
Qed.

(** What the two loops leave under [arg]. *)
Lemma loops_get (task : Task.t) (arg : string) :
  get arg (foldl map_constraint (foldl map_input [] (Task.inputs task))
             (Task.constraints task))
  = match last (List.filter (Spec.input_goes_to arg) (Task.inputs task)) with
    | Some item => Some item.2
    | None =>
        match last (List.filter (Spec.constraint_goes_to arg) (Task.constraints task)) with
        | Some item => Some item.2
        | None => None
        end
    end.
Proof.
  rewrite (last_writer_wins map_constraint (Spec.constraint_goes_to arg))
    by (intros; apply map_constraint_get).
  rewrite (last_writer_wins map_input (Spec.input_goes_to arg))
    by (intros; apply map_input_get).
  destruct (last (List.filter (Spec.input_goes_to arg) _)) as [item|] eqn:Hin;
    destruct (last (List.filter (Spec.constraint_goes_to arg) _)) as [item'|] eqn:Hcs;
    try done.
  apply last_filter_holds, input_goes_to_range in Hin.
  apply last_filter_holds, constraint_goes_to_range in Hcs.
  destruct Hin as [-> | [-> | [-> | ->]]], Hcs as [? | ?]; discriminate.
Qed.

(** C7 — every argument of a synthesised step is the one given by the
    lookup tables, read in the order of their rows: an input goes to the
    argument of the first row it matches by key or by extension and to no
    other, a later input or constraint overwrites an earlier one mapped to
    the same argument, [scenario_config] is ["scenario.yml"] exactly when
    the script declares an input of that name, and no argument outside the
    seven names of the tables is produced. *)
Theorem args_follow_tables (task : Task.t) (script : Script.t) :
  (∀ arg,
      get arg (_map_task_inputs_to_script_args task script)
      = Spec.table_arg task script arg)
  ∧ (∀ arg,
      mem arg (_map_task_inputs_to_script_args task script) = true →
      arg ∈ Spec.arg_names).
Proof.
  assert (∀ arg,
            get arg (_map_task_inputs_to_script_args task script)
            = Spec.table_arg task script arg) as Hget.
  { intros arg. unfold _map_task_inputs_to_script_args, Spec.table_arg.
    fold (Spec.declares script "scenario_config").
    destruct (Spec.declares script "scenario_config").
    - rewrite PyFacts.get_set, loops_get, andb_true_r.
      destruct (String.eqb_spec arg "scenario_config") as [->|Hne]; [|done].
      destruct (last (List.filter (Spec.input_goes_to _) _)) as [item|] eqn:Hin.
      { apply last_filter_holds, input_goes_to_range in Hin.
        destruct Hin as [?|[?|[?|?]]]; discriminate. }
      destruct (last (List.filter (Spec.constraint_goes_to _) _)) as [item|] eqn:Hcs;
        [|done].
      apply last_filter_holds, constraint_goes_to_range in Hcs.
      destruct Hcs as [?|?]; discriminate.
    - by rewrite loops_get, andb_false_r. }
  split; [exact Hget |].
  intros arg. unfold mem. rewrite Hget. unfold Spec.table_arg, Spec.arg_names.
  rewrite list_elem_of_In. simpl.
  destruct (last (List.filter (Spec.input_goes_to _) _)) as [item|] eqn:Hin.
  { apply last_filter_holds, input_goes_to_range in Hin. intros _.
    destruct Hin as [-> | [-> | [-> | ->]]]; auto 10. }
  destruct (last (List.filter (Spec.constraint_goes_to _) _)) as [item|] eqn:Hcs.
  { apply last_filter_holds, constraint_goes_to_range in Hcs. intros _.
    destruct Hcs as [-> | ->]; auto 10. }
  destruct (String.eqb_spec arg "scenario_config") as [->|Hne]; [auto 10 | done].
Qed.

(** Two geometry files: the later one is kept; the input [notes] and the
    constraint [temperature] produce nothing. *)
Example mixed_task_args :
  _map_task_inputs_to_script_args Scenario.mixed_task Scenario.script_002
  = [("buildings", "new.geojson"); ("weather_file", "site.epw");
     ("algorithm", "steiner"); ("scenario_config", "scenario.yml")].
Proof. reflexivity. Qed.

Lemma args_follow_tables_witness :
  "scenario_config" ∈ Spec.arg_names.
Proof.
  apply (args_follow_tables Scenario.mixed_task Scenario.script_002).
  reflexivity.
Defined.

(** C7, as stated, fails on an input whose key is [weather] and whose
    value ends in [.geojson]: the first row takes it, [buildings] is the
    only argument, and [weather_file] is not produced. *)
Lemma weather_key_geojson_value :
  _map_task_inputs_to_script_args Scenario.relabelled_task Scenario.script_001
  = [("buildings", "site.geojson")]
  ∧ get "weather_file"
      (_map_task_inputs_to_script_args Scenario.relabelled_task Scenario.script_001)
    = None.
Proof. split; reflexivity. Qed.

End ArgsFacts.

(** ** Plan computation *)

Module PlanFacts.

Import QueryTranslatorAgent.

Lemma checked_items_ok (i : nat) (l : list (option string)) :
  (∀ x, x ∈ l → is_Some x) → ∃ xs, checked_items i l = Ok xs.
Proof.
  revert i. induction l as [|[x|] l IH]; intros i Hall; simpl.
  - by exists [].
  - destruct (IH (S i)) as [xs ->]; [intros y Hy; apply Hall; by right |].
    by exists (x :: xs).
  - destruct (Hall None) as [y Hy]; [by left | discriminate].
Qed.

Lemma checked_items_raise (i : nat) (l : list (option string)) (e : exn) :
  checked_items i l = Raise e → None ∈ l.
Proof.
  revert i. induction l as [|[x|] l IH]; intros i; simpl; [done | |by left].
  destruct (checked_items (S i) l) eqn:Hl; [done |].
  simpl. intros [= ->]. right. by eapply IH.
Qed.

Section WithProvider.
Context `{CapabilitiesProvider P} (capabilities : P).
Context (iter_set : gset string → list string).

Lemma explanation_ok (task : Task.t) (workflow : Workflow.t)
    (available_inputs : gset string) (missing_inputs : list string) :
  Spec.described workflow →
  ∃ explanation,
    _generate_explanation iter_set task workflow available_inputs missing_inputs
    = Ok explanation.
Proof.
  intros Hdesc. unfold _generate_explanation, join_checked.
  destruct (checked_items_ok 0 (WorkflowStep.description <$> Workflow.steps workflow))
    as [xs ->]; [|by eexists].
  intros x (step & -> & Hstep)%list_elem_of_fmap. by apply Hdesc.
Qed.

Lemma explanation_raise (task : Task.t) (workflow : Workflow.t)
    (available_inputs : gset string) (missing_inputs : list string) (e : exn) :
  _generate_explanation iter_set task workflow available_inputs missing_inputs
  = Raise e →
  ∃ step, step ∈ Workflow.steps workflow ∧ WorkflowStep.description step = None.
Proof.
  unfold _generate_explanation, join_checked. intros Hraise.
  destruct (checked_items 0 _) eqn:Hitems; [done |].
  apply checked_items_raise in Hitems.
  apply list_elem_of_fmap in Hitems as (step & ? & ?). by exists step.
Qed.

(** The two outcomes of [_compute_plan]. *)
Lemma compute_plan_cases (task : Task.t) (workflow : Workflow.t) :
  let scripts := resolve_scripts capabilities workflow in
  let checked := check_inputs task (required_inputs_of scripts) in
  (∃ explanation,
      _generate_explanation iter_set task workflow checked.1 checked.2
      = Ok explanation
      ∧ _compute_plan capabilities iter_set task workflow
        = Ok (Plan.mk (make_plan_steps task workflow scripts) explanation
                (_generate_assumptions task workflow) checked.2))
  ∨ (∃ e,
      _compute_plan capabilities iter_set task workflow = Raise e
      ∧ ∃ step, step ∈ Workflow.steps workflow
                ∧ WorkflowStep.description step = None).
Proof.
  intros scripts checked. unfold _compute_plan. fold scripts. fold checked.
  destruct checked as [available_inputs missing_inputs]. simpl.
  destruct (_generate_explanation _ _ _ _ _) as [explanation|e] eqn:Hexp.
  - left. by exists explanation.
  - right. exists e. split; [done |]. by eapply explanation_raise.
Qed.

Lemma remember_known (scripts : dict Script.t) (ids : list string) :
  foldl (remember_script capabilities) scripts ids
  = foldl (remember_script capabilities) scripts
      (filter (λ i, is_Some (get_script_by_id capabilities i)) ids).
Proof.
  revert scripts. induction ids as [|i ids IH]; intros scripts; [done |].
  destruct (get_script_by_id capabilities i) as [script|] eqn:Hi.
  - rewrite filter_cons_True by (by rewrite Hi). simpl. apply IH.
  - rewrite filter_cons_False by (rewrite Hi; by intros [? [=]]).
    simpl. unfold remember_script at 2. rewrite Hi. apply IH.
Qed.

Lemma filter_script_ids (steps : list WorkflowStep.t) :
  filter (λ i, is_Some (get_script_by_id capabilities i))
    (WorkflowStep.script_id <$> steps)
  = WorkflowStep.script_id <$>
      filter (λ step,
                is_Some (get_script_by_id capabilities (WorkflowStep.script_id step)))
        steps.
Proof.
  induction steps as [|step steps IH]; [done |]. rewrite fmap_cons.
  destruct (decide (is_Some (get_script_by_id capabilities
                               (WorkflowStep.script_id step)))) as [Hs|Hs].
  - rewrite !filter_cons_True by done. by rewrite fmap_cons, IH.
  - by rewrite !filter_cons_False.
Qed.

(** Steps of unknown script leave no trace in [scripts]. *)
Lemma resolve_known (workflow : Workflow.t) :
  resolve_scripts capabilities workflow
  = resolve_scripts capabilities (Spec.known_steps capabilities workflow).
Proof.
  unfold resolve_scripts, Spec.known_steps. cbn [Workflow.steps].
  by rewrite remember_known, filter_script_ids.
Qed.

Lemma resolve_get_acc (ids : list string) (scripts : dict Script.t) (i : string) :
  get i (foldl (remember_script capabilities) scripts ids)
  = match (if decide (i ∈ ids) then get_script_by_id capabilities i else None) with
    | Some script => Some script
    | None => get i scripts
    end.
Proof.
  induction ids as [|j ids IH] using rev_ind.
  - cbn [foldl]. by rewrite decide_False by (by intros ?%elem_of_nil).
  - rewrite foldl_snoc. unfold remember_script at 1.
    destruct (decide (i = j)) as [->|Hne].
    + rewrite (decide_True (P := j ∈ ids ++ [j]))
        by (apply elem_of_app; right; left).
      destruct (get_script_by_id capabilities j) as [script|] eqn:Hj.
      * by rewrite PyFacts.get_set, String.eqb_refl.
      * rewrite IH. by case_decide; rewrite ?Hj.
    + assert (String.eqb i j = false) as Hij by by apply String.eqb_neq.
      assert (get i (match get_script_by_id capabilities j with
                     | Some script =>
                         set j script (foldl (remember_script capabilities) scripts ids)
                     | None => foldl (remember_script capabilities) scripts ids
                     end)
              = get i (foldl (remember_script capabilities) scripts ids)) as ->.
      { destruct (get_script_by_id capabilities j); [|done].
        by rewrite PyFacts.get_set, Hij. }
      rewrite IH. destruct (decide (i ∈ ids)) as [Hin|Hnin].
      * by rewrite decide_True by (apply elem_of_app; by left).
      * rewrite decide_False; [done |].
        intros [?|?%list_elem_of_singleton]%elem_of_app; congruence.
Qed.

(** [scripts] holds exactly what the provider returns for the script
    identifiers of the workflow. *)
Lemma resolve_get (workflow : Workflow.t) (step : WorkflowStep.t) :
  step ∈ Workflow.steps workflow →
  get (WorkflowStep.script_id step) (resolve_scripts capabilities workflow)
  = get_script_by_id capabilities (WorkflowStep.script_id step).
Proof.
  intros Hstep. unfold resolve_scripts. rewrite resolve_get_acc.
  rewrite decide_True by (apply list_elem_of_fmap; by exists step).
  by destruct (get_script_by_id _ _).
Qed.

Lemma plan_steps_acc (task : Task.t) (scripts : dict Script.t)
    (steps : list WorkflowStep.t) (acc : list PlanStep.t) :
  (∀ step, step ∈ steps →
     get (WorkflowStep.script_id step) scripts
     = get_script_by_id capabilities (WorkflowStep.script_id step)) →
  foldl (add_plan_step task scripts) acc steps
  = acc ++ omap (Spec.step_of capabilities task) steps.
Proof.
  revert acc. induction steps as [|step steps IH]; intros acc Hget; simpl.
  - by rewrite app_nil_r.
  - rewrite IH by (intros ? ?; apply Hget; by right).
    unfold add_plan_step, Spec.step_of. rewrite Hget by by left.
    destruct (get_script_by_id capabilities _); simpl; [|done].
    by rewrite <- app_assoc.
Qed.

(** One plan step for every workflow step of known script, in order. *)
Lemma plan_steps_known (task : Task.t) (workflow : Workflow.t) :
  make_plan_steps task workflow (resolve_scripts capabilities workflow)
  = omap (Spec.step_of capabilities task) (Workflow.steps workflow).
Proof.
  unfold make_plan_steps. rewrite plan_steps_acc; [done |].
  intros step Hstep. by apply resolve_get.
Qed.

Lemma step_of_length (task : Task.t) (steps : list WorkflowStep.t) :
  length (omap (Spec.step_of capabilities task) steps)
  = length (filter (λ step,
                      is_Some (get_script_by_id capabilities
                                 (WorkflowStep.script_id step))) steps).
Proof.
  induction steps as [|step steps IH]; [done |]. csimpl.
  unfold Spec.step_of at 1.
  destruct (get_script_by_id capabilities (WorkflowStep.script_id step)) eqn:Hs; csimpl.
  - rewrite filter_cons_True by (by rewrite Hs). csimpl. by rewrite IH.
  - rewrite filter_cons_False by (rewrite Hs; by intros [? [=]]). done.
Qed.

(** C10 — a step whose script the provider does not know is skipped:
    the scripts gathered for the workflow, hence the required inputs and
    the missing list, are those of the workflow without such steps; the
    plan holds one step per step of known script, in order, so it can be
    shorter than the workflow; and [_compute_plan] fails only when some
    step has no description, whether or not its script is known. *)
Theorem unknown_scripts_are_skipped (task : Task.t) (workflow : Workflow.t) :
  let known := Spec.known_steps capabilities workflow in
  resolve_scripts capabilities workflow = resolve_scripts capabilities known
  ∧ (∀ plan,
      _compute_plan capabilities iter_set task workflow = Ok plan →
      Plan.plan plan = omap (Spec.step_of capabilities task) (Workflow.steps workflow)
      ∧ length (Plan.plan plan) = length (Workflow.steps known)
      ∧ length (Plan.plan plan) ≤ length (Workflow.steps workflow)
      ∧ Plan.missing plan
        = (check_inputs task
             (required_inputs_of (resolve_scripts capabilities known))).2)
  ∧ (Spec.described workflow →
     ∃ plan, _compute_plan capabilities iter_set task workflow = Ok plan)
  ∧ (∀ e,
      _compute_plan capabilities iter_set task workflow = Raise e →
      ∃ step, step ∈ Workflow.steps workflow
              ∧ WorkflowStep.description step = None).
Proof.
  intros known. subst known. split_and!.
  - apply resolve_known.
  - intros plan Hplan.
    destruct (compute_plan_cases task workflow)
      as [(explanation & _ & Hok)|(e & Hraise & _)]; [|congruence].
    rewrite Hok in Hplan. injection Hplan as <-. simpl.
    rewrite plan_steps_known, step_of_length, <- resolve_known.
    split_and!; try done. apply length_filter.
  - intros Hdesc.
    destruct (compute_plan_cases task workflow)
      as [(explanation & _ & Hok)|(e & Hraise & step & Hstep & Hnone)].
    + by eexists.
    + destruct (Hdesc step Hstep) as [? ?]. congruence.
  - intros e He.
    destruct (compute_plan_cases task workflow)
      as [(explanation & _ & Hok)|(e' & _ & Hstep)]; [congruence | done].
Qed.

End WithProvider.

(** [W4] has two steps; the script of the second is unknown, and the plan
    has one step. *)
Example one_step_of_two :
  ∃ plan,
    _compute_plan Scenario.catalogue elements Scenario.cooling_task Scenario.W4
    = Ok plan
    ∧ PlanStep.script_id <$> Plan.plan plan = ["script-001"]
    ∧ length (Workflow.steps Scenario.W4) = 2.
Proof. eexists. split_and!; reflexivity. Qed.

Lemma unknown_scripts_are_skipped_witness :
  ∃ plan,
    _compute_plan Scenario.catalogue elements Scenario.cooling_task Scenario.W4
    = Ok plan.
Proof.
  apply (unknown_scripts_are_skipped Scenario.catalogue elements
           Scenario.cooling_task Scenario.W4).
  intros step Hstep. unfold Scenario.W4 in Hstep. simpl in Hstep.
  apply elem_of_cons in Hstep as [->|Hstep]; [by eexists |].
  apply list_elem_of_singleton in Hstep as ->. by eexists.
Defined.

End PlanFacts.

(** ** Missing inputs *)

Module MissingFacts.

Import QueryTranslatorAgent.

Local Arguments String.eqb : simpl never.

Lemma get_values {V} (d : dict V) (k : string) (v : V) :
  get k d = Some v → v ∈ values d.
Proof.
  unfold values. induction d as [|[k' v'] d IH]; [done |]. cbn [get fmap list_fmap].
  destruct (String.eqb k k').
  - intros [= ->]. left.
  - intros Hget. right. by apply IH.
Qed.

Lemma require_input_mem (inputs : list ScriptInput.t) (acc : dict string) (k : string) :
  mem k (foldl require_input acc inputs) = mem k acc || existsb (Spec.requires k) inputs.
Proof.
  revert acc. induction inputs as [|inp inputs IH]; intros acc; cbn [foldl existsb].
  - by rewrite orb_false_r.
  - rewrite IH. unfold require_input at 1, Spec.requires at 2.
    destruct (ScriptInput.required inp); cbn [andb].
    + by rewrite PyFacts.mem_set, orb_assoc, (orb_comm (String.eqb _ _)).
    + done.
Qed.

Lemma required_inputs_mem (scripts : list Script.t) (acc : dict string) (k : string) :
  mem k (foldl (λ required_inputs script,
                  foldl require_input required_inputs (Script.inputs script))
           acc scripts)
  = mem k acc || existsb (λ script, existsb (Spec.requires k) (Script.inputs script)) scripts.
Proof.
  revert acc. induction scripts as [|script scripts IH]; intros acc; cbn [foldl existsb].
  - by rewrite orb_false_r.
  - by rewrite IH, require_input_mem, orb_assoc.
Qed.

(** The required inputs are the inputs flagged [required] of the scripts
    gathered for the workflow. *)
Lemma required_inputs_spec (scripts : dict Script.t) (k : string) :
  k ∈ keys (required_inputs_of scripts)
  ↔ ∃ script inp,
      script ∈ values scripts ∧ inp ∈ Script.inputs script
      ∧ ScriptInput.required inp = true ∧ ScriptInput.name inp = k.
Proof.
  rewrite <- PyFacts.mem_keys. unfold required_inputs_of.
  rewrite required_inputs_mem. cbn [mem get orb]. rewrite existsb_exists. split.
  - intros (script & Hscript & (inp & Hinp & Hrequires)%existsb_exists).
    apply andb_true_iff in Hrequires as [Hreq Hname%String.eqb_eq].
    exists script, inp. by rewrite !list_elem_of_In.
  - intros (script & inp & Hscript & Hinp & Hreq & Hname).
    exists script. split; [by apply list_elem_of_In |].
    apply existsb_exists. exists inp. split; [by apply list_elem_of_In |].
    unfold Spec.requires. by rewrite Hreq, Hname, String.eqb_refl.
Qed.

Lemma weather_available_spec (task : Task.t) :
  existsb (λ inp, endswith inp ".epw") (values (Task.inputs task))
  || mem "weather" (Task.inputs task) = true
  ↔ Spec.weather_available task.
Proof.
  unfold Spec.weather_available, Spec.ends_with.
  rewrite orb_true_iff, PyFacts.mem_keys, existsb_exists.
  apply or_iff_compat_r. split.
  - intros (value & Hin & Hend). exists value.
    by rewrite list_elem_of_In, <- PyFacts.endswith_spec.
  - intros (value & Hin & Hend). exists value.
    by rewrite <- list_elem_of_In, PyFacts.endswith_spec.
Qed.

(** The weather check alone decides whether ["weather_epw"] is reported
    missing. *)
Lemma check_inputs_weather (task : Task.t) (required_inputs : dict string) :
  mem "weather_file" required_inputs
  || existsb (λ req, contains (lower req) "weather") (keys required_inputs) = true →
  ("weather_epw" ∈ (check_inputs task required_inputs).2
   ↔ ¬ Spec.weather_available task)
  ∧ ("weather_epw" ∈ (check_inputs task required_inputs).1
     ↔ Spec.weather_available task).
Proof.
  intros Hreq. rewrite <- weather_available_spec.
  unfold check_inputs. rewrite Hreq.
  destruct (existsb _ (values (Task.inputs task)) || mem "weather" (Task.inputs task));
    cbv beta iota zeta;
    (destruct (mem "buildings" required_inputs || existsb _ (keys required_inputs));
     cbv beta iota zeta;
     [destruct (existsb _ (values (Task.inputs task))
                || mem "geometry" (Task.inputs task));
      cbv beta iota zeta |]);
    destruct (mem "scenario_config" required_inputs);
    repeat case_bool_decide; cbn [fst snd app];
    rewrite ?list_elem_of_In; cbn [In];
    rewrite ?elem_of_union, ?elem_of_singleton, ?elem_of_empty;
    (split; split; first [done | tauto | intuition discriminate]).
Qed.

Section WithProvider.
Context `{CapabilitiesProvider P} (capabilities : P).
Context (iter_set : gset string → list string).

Lemma requires_weather_checked (workflow : Workflow.t) :
  Spec.requires_weather capabilities workflow →
  let required_inputs := required_inputs_of (resolve_scripts capabilities workflow) in
  mem "weather_file" required_inputs
  || existsb (λ req, contains (lower req) "weather") (keys required_inputs) = true.
Proof.
  intros (step & script & inp & Hstep & Hscript & Hinp & Hreq & Hname) required_inputs.
  apply orb_true_iff. right. apply existsb_exists.
  exists (ScriptInput.name inp). split; [|by apply PyFacts.contains_spec].
  apply list_elem_of_In, required_inputs_spec. exists script, inp.
  split_and!; try done.
  apply (get_values _ (WorkflowStep.script_id step)).
  by rewrite PlanFacts.resolve_get.
Qed.

(** With every step described, the plan is produced and reports
    ["weather_epw"] missing exactly when the task brings no weather
    input. *)
Lemma missing_weather_detected (task : Task.t) (workflow : Workflow.t) :
  Spec.described workflow →
  Spec.requires_weather capabilities workflow →
  ∃ plan,
    _compute_plan capabilities iter_set task workflow = Ok plan
    ∧ ("weather_epw" ∈ Plan.missing plan ↔ ¬ Spec.weather_available task).
Proof.
  intros Hdesc Hweather.
  destruct (PlanFacts.compute_plan_cases capabilities iter_set task workflow)
    as [(explanation & _ & Hok)|(e & _ & step & Hstep & Hnone)].
  - eexists. split; [exact Hok |]. cbn [Plan.missing].
    by apply check_inputs_weather, requires_weather_checked.
  - destruct (Hdesc step Hstep) as [? ?]. congruence.
Qed.

End WithProvider.

(** C6 — the plan of the missing-input test is not produced when the step
    of the workflow has no description: the task brings a geometry and no
    weather input, the script of the step requires [weather_file], and
    [_compute_plan] raises [TypeError] while joining the step descriptions
    instead of returning a plan whose missing list holds ["weather_epw"]. *)
Theorem undescribed_step_breaks_plan :
  Spec.requires_weather Scenario.catalogue Scenario.W5
  ∧ ¬ Spec.weather_available Scenario.cooling_task
  ∧ "geometry" ∈ keys (Task.inputs Scenario.cooling_task)
  ∧ _compute_plan Scenario.catalogue elements Scenario.cooling_task Scenario.W5
    = Raise (Exception "TypeError"
               "sequence item 0: expected str instance, NoneType found")
  ∧ (check_inputs Scenario.cooling_task
       (required_inputs_of (resolve_scripts Scenario.catalogue Scenario.W5))).2
    = ["weather_epw"].
Proof.
  split_and!.
  - exists (WorkflowStep.mk 1 "script-001" "calculate_cooling_loads" None),
      Scenario.script_001, (ScriptInput.mk "weather_file" "epw" true).
    split_and!; [left | reflexivity | left | reflexivity |].
    by apply PyFacts.contains_spec.
  - rewrite <- weather_available_spec. by vm_compute.
  - left.
  - reflexivity.
  - reflexivity.
Qed.

(** The same task against the same workflow with a described step. *)
Example described_step_reports_weather :
  ∃ plan,
    _compute_plan Scenario.catalogue elements Scenario.cooling_task Scenario.W1
    = Ok plan
    ∧ Plan.missing plan = ["weather_epw"].
Proof. eexists. split; reflexivity. Qed.

End MissingFacts.

(** ** Resolution depends on the snapshot only *)

Module SnapshotFacts.

Import QueryTranslatorAgent.

Section TwoProviders.
Context {P Q : Type} `{CapabilitiesProvider P} `{CapabilitiesProvider Q}.
Context (p : P) (q : Q).
Context (iter_set : gset string → list string).

Hypothesis same_workflows : get_all_workflows p = get_all_workflows q.
Hypothesis same_scripts : ∀ i, get_script_by_id p i = get_script_by_id q i.

Lemma same_candidates (task : Task.t) :
  _get_candidate_workflows p task = _get_candidate_workflows q task.
Proof. unfold _get_candidate_workflows. by rewrite same_workflows. Qed.

Lemma same_best (task : Task.t) :
  _find_best_workflow p task = _find_best_workflow q task.
Proof. unfold _find_best_workflow. by rewrite same_candidates. Qed.

Lemma same_resolved (workflow : Workflow.t) :
  resolve_scripts p workflow = resolve_scripts q workflow.
Proof.
  unfold resolve_scripts. generalize (@nil (string * Script.t)).
  induction (WorkflowStep.script_id <$> Workflow.steps workflow) as [|i ids IH];
    intros scripts; [done |].
  cbn [foldl]. unfold remember_script at 2 4. rewrite same_scripts. apply IH.
Qed.

Lemma same_plan (task : Task.t) (workflow : Workflow.t) :
  _compute_plan p iter_set task workflow = _compute_plan q iter_set task workflow.
Proof. unfold _compute_plan. by rewrite same_resolved. Qed.

Lemma same_reply (message : Message.t) :
  task_reply p iter_set message = task_reply q iter_set message.
Proof.
  unfold task_reply. destruct (Task.from_dict _) as [task|e]; [|done].
  cbn [bind]. rewrite same_best.
  destruct (_find_best_workflow q task) as [best|]; [|done].
  by rewrite same_plan.
Qed.

End TwoProviders.

(** The iteration order of the set of available inputs reaches the
    explanation at one place only. *)
Lemma explanation_frame (task : Task.t) (workflow : Workflow.t)
    (available_inputs : gset string) (missing_inputs : list string) :
  (∃ e, ∀ iter_set,
      _generate_explanation iter_set task workflow available_inputs missing_inputs
      = Raise e)
  ∨ (∃ head tail, ∀ iter_set,
        _generate_explanation iter_set task workflow available_inputs missing_inputs
        = Ok (if bool_decide (available_inputs ≠ ∅)
              then head +:+ join ", " (iter_set available_inputs) +:+ tail
              else head)).
Proof.
  unfold _generate_explanation.
  destruct (join_checked ", " _) as [joined|e]; [right | left; by exists e].
  cbn [bind]. cbv zeta.
  set (intro := match Task.scope task with
                | Some s => _
                | None => _
                end).
  set (said := (intro +:+ _ +:+ _ +:+ _) +:+ joined +:+ ".").
  destruct (bool_decide (available_inputs ≠ ∅)).
  - destruct missing_inputs as [|m missing_inputs].
    + exists (said +:+ " Available inputs: "), ".". intros iter_set.
      by rewrite SplitFacts.append_assoc.
    + exists (said +:+ " Available inputs: "),
        ("." +:+ " Missing required inputs: "
         +:+ join ", " (m :: missing_inputs) +:+ ".").
      intros iter_set. by rewrite !SplitFacts.append_assoc.
  - destruct missing_inputs as [|m missing_inputs].
    + by exists said, "".
    + by exists (said +:+ " Missing required inputs: "
                 +:+ join ", " (m :: missing_inputs) +:+ "."), "".
Qed.

(** What a plan computation depends on the iteration order for. *)
Lemma compute_plan_frame `{CapabilitiesProvider P} (p : P) (task : Task.t)
    (workflow : Workflow.t) :
  let scripts := resolve_scripts p workflow in
  let checked := check_inputs task (required_inputs_of scripts) in
  (∃ e, ∀ iter_set, _compute_plan p iter_set task workflow = Raise e)
  ∨ (∃ head tail, ∀ iter_set,
        _compute_plan p iter_set task workflow
        = Ok (Plan.mk (make_plan_steps task workflow scripts)
                (if bool_decide (checked.1 ≠ ∅)
                 then head +:+ join ", " (iter_set checked.1) +:+ tail
                 else head)
                (_generate_assumptions task workflow) checked.2)).
Proof.
  intros scripts checked. unfold _compute_plan. fold scripts. fold checked.
  destruct checked as [available_inputs missing_inputs]. cbn [fst snd].
  destruct (explanation_frame task workflow available_inputs missing_inputs)
    as [[e He]|(head & tail & Hok)].
  - left. exists e. intros iter_set. by rewrite He.
  - right. exists head, tail. intros iter_set. by rewrite Hok.
Qed.

(** An iteration order that lists the elements of a set lists a set of at
    most one element in one way. *)
Lemma small_set_one_order (iter_set iter_set' : gset string → list string)
    (X : gset string) :
  (∀ X, iter_set X ≡ₚ elements X) →
  (∀ X, iter_set' X ≡ₚ elements X) →
  size X ≤ 1 →
  X = ∅ ∨ iter_set X = iter_set' X.
Proof.
  intros Hiter Hiter' Hsize.
  destruct (decide (size X = 0)) as [Hzero|Hne].
  - left. apply size_empty_iff in Hzero. by apply leibniz_equiv in Hzero.
  - right. assert (size X = 1) as Hone by lia.
    apply size_1_elem_of in Hone as [x Hx]. apply leibniz_equiv in Hx. subst X.
    pose proof (Hiter {[x]}) as H1. pose proof (Hiter' {[x]}) as H2.
    rewrite elements_singleton in H1, H2.
    apply Permutation_singleton_r in H1, H2. congruence.
Qed.

(** C8 — two resolutions of one task that see the same workflows in the
    same order and the same script under every identifier select the same
    workflow, and for every workflow both fail with the same error or both
    give a plan; the two plans have the same steps with the same arguments,
    the same assumptions and the same missing list.  Their explanations
    are the same text around the names of the available inputs, which each
    resolution lists in the order in which its interpreter iterates over
    that set: the two plans are identical when the two orders agree on the
    set (as they do within one interpreter), and whatever the orders when
    at most one input is available.  With the same order throughout, the
    selected workflow with its outcome and the reply to every task message
    are the same. *)
Theorem same_snapshot_same_plan {P Q : Type} `{CapabilitiesProvider P}
    `{CapabilitiesProvider Q} (p : P) (q : Q)
    (iter_set iter_set' : gset string → list string) (task : Task.t) :
  get_all_workflows p = get_all_workflows q →
  (∀ i, get_script_by_id p i = get_script_by_id q i) →
  _find_best_workflow p task = _find_best_workflow q task
  ∧ (∀ workflow,
       let available :=
         (check_inputs task (required_inputs_of (resolve_scripts p workflow))).1 in
       (∀ e, _compute_plan p iter_set task workflow = Raise e
             ↔ _compute_plan q iter_set' task workflow = Raise e)
       ∧ (∀ plan,
            _compute_plan p iter_set task workflow = Ok plan →
            ∃ plan',
              _compute_plan q iter_set' task workflow = Ok plan'
              ∧ Plan.plan plan = Plan.plan plan'
              ∧ Plan.assumptions plan = Plan.assumptions plan'
              ∧ Plan.missing plan = Plan.missing plan'
              ∧ (available = ∅ ∨ iter_set available = iter_set' available →
                 plan = plan')
              ∧ (available ≠ ∅ →
                 ∃ head tail,
                   Plan.explain plan
                   = head +:+ join ", " (iter_set available) +:+ tail
                   ∧ Plan.explain plan'
                     = head +:+ join ", " (iter_set' available) +:+ tail))
       ∧ ((∀ X, iter_set X ≡ₚ elements X) →
          (∀ X, iter_set' X ≡ₚ elements X) →
          size available ≤ 1 →
          _compute_plan p iter_set task workflow
          = _compute_plan q iter_set' task workflow))
  ∧ ((∀ X, iter_set X = iter_set' X) →
     Spec.resolution p iter_set task = Spec.resolution q iter_set' task
     ∧ ∀ message, task_reply p iter_set message = task_reply q iter_set' message).
Proof.
  intros Hworkflows Hscripts.
  assert (∀ workflow,
            let available :=
              (check_inputs task (required_inputs_of (resolve_scripts p workflow))).1 in
            available = ∅ ∨ iter_set available = iter_set' available →
            _compute_plan p iter_set task workflow
            = _compute_plan q iter_set' task workflow) as Hsame.
  { intros workflow available Horder.
    rewrite <- (same_plan p q iter_set' Hscripts).
    destruct (compute_plan_frame p task workflow)
      as [[e He]|(head & tail & Hok)]; [by rewrite !He |].
    rewrite !Hok. fold available. destruct Horder as [-> | ->]; [|done].
    by rewrite bool_decide_eq_false_2 by (by intros []). }
  split_and!.
  - by apply same_best.
  - intros workflow available. split_and!.
    + intros e. rewrite <- (same_plan p q iter_set' Hscripts).
      destruct (compute_plan_frame p task workflow)
        as [[e' He]|(head & tail & Hok)]; [by rewrite !He | by rewrite !Hok].
    + intros plan Hplan. rewrite <- (same_plan p q iter_set' Hscripts).
      destruct (compute_plan_frame p task workflow)
        as [[e He]|(head & tail & Hok)]; [by rewrite He in Hplan |].
      rewrite Hok in Hplan. injection Hplan as <-.
      eexists. split; [apply Hok |]. cbn [Plan.plan Plan.assumptions Plan.missing
        Plan.explain]. fold available. split_and!; try done.
      * intros [-> | ->]; [|done].
        by rewrite bool_decide_eq_false_2 by (by intros []).
      * intros Hne. rewrite bool_decide_eq_true_2 by done. by exists head, tail.
    + intros Hiter Hiter' Hsize. apply Hsame.
      by apply small_set_one_order.
  - intros Horder. split.
    + unfold Spec.resolution. rewrite (same_best p q Hworkflows).
      destruct (_find_best_workflow q task) as [best|]; [|done].
      rewrite Hsame; [done |]. right. apply Horder.
    + intros message. rewrite <- (same_reply p q iter_set' Hworkflows Hscripts).
      unfold task_reply. destruct (Task.from_dict _) as [task'|e]; [|done].
      cbn [bind]. destruct (_find_best_workflow p task') as [best|]; [|done].
      destruct (compute_plan_frame p task' best)
        as [[e He]|(head & tail & Hok)]; [by rewrite !He |].
      by rewrite !Hok, Horder.
Qed.

Lemma same_snapshot_same_plan_witness :
  Spec.resolution Scenario.catalogue elements Scenario.cooling_task
  = Spec.resolution Scenario.catalogue' elements Scenario.cooling_task.
Proof.
  apply (same_snapshot_same_plan Scenario.catalogue Scenario.catalogue' elements
           elements Scenario.cooling_task).
  - reflexivity.
  - intros i. simpl. unfold find_script. simpl.
    destruct (has_id i Scenario.script_001); reflexivity.
  - reflexivity.
Defined.

(** C8, as stated, fails across interpreters: the same task resolved
    twice against the same catalogue, by two interpreters that iterate
    over the set of available inputs in different orders, gives two plans
    whose explanations differ. *)
Lemma explanation_follows_set_order :
  ∃ plan plan',
    _compute_plan Scenario.catalogue elements Scenario2.ordered_task Scenario.W1
    = Ok plan
    ∧ _compute_plan Scenario.catalogue Scenario2.reversed Scenario2.ordered_task
        Scenario.W1
      = Ok plan'
    ∧ Scenario2.reversed {["weather_epw"; "geometry"]}
      ≡ₚ elements ({["weather_epw"; "geometry"]} : gset string)
    ∧ Plan.plan plan = Plan.plan plan'
    ∧ Plan.explain plan
      = "Selected workflow 'estimate_cooling_demand' because it matches your intent to cooling demand. This workflow is suitable for district-level analysis. The workflow consists of 1 steps: Calculate hourly cooling loads for buildings. Available inputs: weather_epw, geometry."
    ∧ Plan.explain plan'
      = "Selected workflow 'estimate_cooling_demand' because it matches your intent to cooling demand. This workflow is suitable for district-level analysis. The workflow consists of 1 steps: Calculate hourly cooling loads for buildings. Available inputs: geometry, weather_epw."
    ∧ Plan.explain plan ≠ Plan.explain plan'.
Proof.
  eexists _, _. split_and!; [by vm_compute | by vm_compute | | | | |].
  - unfold Scenario2.reversed. by rewrite reverse_Permutation.
  - reflexivity.
  - reflexivity.
  - reflexivity.
  - discriminate.
Qed.

End SnapshotFacts.

(** ** The reply to a task message *)

Module TaskFacts.

Import QueryTranslatorAgent.

Section WithProvider.
Context `{CapabilitiesProvider P} (capabilities : P).
Context (iter_set : gset string → list string).
Context (now : Z) (self : BaseAgent.t) (message : Message.t) (r : Router.t).

Lemma sends_ok (reply : Performative * string * dict value) :
  task_reply capabilities iter_set message = Ok reply →
  Spec.sends capabilities iter_set now self message r reply.
Proof.
  intros Hreply. unfold Spec.sends, handle_task. rewrite Hreply.
  destruct reply as [[performative content_type] content].
  rewrite AgentFacts.reply_routes. by destruct (Router.route _ r).
Qed.

Lemma sends_error (cls msg : string) :
  task_reply capabilities iter_set message = Raise (Exception cls msg) →
  Spec.sends capabilities iter_set now self message r
    (FAILURE, "error", [("error", VStr ("Failed to process task: " +:+ msg))]).
Proof.
  intros Hreply. unfold Spec.sends, handle_task. rewrite Hreply.
  rewrite AgentFacts.reply_routes. by destruct (Router.route _ r).
Qed.

(** C1 — when the content of a task message validates as a task, the
    reply is a FAILURE of content type ["error"] saying that no workflow
    was found for the intent if no workflow of the provider shares a
    tag with the task; and when a workflow is selected and its plan is
    computed, the reply is a FAILURE of content type ["plan"] carrying
    [reason], [missing] and the plan if the missing list is not empty,
    and an INFORM of content type ["plan"] carrying the plan, the
    workflow id and the workflow name if it is empty.  When the content
    does not validate, the reply is a FAILURE of content type ["error"]
    whose text starts with ["Failed to process task: "]. *)
Theorem task_reply_shapes :
  (∀ task,
      Task.from_dict (Message.content message) = Ok task →
      ((∀ workflow,
           workflow ∈ get_all_workflows capabilities →
           ¬ Spec.shares_tag task workflow) →
       Spec.sends capabilities iter_set now self message r
         (FAILURE, "error",
          [("error", VStr ("No workflow found for intent: " +:+ Task.intent task))]))
      ∧ (∀ best plan,
           _find_best_workflow capabilities task = Some best →
           _compute_plan capabilities iter_set task best = Ok plan →
           (Plan.missing plan ≠ [] →
            Spec.sends capabilities iter_set now self message r
              (FAILURE, "plan",
               [("reason",
                 VStr ("Missing required inputs: " +:+ join ", " (Plan.missing plan)));
                ("missing", VList (VStr <$> Plan.missing plan));
                ("plan", VDict (Plan.to_dict plan))]))
           ∧ (Plan.missing plan = [] →
              Spec.sends capabilities iter_set now self message r
                (INFORM, "plan",
                 [("plan", VDict (Plan.to_dict plan));
                  ("workflow_id",
                   match Workflow.id best with Some i => VStr i | None => VNone end);
                  ("workflow_name", VStr (Workflow.name best))]))))
  ∧ (∀ cls msg,
      Task.from_dict (Message.content message) = Raise (Exception cls msg) →
      Spec.sends capabilities iter_set now self message r
        (FAILURE, "error", [("error", VStr ("Failed to process task: " +:+ msg))])).
Proof.
  split.
  - intros task Htask. split.
    + intros Hnone. apply sends_ok. unfold task_reply. rewrite Htask. cbn [bind].
      by rewrite (SelectionFacts.no_shared_tag_no_best capabilities task Hnone).
    + intros best plan Hbest Hplan. split; intros Hmissing.
      * apply sends_ok. unfold task_reply. rewrite Htask. cbn [bind].
        rewrite Hbest, Hplan. cbn [bind]. by destruct (Plan.missing plan).
      * apply sends_ok. unfold task_reply. rewrite Htask. cbn [bind].
        rewrite Hbest, Hplan. cbn [bind]. by rewrite Hmissing.
  - intros cls msg Htask. apply (sends_error cls). unfold task_reply. by rewrite Htask.
Qed.

End WithProvider.

Lemma task_reply_shapes_witness :
  Spec.sends Scenario.catalogue elements 302 Scenario.translator
    Scenario.task_message Scenario.chat_online
    (FAILURE, "plan",
     [("reason", VStr "Missing required inputs: weather_epw");
      ("missing", VList [VStr "weather_epw"]);
      ("plan", VDict (Plan.to_dict Scenario.cooling_plan))]).
Proof.
  destruct (task_reply_shapes Scenario.catalogue elements 302 Scenario.translator
              Scenario.task_message Scenario.chat_online) as [Hvalid _].
  destruct (Hvalid Scenario.cooling_task) as [_ Hselected]; [reflexivity |].
  destruct (Hselected Scenario.W1 Scenario.cooling_plan) as [Hincomplete _];
    [reflexivity | reflexivity |].
  apply Hincomplete. discriminate.
Defined.

(** C1, as stated, fails on a task message whose content is not a task:
    the reply that reaches the inbox of the sender is a FAILURE of content
    type ["error"] reporting the validation failure, which is none of the
    three shapes. *)
Lemma invalid_task_reply :
  (handle_task Scenario.catalogue elements 302 Scenario.translator
     Scenario.bad_message Scenario.chat_online).2 = Ok ()
  ∧ Router.items 2
      (handle_task Scenario.catalogue elements 302 Scenario.translator
         Scenario.bad_message Scenario.chat_online).1
    = [Message.mk FAILURE "translator" "chat" "conv-4" "error"
         Scenario.validation_failure.2 302]
  ∧ ¬ (Spec.no_workflow_shape Scenario.validation_failure
       ∨ Spec.incomplete_shape Scenario.validation_failure
       ∨ Spec.complete_shape Scenario.validation_failure).
Proof.
  split_and!; [reflexivity | reflexivity |].
  intros [(intent & Hshape)|[(reason & missing & plan & Hshape)
                             |(plan & workflow_id & workflow_name & Hshape)]];
    discriminate.
Qed.

End TaskFacts.

(** * Further properties *)

(** ** The router *)

Module RouterFacts.

Lemma exec_cons (c : Calls.t) (calls : list Calls.t) (r : Router.t) :
  Calls.exec (c :: calls) r = Calls.exec calls (Calls.exec_call r c).
Proof. reflexivity. Qed.

Lemma get_head (self : BaseAgent.t) (r : Router.t) (m : Message.t)
    (rest : list Message.t) :
  Router.items (BaseAgent.inbox self) r = m :: rest →
  ∃ r',
    BaseAgent.get self r = Some (m, r')
    ∧ Router.items (BaseAgent.inbox self) r' = rest
    ∧ (∀ q, q ≠ BaseAgent.inbox self → Router.items q r' = Router.items q r)
    ∧ Router._agents r' = Router._agents r.
Proof.
  intros Hitems. unfold BaseAgent.get. rewrite Hitems. eexists. split; [done |].
  unfold Router.items. simpl. split_and!; [|intros q Hq|done].
  - by rewrite lookup_insert_eq.
  - by rewrite lookup_insert_ne.
Qed.

(** X1 — messages routed one after the other to receivers registered on
    one inbox are appended to it in the order of the calls, nothing else
    changes, and the owner of the inbox, when it had nothing pending, reads
    the first of them first. *)
Theorem route_keeps_order (ms : list Message.t) (r : Router.t) (q : nat) :
  (∀ m, m ∈ ms → Router._agents r !! Message.receiver m = Some q) →
  let r' := Calls.exec (Calls.Route <$> ms) r in
  Router.items q r' = Router.items q r ++ ms
  ∧ (∀ q', q' ≠ q → Router.items q' r' = Router.items q' r)
  ∧ Router._agents r' = Router._agents r
  ∧ (∀ self m rest,
       BaseAgent.inbox self = q → Router.items q r = [] → ms = m :: rest →
       ∃ r'', BaseAgent.get self r' = Some (m, r'')
              ∧ Router.items q r'' = rest).
Proof.
  intros Hms r'.
  assert (Router.items q r' = Router.items q r ++ ms
          ∧ (∀ q', q' ≠ q → Router.items q' r' = Router.items q' r)
          ∧ Router._agents r' = Router._agents r) as (Hq & Hother & Hagents).
  { subst r'. revert r Hms. induction ms as [|m ms IH]; intros r Hms.
    - by rewrite app_nil_r.
    - rewrite fmap_cons, exec_cons. cbn [Calls.exec_call].
      assert (Router._agents r !! Message.receiver m = Some q) as Hm
        by (apply Hms; left).
      rewrite (BusFacts.route_registered m r q Hm). cbn [fst].
      destruct (IH (Router.enqueue q m r)) as (IHq & IHother & IHagents).
      { intros m' Hm'. apply Hms. by right. }
      split_and!.
      + by rewrite IHq, BusFacts.items_enqueue_eq, <- app_assoc.
      + intros q' Hq'. by rewrite IHother, BusFacts.items_enqueue_ne.
      + by rewrite IHagents. }
  split_and!; try done.
  intros self m rest Hinbox Hempty ->.
  rewrite Hempty in Hq. simpl in Hq.
  destruct (get_head self r' m rest) as (r'' & Hget & Hrest & _);
    [by rewrite Hinbox |].
  exists r''. by rewrite <- Hinbox.
Qed.

Lemma route_keeps_order_witness :
  Router.items 7 (Calls.exec (Calls.Route <$> [Scenario2.m1; Scenario2.m2])
                    (Router.register_agent "bob" 7 Router.empty))
  = Router.items 7 (Router.register_agent "bob" 7 Router.empty)
    ++ [Scenario2.m1; Scenario2.m2].
Proof.
  apply (route_keeps_order [Scenario2.m1; Scenario2.m2]
           (Router.register_agent "bob" 7 Router.empty) 7).
  intros m Hm. apply elem_of_cons in Hm as [->|Hm]; [reflexivity |].
  apply list_elem_of_singleton in Hm as ->. reflexivity.
Defined.

(** X2 — unregistering a name leaves it unregistered, so that messages
    for it are refused, keeps every other registration and every pending
    message, does nothing when the name was not registered, and undoes a
    registration of a name that was free. *)
Theorem unregister_forgets (name : string) (r : Router.t) :
  Router.is_agent_registered name (Router.unregister_agent name r) = false
  ∧ (∀ m, Message.receiver m = name →
       Router.route m (Router.unregister_agent name r)
       = (Router.unregister_agent name r, false))
  ∧ (∀ other, other ≠ name →
       Router._agents (Router.unregister_agent name r) !! other
       = Router._agents r !! other)
  ∧ Router.heap (Router.unregister_agent name r) = Router.heap r
  ∧ (Router._agents r !! name = None → Router.unregister_agent name r = r)
  ∧ (∀ q, Router._agents r !! name = None →
       Router.unregister_agent name (Router.register_agent name q r) = r).
Proof.
  assert (Router._agents (Router.unregister_agent name r) !! name = None) as Hnone.
  { unfold Router.unregister_agent.
    destruct (Router._agents r !! name) eqn:Hname; [|done].
    simpl. apply lookup_delete_eq. }
  split_and!.
  - unfold Router.is_agent_registered. rewrite Hnone.
    apply bool_decide_eq_false. by intros [? ?].
  - intros m <-. by apply BusFacts.route_unregistered.
  - intros other Hother. unfold Router.unregister_agent.
    destruct (Router._agents r !! name); [|done]. simpl.
    by rewrite lookup_delete_ne.
  - unfold Router.unregister_agent. by destruct (Router._agents r !! name).
  - intros Hfree. unfold Router.unregister_agent. by rewrite Hfree.
  - intros q Hfree. unfold Router.unregister_agent, Router.register_agent. simpl.
    rewrite lookup_insert_eq. simpl. rewrite delete_insert_eq, delete_id by done.
    by destruct r.
Qed.

Lemma unregister_forgets_witness :
  Router.unregister_agent "bob" (Router.register_agent "bob" 7 Router.empty)
  = Router.empty.
Proof.
  apply (unregister_forgets "bob" Router.empty). reflexivity.
Defined.

(** X3 — registering a name again replaces its inbox: the router is the
    one a single registration of the new inbox gives, a message for the
    name goes to the new inbox, and the inbox registered before receives
    nothing more and keeps what it held. *)
Theorem reregister_replaces (name : string) (q1 q2 : nat) (r : Router.t)
    (m : Message.t) :
  Message.receiver m = name →
  q1 ≠ q2 →
  let r' := Router.register_agent name q2 (Router.register_agent name q1 r) in
  r' = Router.register_agent name q2 r
  ∧ (Router.route m r').2 = true
  ∧ Router.items q2 (Router.route m r').1 = Router.items q2 r ++ [m]
  ∧ Router.items q1 (Router.route m r').1 = Router.items q1 r.
Proof.
  intros <- Hne r'.
  assert (r' = Router.register_agent (Message.receiver m) q2 r) as Hr'.
  { subst r'. unfold Router.register_agent. simpl. by rewrite insert_insert_eq. }
  assert (Router._agents r' !! Message.receiver m = Some q2) as Hlookup.
  { rewrite Hr'. simpl. apply lookup_insert_eq. }
  rewrite (BusFacts.route_registered m r' q2 Hlookup). cbn [fst snd].
  split_and!; [done | done | |].
  - by rewrite BusFacts.items_enqueue_eq, Hr'.
  - by rewrite BusFacts.items_enqueue_ne, Hr'.
Qed.

Lemma reregister_replaces_witness :
  Router.items 8
    (Router.route Scenario2.m1
       (Router.register_agent "bob" 8 (Router.register_agent "bob" 7 Router.empty))).1
  = Router.items 8 Router.empty ++ [Scenario2.m1].
Proof.
  apply (reregister_replaces "bob" 7 8 Router.empty Scenario2.m1).
  - reflexivity.
  - discriminate.
Defined.

End RouterFacts.

(** ** The run loop of an agent *)

Module RuntimeFacts.

Lemma get_empty (self : BaseAgent.t) (r : Router.t) :
  Router.items (BaseAgent.inbox self) r = [] → BaseAgent.get self r = None.
Proof. intros Hitems. unfold BaseAgent.get. by rewrite Hitems. Qed.

Lemma loop_step (clock : nat → Z) (i n : nat) (self : BaseAgent.t) (r : Router.t) :
  BaseAgent._running self = true →
  BaseAgent.loop clock i (S n) self r
  = match BaseAgent.cycle (clock i) self r with
    | (r', Ok _) => BaseAgent.loop clock (S i) n self r'
    | (r', Raise e) => (r', Raise e)
    end.
Proof. intros Hrun. cbn [BaseAgent.loop]. by rewrite Hrun. Qed.

(** X4 — a running agent removes from its inbox, oldest first, one
    message per pass, and a message whose content type has no handler is
    dropped without an answer: after [n] passes over an inbox holding only
    such messages the first [n] of them are gone, no other queue has
    changed, the registrations are the same and the loop has not failed.
    With an empty inbox the passes change nothing. *)
Theorem unhandled_messages_dropped (clock : nat → Z) (n i : nat)
    (self : BaseAgent.t) (r : Router.t) :
  BaseAgent._running self = true →
  (∀ m, m ∈ Router.items (BaseAgent.inbox self) r →
     BaseAgent._handlers self !! Message.content_type m = None) →
  let out := BaseAgent.loop clock i n self r in
  out.2 = Ok ()
  ∧ Router.items (BaseAgent.inbox self) out.1
    = drop n (Router.items (BaseAgent.inbox self) r)
  ∧ (∀ q, q ≠ BaseAgent.inbox self → Router.items q out.1 = Router.items q r)
  ∧ Router._agents out.1 = Router._agents r.
Proof.
  intros Hrun. revert i r. induction n as [|n IH]; intros i r Hnone; [done |].
  cbv zeta. rewrite loop_step by done. unfold BaseAgent.cycle.
  destruct (Router.items (BaseAgent.inbox self) r) as [|m rest] eqn:Hitems.
  - rewrite get_empty by done.
    destruct (IH (S i) r) as (Hok & Hinbox & Hother & Hagents).
    { by rewrite Hitems. }
    rewrite Hitems, drop_nil in Hinbox. by split_and!.
  - destruct (RouterFacts.get_head self r m rest Hitems)
      as (r' & Hget & Hrest & Hothers & Hreg).
    rewrite Hget. unfold BaseAgent.handle_message.
    rewrite Hnone by left.
    destruct (IH (S i) r') as (Hok & Hinbox & Hother & Hagents).
    { intros m' Hm'. apply Hnone. right. by rewrite <- Hrest. }
    rewrite Hrest in Hinbox. split_and!; [done | done | |].
    + intros q Hq. by rewrite Hother, Hothers.
    + by rewrite Hagents.
Qed.

Lemma unhandled_messages_dropped_witness :
  Router.items 7
    (BaseAgent.loop (λ _, 0%Z) 0 1 Scenario2.quiet_bob Scenario2.two_notes).1
  = drop 1 (Router.items 7 Scenario2.two_notes).
Proof.
  apply (unhandled_messages_dropped (λ _, 0%Z) 1 0 Scenario2.quiet_bob
           Scenario2.two_notes).
  - reflexivity.
  - intros m _. reflexivity.
Defined.

(** X5 — an exception that is not an [Exception] (a cancellation, a
    keyboard interrupt) raised by a handler leaves the loop of [run] at
    once, however many passes were still to come: the message being handled
    is consumed, no failure reply is sent, the exception reaches the caller
    of [run], and the messages behind it stay in the inbox. *)
Theorem escaping_exception_ends_run (clock : nat → Z) (i n : nat)
    (self : BaseAgent.t) (r r' : Router.t) (m : Message.t) (rest : list Message.t)
    (h : BaseAgent.handler) (cls msg : string) :
  BaseAgent._running self = true →
  Router.items (BaseAgent.inbox self) r = m :: rest →
  BaseAgent._handlers self !! Message.content_type m = Some h →
  (∀ r1, BaseAgent.get self r = Some (m, r1) → h m r1 = (r', Raise (BaseOnly cls msg))) →
  BaseAgent.loop clock i (S n) self r = (r', Raise (BaseOnly cls msg)).
Proof.
  intros Hrun Hitems Hh Hraise.
  destruct (RouterFacts.get_head self r m rest Hitems) as (r1 & Hget & _).
  rewrite loop_step by done. unfold BaseAgent.cycle. rewrite Hget.
  by rewrite (AgentFacts.base_exception_escapes (clock i) self m h r1 r' cls msg Hh
                (Hraise r1 Hget)).
Qed.

Lemma escaping_exception_ends_run_witness :
  BaseAgent.loop (λ _, 0%Z) 0 5 Scenario2.fragile_bob Scenario2.two_notes
  = (Router.mk (Router._agents Scenario2.two_notes)
       (<[7 := [Scenario2.m2]]> (Router.heap Scenario2.two_notes)),
     Raise (BaseOnly "CancelledError" "")).
Proof.
  apply (escaping_exception_ends_run (λ _, 0%Z) 0 4 Scenario2.fragile_bob
           Scenario2.two_notes _ Scenario2.m1 [Scenario2.m2] Scenario2.cancelled).
  - reflexivity.
  - reflexivity.
  - reflexivity.
  - intros r1 [= <-]. reflexivity.
Defined.

(** X6 — [on] keeps one handler per content type, the one registered
    last: registering [h2] after [h1] for the same content type gives the
    agent that registering [h2] alone gives, messages of that content type
    are passed to [h2], and the dispatch of every other content type is as
    before. *)
Theorem on_last_registration_wins (content_type : string) (h1 h2 : BaseAgent.handler)
    (self : BaseAgent.t) :
  BaseAgent.on content_type h2 (BaseAgent.on content_type h1 self)
  = BaseAgent.on content_type h2 self
  ∧ (∀ now m r r',
       Message.content_type m = content_type → h2 m r = (r', Ok ()) →
       BaseAgent.handle_message now
         (BaseAgent.on content_type h2 (BaseAgent.on content_type h1 self)) m r
       = (r', Ok ()))
  ∧ (∀ now m r,
       Message.content_type m ≠ content_type →
       BaseAgent.handle_message now (BaseAgent.on content_type h2 self) m r
       = BaseAgent.handle_message now self m r).
Proof.
  assert (BaseAgent.on content_type h2 (BaseAgent.on content_type h1 self)
          = BaseAgent.on content_type h2 self) as Hon.
  { unfold BaseAgent.on. simpl. by rewrite insert_insert_eq. }
  split_and!; [done | |].
  - intros now m r r' <- Hh2. rewrite Hon. unfold BaseAgent.handle_message.
    cbn [BaseAgent.on BaseAgent._handlers]. by rewrite lookup_insert_eq, Hh2.
  - intros now m r Hne. unfold BaseAgent.handle_message.
    cbn [BaseAgent.on BaseAgent._handlers BaseAgent.name].
    rewrite lookup_insert_ne by done.
    destruct (BaseAgent._handlers self !! Message.content_type m) as [h|]; [|done].
    by destruct (h m r) as [r1 [[]|[cls msg|cls msg]]].
Qed.

(** X7 — [send] stamps the message with the name of the sending agent,
    the clock reading and the conversation id (a fresh one when none is
    given).  When the receiver is registered the message is appended to its
    inbox and [send] returns [True]; otherwise [send] returns [False] and
    nothing is queued anywhere. *)
Theorem send_stamps_and_delivers (now : Z) (uuid : string) (self : BaseAgent.t)
    (receiver : string) (performative : Performative) (content_type : string)
    (content : dict value) (conversation_id : option string) (r : Router.t) :
  let m :=
    Message.mk performative (BaseAgent.name self) receiver
      (default uuid conversation_id) content_type content now in
  let out :=
    BaseAgent.send now uuid self receiver performative content_type content
      conversation_id r in
  (∀ q, Router._agents r !! receiver = Some q →
     out.2 = true
     ∧ Router.items q out.1 = Router.items q r ++ [m]
     ∧ (∀ q', q' ≠ q → Router.items q' out.1 = Router.items q' r))
  ∧ (Router._agents r !! receiver = None → out = (r, false)).
Proof.
  intros m out.
  assert (out = Router.route m r) as ->.
  { subst out m. unfold BaseAgent.send, Message.create. by destruct conversation_id. }
  split.
  - intros q Hq. rewrite (BusFacts.route_registered m r q) by done. cbn [fst snd].
    split_and!; [done | apply BusFacts.items_enqueue_eq |].
    intros q' Hq'. by apply BusFacts.items_enqueue_ne.
  - intros Hnone. by apply BusFacts.route_unregistered.
Qed.

(** X8 — after [shutdown] the agent is stopped and unknown to the
    router: its loop makes no further pass, so what was pending in its inbox
    stays there unhandled, and a message sent to it afterwards is refused
    ([send] returns [False]) and queued nowhere. *)
Theorem shutdown_stops_and_unregisters (self : BaseAgent.t) (r : Router.t) :
  let '(self', r') := BaseAgent.shutdown self r in
  (∀ clock i n, BaseAgent.loop clock i n self' r' = (r', Ok ()))
  ∧ Router.heap r' = Router.heap r
  ∧ Router.is_agent_registered (BaseAgent.name self) r' = false
  ∧ (∀ now uuid other performative content_type content conversation_id,
       BaseAgent.send now uuid other (BaseAgent.name self) performative content_type
         content conversation_id r'
       = (r', false)).
Proof.
  unfold BaseAgent.shutdown.
  assert (Router._agents (Router.unregister_agent (BaseAgent.name self) r)
            !! BaseAgent.name self = None) as Hnone.
  { unfold Router.unregister_agent.
    destruct (Router._agents r !! BaseAgent.name self) eqn:Hname; [|done].
    simpl. apply lookup_delete_eq. }
  split_and!.
  - intros clock i n. by destruct n.
  - unfold Router.unregister_agent.
    by destruct (Router._agents r !! BaseAgent.name self).
  - unfold Router.is_agent_registered. rewrite Hnone.
    apply bool_decide_eq_false. by intros [? ?].
  - intros. unfold BaseAgent.send. by apply BusFacts.route_unregistered.
Qed.

End RuntimeFacts.

(** ** The ping-pong exchange and the task model *)

Module ExchangeFacts.

(** X9 — a ping is answered by a pong in the same conversation.  With
    the pinger registered and the inbox of the ponger empty, [send_ping]
    succeeds and records the time it put in the ping; one pass of the
    ponger then empties its inbox and appends to the inbox of the pinger an
    INFORM of content type ["pong"], from ["ponger"] to ["pinger"], bearing
    the conversation id of the ping (the fresh one when none was given) and
    echoing the timestamp of the ping as [original_timestamp]; handling
    that pong marks the response as received and keeps the recorded time. *)
Theorem ping_is_answered (now now' : Z) (clock : nat → Z) (uuid : string)
    (time time' : value) (pinger : BaseAgent.t) (st : PingPong.pinger)
    (conversation_id : option string) (qp qo : nat) (r : Router.t) :
  BaseAgent.name pinger = "pinger" →
  Router._agents r !! "pinger" = Some qp →
  qp ≠ qo →
  Router.items qo r = [] →
  let '(ponger, r0) := PingPong.ponger_init now' time' qo r in
  let '(st1, (r1, sent)) :=
    PingPong.send_ping now uuid time pinger st conversation_id r0 in
  let '(r2, outcome) := BaseAgent.run clock 1 ponger r1 in
  let pong :=
    Message.mk INFORM "ponger" "pinger" (default uuid conversation_id) "pong"
      [("message", VStr "pong"); ("original_timestamp", time);
       ("reply_timestamp", time')] now' in
  sent = true
  ∧ PingPong.ping_sent_time st1 = Some time
  ∧ outcome = Ok ()
  ∧ Router.items qo r2 = []
  ∧ Router.items qp r2 = Router.items qp r ++ [pong]
  ∧ PingPong.handle_pong pong st1
    = PingPong.mk true (Some pong) (Some time).
Proof.
  intros Hname Hqp Hne Hempty.
  unfold PingPong.ponger_init, BaseAgent.init, PingPong.send_ping, BaseAgent.send.
  cbv beta iota zeta.
  set (r0 := Router.register_agent "ponger" qo r).
  set (ping := Message.create now REQUEST _ _ _ _ _ _).
  assert (Router._agents r0 !! Message.receiver ping = Some qo) as Hqo
    by apply lookup_insert_eq.
  rewrite (BusFacts.route_registered ping r0 qo Hqo).
  set (ponger := BaseAgent.on "ping" _ _).
  unfold BaseAgent.run.
  set (running := BaseAgent.mk _ _ _ true).
  assert (Router.items (BaseAgent.inbox running) (Router.enqueue qo ping r0) = [ping])
    as Hitems.
  { cbn [running BaseAgent.inbox ponger BaseAgent.on].
    rewrite BusFacts.items_enqueue_eq. unfold Router.items at 1. simpl.
    fold (Router.items qo r). by rewrite Hempty. }
  destruct (RouterFacts.get_head running _ ping [] Hitems)
    as (r1 & Hget & Hrest & Hothers & Hreg).
  rewrite RuntimeFacts.loop_step by done.
  unfold BaseAgent.cycle. rewrite Hget. unfold BaseAgent.handle_message.
  assert (BaseAgent._handlers running !! Message.content_type ping
          = Some (PingPong.handle_ping now' time' (BaseAgent.mk "ponger" qo ∅ false)))
    as -> by apply lookup_insert_eq.
  unfold PingPong.handle_ping. rewrite AgentFacts.reply_routes.
  set (pong := Message.reply now' ping INFORM "pong" _ _).
  assert (Router._agents r1 !! Message.receiver pong = Some qp) as Hpinger.
  { rewrite Hreg. cbn. rewrite Hname. rewrite lookup_insert_ne by done. exact Hqp. }
  rewrite (BusFacts.route_registered pong r1 qp Hpinger).
  cbn [BaseAgent.loop].
  assert (pong = Message.mk INFORM "ponger" "pinger" (default uuid conversation_id)
                   "pong"
                   [("message", VStr "pong"); ("original_timestamp", time);
                    ("reply_timestamp", time')] now') as Hpong.
  { subst pong ping. unfold Message.reply, Message.create. cbn. rewrite Hname.
    by destruct conversation_id. }
  rewrite <- Hpong.
  split_and!; try done.
  - rewrite BusFacts.items_enqueue_ne by done. exact Hrest.
  - rewrite BusFacts.items_enqueue_eq, Hothers by done.
    by rewrite BusFacts.items_enqueue_ne.
Qed.

Lemma ping_is_answered_witness :
  Router.items 3
    (BaseAgent.run (λ _, 0%Z) 1
       (PingPong.ponger_init 21 (VInt 101) 4
          (Router.register_agent "pinger" 3 Router.empty)).1
       (PingPong.send_ping 20 "u-1" (VInt 100) (BaseAgent.mk "pinger" 3 ∅ true)
          PingPong.init None
          (PingPong.ponger_init 21 (VInt 101) 4
             (Router.register_agent "pinger" 3 Router.empty)).2).2.1).1
  = [Message.mk INFORM "ponger" "pinger" "u-1" "pong"
       [("message", VStr "pong"); ("original_timestamp", VInt 100);
        ("reply_timestamp", VInt 101)] 21].
Proof.
  pose proof (ping_is_answered 20 21 (λ _, 0%Z) "u-1" (VInt 100) (VInt 101)
                (BaseAgent.mk "pinger" 3 ∅ true) PingPong.init None 3 4
                (Router.register_agent "pinger" 3 Router.empty)
                eq_refl eq_refl ltac:(discriminate) eq_refl) as Hpong.
  exact (proj1 (proj2 (proj2 (proj2 (proj2 Hpong))))).
Defined.

Lemma validate_entries_str (d : dict string) :
  Task.validate_entries ((λ kv, (kv.1, VStr kv.2)) <$> d) = (0, d).
Proof.
  induction d as [|[k v] d IH]; [done |].
  rewrite fmap_cons. cbn [Task.validate_entries fst snd]. by rewrite IH.
Qed.

(** X10 — a task survives the trip through a message: [from_dict]
    applied to what [to_dict] produced validates and gives the task back,
    whatever its intent, scope, inputs, constraints and text. *)
Theorem task_round_trip (task : Task.t) :
  Task.from_dict (Task.to_dict task) = Ok task.
Proof.
  destruct task as [intent scope inputs constraints raw_text].
  unfold Task.from_dict, Task.to_dict. cbn [Task.intent Task.scope Task.inputs
    Task.constraints Task.raw_text].
  assert (∀ d, Task.validate_dict (Some (Task.str_dict d)) = inr d) as Hdict.
  { intros d. unfold Task.validate_dict, Task.str_dict.
    by rewrite validate_entries_str. }
  change (get "inputs" _) with (Some (Task.str_dict inputs)).
  change (get "constraints" _) with (Some (Task.str_dict constraints)).
  rewrite !Hdict.
  change (get "intent" _) with (Some (VStr intent)).
  change (get "raw_text" _) with (Some (VStr raw_text)).
  change (get "scope" _)
    with (Some (match scope with Some s => VStr (scope_str s) | None => VNone end)).
  by destruct scope as [[]|].
Qed.

End ExchangeFacts.

(** ** Tags, availability checks and replies of the translator *)

Module TagFacts.

Import QueryTranslatorAgent Conditions.

Lemma last_char_app (pre suf : string) :
  suf ≠ "" → last_char (pre +:+ suf) = last_char suf.
Proof.
  intros Hsuf. induction pre as [|c pre IH]; [by rewrite PyFacts.append_nil_l |].
  rewrite PyFacts.append_cons. cbn [last_char]. rewrite IH.
  destruct suf as [|d suf]; [done |]. cbn [last_char].
  by destruct (last_char suf).
Qed.

(** A file name ends in at most one of the four extensions. *)
Lemma extension_unique (file ext ext' tag tag' : string) :
  (ext, tag) ∈ file_tags → (ext', tag') ∈ file_tags →
  Spec.ends_with file ext → Spec.ends_with file ext' →
  ext = ext' ∧ tag = tag'.
Proof.
  intros Hext Hext' [pre Hpre] [pre' Hpre'].
  assert (last_char ext = last_char ext') as Hlast.
  { apply list_elem_of_In in Hext, Hext'. simpl in Hext, Hext'.
    rewrite <- (last_char_app pre ext), <- (last_char_app pre' ext'); [congruence | |].
    - destruct Hext' as [[= <- _]|[[= <- _]|[[= <- _]|[[= <- _]|[]]]]]; discriminate.
    - destruct Hext as [[= <- _]|[[= <- _]|[[= <- _]|[[= <- _]|[]]]]]; discriminate. }
  apply list_elem_of_In in Hext, Hext'. simpl in Hext, Hext'.
  destruct Hext as [[= <- <-]|[[= <- <-]|[[= <- <-]|[[= <- <-]|[]]]]];
    destruct Hext' as [[= <- <-]|[[= <- <-]|[[= <- <-]|[[= <- <-]|[]]]]];
    done.
Qed.

Lemma file_step_elem (tags : gset string) (file x : string) :
  x ∈ (if endswith file ".geojson" then tags ∪ {["geometry"]}
       else if endswith file ".epw" then tags ∪ {["weather"]}
       else if endswith file ".csv" then tags ∪ {["data"]}
       else if endswith file ".xlsx" then tags ∪ {["schedule"]}
       else tags)
  ↔ x ∈ tags ∨ ∃ ext, (ext, x) ∈ file_tags ∧ Spec.ends_with file ext.
Proof.
  assert (∀ ext tag,
            (ext, tag) ∈ file_tags → endswith file ext = true →
            x ∈ tags ∪ {[tag]}
            ↔ x ∈ tags ∨ ∃ ext, (ext, x) ∈ file_tags ∧ Spec.ends_with file ext)
    as Hbranch.
  { intros ext tag Hin Hends%PyFacts.endswith_spec. rewrite elem_of_union, elem_of_singleton.
    split.
    - intros [?| ->]; [by left | right; by exists ext].
    - intros [?|(ext' & Hin' & Hends')]; [by left | right].
      by destruct (extension_unique file ext' ext x tag Hin' Hin Hends' Hends). }
  destruct (endswith file ".geojson") eqn:H1;
    [apply (Hbranch ".geojson"); [apply list_elem_of_In; simpl; tauto | done] |].
  destruct (endswith file ".epw") eqn:H2;
    [apply (Hbranch ".epw"); [apply list_elem_of_In; simpl; tauto | done] |].
  destruct (endswith file ".csv") eqn:H3;
    [apply (Hbranch ".csv"); [apply list_elem_of_In; simpl; tauto | done] |].
  destruct (endswith file ".xlsx") eqn:H4;
    [apply (Hbranch ".xlsx"); [apply list_elem_of_In; simpl; tauto | done] |].
  split; [by left |]. intros [?|(ext & Hin & Hends%PyFacts.endswith_spec)]; [done |].
  apply list_elem_of_In in Hin. simpl in Hin.
  destruct Hin as [[= <- _]|[[= <- _]|[[= <- _]|[[= <- _]|[]]]]]; congruence.
Qed.

Lemma file_fold_elem (files : list string) (tags : gset string) (x : string) :
  x ∈ foldl (λ (tags : gset string) input_file,
               if endswith input_file ".geojson" then tags ∪ {["geometry"]}
               else if endswith input_file ".epw" then tags ∪ {["weather"]}
               else if endswith input_file ".csv" then tags ∪ {["data"]}
               else if endswith input_file ".xlsx" then tags ∪ {["schedule"]}
               else tags)
            tags files
  ↔ x ∈ tags
    ∨ ∃ file ext, file ∈ files ∧ (ext, x) ∈ file_tags ∧ Spec.ends_with file ext.
Proof.
  revert tags. induction files as [|file files IH]; intros tags.
  - split; [by left |]. intros [?|(file & ext & []%elem_of_nil & _)]. done.
  - cbn [foldl]. rewrite IH, file_step_elem. split.
    + intros [[?|(ext & ? & ?)]|(file' & ext & ? & ? & ?)].
      * by left.
      * right. exists file, ext. split_and!; [left | done | done].
      * right. exists file', ext. split_and!; [by right | done | done].
    + intros [?|(file' & ext & [->|?]%elem_of_cons & ? & ?)].
      * left. by left.
      * left. right. by exists ext.
      * right. by exists file', ext.
Qed.

Lemma key_fold_elem (names keys : list string) (tags : gset string) (x : string) :
  x ∈ foldl (λ (tags : gset string) key,
               if in_list key names then tags ∪ {[key]} else tags)
            tags keys
  ↔ x ∈ tags ∨ (x ∈ keys ∧ x ∈ names).
Proof.
  revert tags. induction keys as [|key keys IH]; intros tags.
  - split; [by left |]. intros [?|[[]%elem_of_nil _]]. done.
  - cbn [foldl]. rewrite IH, elem_of_cons.
    destruct (in_list key names) eqn:Hkey.
    + apply SelectionFacts.in_list_spec in Hkey.
      rewrite elem_of_union, elem_of_singleton. split.
      * intros [[?| ->]|[? ?]]; [by left | right; split; [by left | done] |].
        right. split; [by right | done].
      * intros [?|[[->|?] ?]]; [left; by left | left; by right | right; done].
    + assert (¬ key ∈ names) as Hnot.
      { intros Hin%SelectionFacts.in_list_spec. congruence. }
      split.
      * intros [?|[? ?]]; [by left | right; split; [by right | done]].
      * intros [?|[[->|?] ?]]; [by left | done | by right].
Qed.

(** Where the tags of a task come from. *)
Lemma tags_elem (task : Task.t) (tag : string) :
  tag ∈ _extract_task_tags task
  ↔ tag ∈ findall_word (lower (Task.intent task))
    ∨ (∃ s, Task.scope task = Some s ∧ tag = scope_str s)
    ∨ (tag ∈ keys (Task.inputs task)
       ∧ tag ∈ ["geometry"; "weather"; "schedule"; "data"; "config"])
    ∨ (∃ file ext,
          file ∈ values (Task.inputs task) ∧ (ext, tag) ∈ file_tags
          ∧ Spec.ends_with file ext)
    ∨ (tag ∈ keys (Task.constraints task)
       ∧ tag ∈ ["algorithm"; "timestep"; "temperature"]).
Proof.
  unfold _extract_task_tags. cbv zeta.
  rewrite key_fold_elem, file_fold_elem, key_fold_elem.
  assert (tag ∈ match Task.scope task with
                | Some s => (∅ ∪ list_to_set (findall_word (lower (Task.intent task))))
                            ∪ {[scope_str s]}
                | None => ∅ ∪ list_to_set (findall_word (lower (Task.intent task)))
                end
          ↔ tag ∈ findall_word (lower (Task.intent task))
            ∨ ∃ s, Task.scope task = Some s ∧ tag = scope_str s) as ->.
  { destruct (Task.scope task) as [s|].
    - rewrite !elem_of_union, elem_of_singleton, elem_of_list_to_set.
      split.
      + intros [[[]%elem_of_empty|?]| ->]; [by left | right; by exists s].
      + intros [?|(s' & [= <-] & ->)]; [left; by right | by right].
    - rewrite elem_of_union, elem_of_list_to_set.
      split.
      + intros [[]%elem_of_empty|?]. by left.
      + intros [?|(s' & [=] & _)]. by right. }
  tauto.
Qed.

(** X11 — for a task whose intent is ASCII text, the tags are the words
    of its lower-cased intent, its scope, those of its input keys that are
    among [geometry], [weather], [schedule], [data] and [config], the tag
    of the extension of each input value ([.geojson], [.epw], [.csv],
    [.xlsx]), and those of its constraint keys that are among [algorithm],
    [timestep] and [temperature]; nothing else is a tag.  So a tag that is
    neither a word of the intent nor the scope is one of eight fixed
    names. *)
Theorem task_tags_sources (task : Task.t) (tag : string) :
  is_ascii (Task.intent task) = true →
  (tag ∈ _extract_task_tags task
   ↔ tag ∈ findall_word (lower (Task.intent task))
     ∨ (∃ s, Task.scope task = Some s ∧ tag = scope_str s)
     ∨ (tag ∈ keys (Task.inputs task)
        ∧ tag ∈ ["geometry"; "weather"; "schedule"; "data"; "config"])
     ∨ (∃ file ext,
           file ∈ values (Task.inputs task) ∧ (ext, tag) ∈ file_tags
           ∧ Spec.ends_with file ext)
     ∨ (tag ∈ keys (Task.constraints task)
        ∧ tag ∈ ["algorithm"; "timestep"; "temperature"]))
  ∧ (tag ∈ _extract_task_tags task →
     tag ∈ findall_word (lower (Task.intent task))
     ∨ Task.scope task = Some building ∧ tag = "building"
     ∨ Task.scope task = Some district ∧ tag = "district"
     ∨ tag ∈ ["geometry"; "weather"; "schedule"; "data"; "config"; "algorithm";
              "timestep"; "temperature"]).
Proof.
  intros _. split; [apply tags_elem |].
  intros [?|[(s & Hs & ->)|[[_ Hin]|[(file & ext & _ & Hin & _)|[_ Hin]]]]]%tags_elem.
  - by left.
  - destruct s; [right; left | right; right; left]; done.
  - do 3 right. apply list_elem_of_In in Hin. apply list_elem_of_In.
    simpl in *. tauto.
  - do 3 right. apply list_elem_of_In in Hin. apply list_elem_of_In.
    simpl in Hin.
    destruct Hin as [[= _ <-]|[[= _ <-]|[[= _ <-]|[[= _ <-]|[]]]]]; simpl; tauto.
  - do 3 right. apply list_elem_of_In in Hin. apply list_elem_of_In.
    simpl in *. tauto.
Qed.

Lemma task_tags_sources_witness :
  "geometry" ∈ findall_word (lower (Task.intent Scenario.cooling_task))
  ∨ Task.scope Scenario.cooling_task = Some building ∧ "geometry" = "building"
  ∨ Task.scope Scenario.cooling_task = Some district ∧ "geometry" = "district"
  ∨ "geometry" ∈ ["geometry"; "weather"; "schedule"; "data"; "config"; "algorithm";
                  "timestep"; "temperature"].
Proof.
  apply (task_tags_sources Scenario.cooling_task "geometry").
  - reflexivity.
  - by vm_compute.
Defined.

Lemma tags_ext (task task' : Task.t) :
  Task.intent task = Task.intent task' →
  Task.scope task = Task.scope task' →
  (∀ x, x ∈ keys (Task.inputs task) ↔ x ∈ keys (Task.inputs task')) →
  (∀ x, x ∈ values (Task.inputs task) ↔ x ∈ values (Task.inputs task')) →
  (∀ x, x ∈ keys (Task.constraints task) ↔ x ∈ keys (Task.constraints task')) →
  _extract_task_tags task = _extract_task_tags task'.
Proof.
  intros Hintent Hscope Hkeys Hvalues Hconstraints.
  apply set_eq. intros tag. rewrite !tags_elem, Hintent, Hscope, Hkeys, Hconstraints.
  assert ((∃ file ext, file ∈ values (Task.inputs task) ∧ (ext, tag) ∈ file_tags
                       ∧ Spec.ends_with file ext)
          ↔ (∃ file ext, file ∈ values (Task.inputs task') ∧ (ext, tag) ∈ file_tags
                         ∧ Spec.ends_with file ext)) as ->; [|done].
  split; intros (file & ext & Hfile & ?); exists file, ext; by rewrite Hvalues in *.
Qed.

Lemma score_ext (task task' : Task.t) (workflow : Workflow.t) :
  Task.intent task = Task.intent task' →
  Task.scope task = Task.scope task' →
  _extract_task_tags task = _extract_task_tags task' →
  _calculate_workflow_score task workflow = _calculate_workflow_score task' workflow.
Proof.
  intros Hintent Hscope Htags. unfold _calculate_workflow_score, overlap.
  by rewrite Hintent, Hscope, Htags.
Qed.

Lemma best_ext `{CapabilitiesProvider P} (capabilities : P) (task task' : Task.t) :
  Task.intent task = Task.intent task' →
  Task.scope task = Task.scope task' →
  _extract_task_tags task = _extract_task_tags task' →
  _find_best_workflow capabilities task = _find_best_workflow capabilities task'.
Proof.
  intros Hintent Hscope Htags. unfold _find_best_workflow.
  assert (_get_candidate_workflows capabilities task
          = _get_candidate_workflows capabilities task') as ->.
  { unfold _get_candidate_workflows, overlap. by rewrite Htags. }
  assert (∀ l best, foldl (better task) best l = foldl (better task') best l) as ->;
    [|done].
  induction l as [|workflow l IH]; intros best; [done |].
  cbn [foldl]. rewrite IH. unfold better.
  by rewrite (score_ext task task' workflow).
Qed.

(** X12 — the selection does not look at the order of the inputs and of
    the constraints of a task, nor at the values of its constraints: two
    tasks of the same intent and scope whose inputs are the same up to order
    and whose constraint keys are the same up to order have the same tags,
    give every workflow the same score, and select the same workflow. *)
Theorem selection_ignores_order `{CapabilitiesProvider P} (capabilities : P)
    (task task' : Task.t) :
  Task.intent task = Task.intent task' →
  Task.scope task = Task.scope task' →
  Task.inputs task ≡ₚ Task.inputs task' →
  keys (Task.constraints task) ≡ₚ keys (Task.constraints task') →
  _extract_task_tags task = _extract_task_tags task'
  ∧ (∀ workflow,
       _calculate_workflow_score task workflow
       = _calculate_workflow_score task' workflow)
  ∧ _find_best_workflow capabilities task = _find_best_workflow capabilities task'.
Proof.
  intros Hintent Hscope Hinputs Hconstraints.
  assert (_extract_task_tags task = _extract_task_tags task') as Htags.
  { apply tags_ext; try done.
    - intros x. unfold keys. by rewrite Hinputs.
    - intros x. unfold values. by rewrite Hinputs.
    - intros x. by rewrite Hconstraints. }
  split_and!; [done | |].
  - intros workflow. by apply score_ext.
  - by apply best_ext.
Qed.

Lemma selection_ignores_order_witness :
  _find_best_workflow Scenario.catalogue Scenario2.ordered_task
  = _find_best_workflow Scenario.catalogue Scenario2.reordered_task.
Proof.
  apply (selection_ignores_order Scenario.catalogue Scenario2.ordered_task
           Scenario2.reordered_task).
  - reflexivity.
  - reflexivity.
  - apply perm_swap.
  - reflexivity.
Defined.

End TagFacts.

(** ** The availability checks *)

Module InputFacts.

Import QueryTranslatorAgent Conditions.

(** The outcome of the three checks, as a table of their tests. *)
Lemma check_inputs_table (task : Task.t) (required_inputs : dict string) :
  let wa := weather_required required_inputs && weather_found task in
  let ga := geometry_required required_inputs && geometry_found task in
  let sr := mem "scenario_config" required_inputs in
  (check_inputs task required_inputs).1
  = (if wa then {["weather_epw"]} else ∅)
    ∪ (if ga then {["geometry"]} else ∅)
    ∪ (if sr && (wa || ga) then {["scenario_config"]} else ∅)
  ∧ (check_inputs task required_inputs).2
    = (if weather_required required_inputs && negb (weather_found task)
       then ["weather_epw"] else [])
      ++ (if geometry_required required_inputs && negb (geometry_found task)
          then ["geometry"] else [])
      ++ (if sr && negb (wa || ga) then ["scenario_config"] else []).
Proof.
  unfold check_inputs, weather_required, weather_found, geometry_required,
    geometry_found.
  set (wr := mem "weather_file" required_inputs || _).
  set (wf := existsb (λ inp, endswith inp ".epw") _ || _).
  set (gr := mem "buildings" required_inputs || _).
  set (gf := existsb (λ inp, endswith inp ".geojson") _ || _).
  destruct wr, wf, gr, gf, (mem "scenario_config" required_inputs);
    cbn [andb orb negb fst snd app]; try case_bool_decide;
    cbn [fst snd].
  all: try (split; [|done]; apply set_eq; intros x;
            rewrite !elem_of_union, ?elem_of_singleton, ?elem_of_empty; tauto).
  all: exfalso;
    match goal with
    | Hempty : _ = ∅ |- _ =>
        first [ apply (not_elem_of_empty (C := gset string) "weather_epw");
                rewrite <- Hempty, !elem_of_union, !elem_of_singleton; by auto
              | apply (not_elem_of_empty (C := gset string) "geometry");
                rewrite <- Hempty, !elem_of_union, !elem_of_singleton; by auto ]
    end.
Qed.

Lemma geometry_found_spec (task : Task.t) :
  geometry_found task = true ↔ geometry_available task.
Proof.
  unfold geometry_found, geometry_available.
  rewrite orb_true_iff, existsb_exists, PyFacts.mem_keys.
  split; (intros [(value & Hvalue & Hends)|?]; [left | by right]);
    exists value.
  - split; [by apply list_elem_of_In | by apply PyFacts.endswith_spec].
  - split; [by apply list_elem_of_In | by apply PyFacts.endswith_spec].
Qed.

(** X13 — the availability checks know three names only: whatever the
    scripts require and the task provides, the missing list is a sublist of
    [weather_epw], [geometry], [scenario_config] in that order, the
    available set holds none but these names, and no name is both available
    and missing.  A required input of any other kind is never reported. *)
Theorem missing_names_are_tracked (task : Task.t) (required_inputs : dict string) :
  sublist (check_inputs task required_inputs).2 tracked
  ∧ (∀ x, x ∈ (check_inputs task required_inputs).1 → x ∈ tracked)
  ∧ (∀ x, x ∈ (check_inputs task required_inputs).1 →
       x ∉ (check_inputs task required_inputs).2).
Proof.
  destruct (check_inputs_table task required_inputs) as [-> ->].
  unfold tracked.
  destruct (weather_required required_inputs), (weather_found task),
    (geometry_required required_inputs), (geometry_found task),
    (mem "scenario_config" required_inputs);
    cbn [andb orb negb app];
    (split_and!;
     [repeat first [apply sublist_nil_l | apply sublist_skip | apply sublist_cons]
     | intros x; rewrite list_elem_of_In, !elem_of_union, ?elem_of_singleton,
         ?elem_of_empty; simpl; intuition congruence
     | intros x; rewrite list_elem_of_In, !elem_of_union, ?elem_of_singleton,
         ?elem_of_empty; simpl; intuition congruence]).
Qed.

(** X14 — geometry is checked when some script requires an input named
    [buildings] or one whose lower-cased name contains [geometry]; it is then
    available when an input value ends in [.geojson] or the key [geometry]
    is present, and missing otherwise.  When no script requires it, it is
    neither. *)
Theorem geometry_check (task : Task.t) (required_inputs : dict string) :
  ("geometry" ∈ (check_inputs task required_inputs).1
   ↔ geometry_required required_inputs = true ∧ geometry_available task)
  ∧ ("geometry" ∈ (check_inputs task required_inputs).2
     ↔ geometry_required required_inputs = true ∧ ¬ geometry_available task).
Proof.
  destruct (check_inputs_table task required_inputs) as [-> ->].
  rewrite <- geometry_found_spec.
  destruct (weather_required required_inputs), (weather_found task),
    (geometry_required required_inputs), (geometry_found task),
    (mem "scenario_config" required_inputs);
    cbn [andb orb negb app];
    rewrite list_elem_of_In, !elem_of_union, ?elem_of_singleton, ?elem_of_empty;
    simpl; intuition (discriminate || congruence).
Qed.

(** X15 — the scenario configuration is never looked for in the task:
    when some script requires an input named [scenario_config], it counts as
    available as soon as weather or geometry was found available, and is
    reported missing otherwise; when no script requires it, it is
    neither. *)
Theorem scenario_config_follows_others (task : Task.t)
    (required_inputs : dict string) :
  let available := (check_inputs task required_inputs).1 in
  let missing := (check_inputs task required_inputs).2 in
  ("scenario_config" ∈ available
   ↔ mem "scenario_config" required_inputs = true
     ∧ ("weather_epw" ∈ available ∨ "geometry" ∈ available))
  ∧ ("scenario_config" ∈ missing
     ↔ mem "scenario_config" required_inputs = true
       ∧ ¬ ("weather_epw" ∈ available ∨ "geometry" ∈ available)).
Proof.
  cbv zeta. destruct (check_inputs_table task required_inputs) as [-> ->].
  destruct (weather_required required_inputs), (weather_found task),
    (geometry_required required_inputs), (geometry_found task),
    (mem "scenario_config" required_inputs);
    cbn [andb orb negb app];
    rewrite list_elem_of_In, !elem_of_union, ?elem_of_singleton, ?elem_of_empty;
    simpl; intuition (discriminate || congruence).
Qed.

End InputFacts.

(** ** Plans and replies *)

Module ReplyFacts.

Import QueryTranslatorAgent Conditions.

(** Apart from [scenario_config], an argument does not depend on the
    script. *)
Lemma args_get_other (task : Task.t) (script : Script.t) (arg : string) :
  arg ≠ "scenario_config" →
  get arg (_map_task_inputs_to_script_args task script)
  = get arg (foldl map_constraint (foldl map_input [] (Task.inputs task))
               (Task.constraints task)).
Proof.
  intros Hne%String.eqb_neq. unfold _map_task_inputs_to_script_args.
  destruct (existsb _ (Script.inputs script)); [|done].
  by rewrite PyFacts.get_set, Hne.
Qed.

Lemma checked_items_exn (i : nat) (l : list (option string)) (e : exn) :
  checked_items i l = Raise e → ∃ msg, e = Exception "TypeError" msg.
Proof.
  revert i. induction l as [|[x|] l IH]; intros i; cbn [checked_items]; [done | |].
  - destruct (checked_items (S i) l) eqn:Hl; [done |].
    cbn [bind]. intros [= <-]. by eapply IH.
  - intros [= <-]. by eexists.
Qed.

Lemma checked_items_all (i : nat) (l : list (option string)) (xs : list string) :
  checked_items i l = Ok xs → ∀ x, x ∈ l → is_Some x.
Proof.
  revert i xs. induction l as [|[x|] l IH]; intros i xs; cbn [checked_items].
  - by intros _ y ?%elem_of_nil.
  - destruct (checked_items (S i) l) eqn:Hl; [|done].
    intros _ y [-> | Hy]%elem_of_cons; [by eexists | by eapply IH].
  - done.
Qed.

Lemma from_dict_exn (data : dict value) (e : exn) :
  Task.from_dict data = Raise e → ∃ msg, e = Exception "ValidationError" msg.
Proof.
  unfold Task.from_dict.
  destruct (Task.validate_str (get "intent" data)),
    (Task.validate_scope (get "scope" data)),
    (Task.validate_dict (get "inputs" data)),
    (Task.validate_dict (get "constraints" data)),
    (Task.validate_str (get "raw_text" data));
    intros [= <-]; by eexists.
Qed.

Section WithProvider.
Context `{CapabilitiesProvider P} (capabilities : P).
Context (iter_set : gset string → list string).

Lemma compute_plan_exn (task : Task.t) (workflow : Workflow.t) (e : exn) :
  _compute_plan capabilities iter_set task workflow = Raise e →
  ∃ msg, e = Exception "TypeError" msg.
Proof.
  unfold _compute_plan.
  destruct (check_inputs task _) as [available_inputs missing_inputs].
  unfold _generate_explanation, join_checked.
  destruct (checked_items 0 _) eqn:Hitems; [done |].
  cbn [bind]. intros [= <-]. by eapply checked_items_exn.
Qed.

Lemma compute_plan_described (task : Task.t) (workflow : Workflow.t)
    (plan : Plan.t) :
  _compute_plan capabilities iter_set task workflow = Ok plan →
  Spec.described workflow.
Proof.
  unfold _compute_plan.
  destruct (check_inputs task _) as [available_inputs missing_inputs].
  unfold _generate_explanation, join_checked.
  destruct (checked_items 0 _) eqn:Hitems; [|done].
  intros _ step Hstep. eapply checked_items_all; [done |].
  apply list_elem_of_fmap. by exists step.
Qed.

(** X16 — every step of a plan is given the same arguments, whatever
    its script declares: two steps of a computed plan agree on every
    argument other than [scenario_config], and the identifier of each is
    that of a step of the workflow whose script the provider knows. *)
Theorem plan_steps_share_arguments (task : Task.t) (workflow : Workflow.t)
    (plan : Plan.t) :
  _compute_plan capabilities iter_set task workflow = Ok plan →
  (∀ s1 s2 arg,
      s1 ∈ Plan.plan plan → s2 ∈ Plan.plan plan → arg ≠ "scenario_config" →
      get arg (PlanStep.args s1) = get arg (PlanStep.args s2))
  ∧ (∀ s, s ∈ Plan.plan plan →
       ∃ step script,
         step ∈ Workflow.steps workflow
         ∧ PlanStep.script_id s = WorkflowStep.script_id step
         ∧ get_script_by_id capabilities (WorkflowStep.script_id step) = Some script
         ∧ PlanStep.args s = _map_task_inputs_to_script_args task script).
Proof.
  intros Hplan.
  assert (∀ s, s ∈ Plan.plan plan →
            ∃ step script,
              step ∈ Workflow.steps workflow
              ∧ PlanStep.script_id s = WorkflowStep.script_id step
              ∧ get_script_by_id capabilities (WorkflowStep.script_id step)
                = Some script
              ∧ PlanStep.args s = _map_task_inputs_to_script_args task script)
    as Hsteps.
  { destruct (PlanFacts.compute_plan_cases capabilities iter_set task workflow)
      as [(explanation & _ & Hok)|(e & Hraise & _)]; [|congruence].
    rewrite Hok in Hplan. injection Hplan as <-. cbn [Plan.plan].
    rewrite PlanFacts.plan_steps_known.
    intros s (step & Hstep & Hs)%list_elem_of_omap. unfold Spec.step_of in Hs.
    destruct (get_script_by_id capabilities (WorkflowStep.script_id step))
      as [script|] eqn:Hscript; [|done].
    injection Hs as <-. by exists step, script. }
  split; [|done].
  intros s1 s2 arg (_ & script1 & _ & _ & _ & ->)%Hsteps
    (_ & script2 & _ & _ & _ & ->)%Hsteps Harg.
  by rewrite !args_get_other.
Qed.

Lemma task_reply_exn (message : Message.t) (e : exn) :
  task_reply capabilities iter_set message = Raise e →
  ∃ cls msg, e = Exception cls msg.
Proof.
  unfold task_reply.
  destruct (Task.from_dict (Message.content message)) as [task|e'] eqn:Htask.
  - cbn [bind]. destruct (_find_best_workflow capabilities task) as [best|]; [|done].
    destruct (_compute_plan capabilities iter_set task best) as [plan|e'] eqn:Hplan.
    + cbn [bind]. by destruct (Plan.missing plan).
    + cbn [bind]. intros [= <-].
      destruct (compute_plan_exn task best e' Hplan) as [msg ->]. by eexists _, _.
  - cbn [bind]. intros [= <-].
    destruct (from_dict_exn _ e' Htask) as [msg ->]. by eexists _, _.
Qed.

(** X17 — every task message is answered, once: whatever the content
    of the message and the state of the catalogue, [handle_task] ends
    normally after sending one reply, which has one of four shapes (no
    workflow found, incomplete plan, complete plan, failure to process);
    and an INFORM is sent only when the content validated as a task, a
    workflow was selected, every step of it has a description, and the
    computed plan misses nothing. *)
Theorem every_task_message_is_answered (now : Z) (self : BaseAgent.t)
    (message : Message.t) (r : Router.t) :
  ∃ reply,
    Spec.sends capabilities iter_set now self message r reply
    ∧ (Spec.no_workflow_shape reply ∨ Spec.incomplete_shape reply
       ∨ Spec.complete_shape reply ∨ processing_failure_shape reply)
    ∧ (reply.1.1 = INFORM →
       ∃ task best plan,
         Task.from_dict (Message.content message) = Ok task
         ∧ _find_best_workflow capabilities task = Some best
         ∧ Spec.described best
         ∧ _compute_plan capabilities iter_set task best = Ok plan
         ∧ Plan.missing plan = []
         ∧ reply = (INFORM, "plan",
                    [("plan", VDict (Plan.to_dict plan));
                     ("workflow_id",
                      match Workflow.id best with
                      | Some i => VStr i
                      | None => VNone
                      end);
                     ("workflow_name", VStr (Workflow.name best))])).
Proof.
  destruct (task_reply capabilities iter_set message) as [reply|e] eqn:Hreply.
  - exists reply. split; [by apply TaskFacts.sends_ok |].
    unfold task_reply in Hreply.
    destruct (Task.from_dict (Message.content message)) as [task|] eqn:Htask;
      [|done].
    cbn [bind] in Hreply.
    destruct (_find_best_workflow capabilities task) as [best|] eqn:Hbest.
    + destruct (_compute_plan capabilities iter_set task best) as [plan|] eqn:Hplan;
        [|done].
      cbn [bind] in Hreply.
      destruct (Plan.missing plan) as [|x missing] eqn:Hmissing;
        injection Hreply as <-.
      * split; [right; right; left; by eexists _, _, _ |].
        intros _. exists task, best, plan. split_and!; try done.
        by eapply compute_plan_described.
      * split; [right; left; by eexists _, _, _ | done].
    + injection Hreply as <-. split; [left; by eexists | done].
  - destruct (task_reply_exn message e Hreply) as (cls & msg & ->).
    eexists. split; [by apply (TaskFacts.sends_error _ _ _ _ _ _ cls) |].
    split; [do 3 right; by eexists | done].
Qed.

End WithProvider.

Lemma plan_steps_share_arguments_witness :
  _compute_plan Scenario2.catalogue2 elements Scenario.cooling_task Scenario2.W6
  = Ok Scenario2.two_step_plan
  ∧ (∀ s1 s2 arg,
       s1 ∈ Plan.plan Scenario2.two_step_plan →
       s2 ∈ Plan.plan Scenario2.two_step_plan →
       arg ≠ "scenario_config" →
       get arg (PlanStep.args s1) = get arg (PlanStep.args s2)).
Proof.
  split; [reflexivity |].
  apply (plan_steps_share_arguments Scenario2.catalogue2 elements
           Scenario.cooling_task Scenario2.W6 Scenario2.two_step_plan).
  reflexivity.
Defined.

(** The two steps of [two_step_plan]: the second script declares
    [scenario_config], the first does not. *)
Example two_step_arguments :
  PlanStep.args <$> Plan.plan Scenario2.two_step_plan
  = [[("buildings", "zone.geojson")];
     [("buildings", "zone.geojson"); ("scenario_config", "scenario.yml")]].
Proof. reflexivity. Qed.

End ReplyFacts.

(** ** The mock translation and language detection *)

Module TranslationFacts.

Import Translation.

Lemma contains_cons (c : Ascii.ascii) (s sub : string) :
  contains (String c s) sub
  = if startswith (String c s) sub then true else contains s sub.
Proof. reflexivity. Qed.

Lemma replace_from_absent (s old new : string) :
  contains s old = false → replace_from s old new 0 = s.
Proof.
  induction s as [|c s IH]; [done |].
  rewrite contains_cons. cbn [replace_from].
  destruct (startswith (String c s) old); [done |].
  intros Hs. by rewrite IH.
Qed.

(** Replacing a phrase that does not occur changes nothing. *)
Lemma replace_absent (s old new : string) :
  old ≠ "" → contains s old = false → replace s old new = s.
Proof.
  intros Hold Hs. destruct old as [|c old]; [done |].
  by apply replace_from_absent.
Qed.

Lemma entry_spanish (entry : string * string * string) :
  entry ∈ translation_map → entry.1.2 = "es" ∧ entry.1.1 ≠ "" ∧ entry.1.1 ∈ phrases.
Proof.
  intros Hin. split_and!.
  - apply list_elem_of_In in Hin. simpl in Hin.
    by destruct Hin as [<-|[<-|[<-|[<-|[<-|[]]]]]].
  - apply list_elem_of_In in Hin. simpl in Hin.
    by destruct Hin as [<-|[<-|[<-|[<-|[<-|[]]]]]].
  - apply list_elem_of_fmap. by exists entry.
Qed.

Lemma translate_found (t lang : string) (entry : string * string * string) :
  List.find (λ entry, contains (lower t) entry.1.1 && value_is (VStr lang) entry.1.2)
    translation_map = Some entry →
  _translate (VStr t) (VStr lang) = Ok (replace t entry.1.1 entry.2).
Proof. intros Hfind. unfold _translate. by rewrite Hfind. Qed.

Lemma translate_not_found (t lang : string) :
  List.find (λ entry, contains (lower t) entry.1.1 && value_is (VStr lang) entry.1.2)
    translation_map = None →
  _translate (VStr t) (VStr lang) = Ok ("[" +:+ upper lang +:+ "] " +:+ t).
Proof. intros Hfind. unfold _translate. by rewrite Hfind. Qed.

(** X18 — the mock translation knows Spanish only, and matches without
    regard to case but replaces with regard to it.  The target language
    being ASCII text: for a target language other than [es], or a text in
    which none of the known phrases occurs once lower-cased, the result is
    the text behind the upper-cased language tag.  For [es] and a text in
    which a known phrase occurs once lower-cased, the result is the text
    with every occurrence of one such phrase replaced, and no tag; if the
    phrases occur in the text only in another case, the text comes back
    unchanged. *)
Theorem translate_cases (t lang : string) :
  is_ascii lang = true →
  let tagged := Ok ("[" +:+ upper lang +:+ "] " +:+ t) in
  (lang ≠ "es" → _translate (VStr t) (VStr lang) = tagged)
  ∧ ((∀ phrase, phrase ∈ phrases → contains (lower t) phrase = false) →
     _translate (VStr t) (VStr lang) = tagged)
  ∧ (lang = "es" →
     (∃ phrase, phrase ∈ phrases ∧ contains (lower t) phrase = true) →
     (∃ phrase translation,
         (phrase, "es", translation) ∈ translation_map
         ∧ contains (lower t) phrase = true
         ∧ _translate (VStr t) (VStr lang) = Ok (replace t phrase translation))
     ∧ ((∀ phrase, phrase ∈ phrases → contains t phrase = false) →
        _translate (VStr t) (VStr lang) = Ok t)).
Proof.
  intros _. cbv zeta. split_and!.
  - intros Hlang. apply translate_not_found.
    destruct (List.find _ translation_map) as [entry|] eqn:Hfind; [|done].
    apply find_some in Hfind as [Hin%list_elem_of_In Htest].
    apply entry_spanish in Hin as (Hes & _). rewrite Hes in Htest.
    apply andb_true_iff in Htest as [_ Heq]. cbn [value_is] in Heq.
    apply String.eqb_eq in Heq. congruence.
  - intros Hnone. apply translate_not_found.
    destruct (List.find _ translation_map) as [entry|] eqn:Hfind; [|done].
    apply find_some in Hfind as [Hin%list_elem_of_In Htest].
    apply entry_spanish in Hin as (_ & _ & Hphrase).
    apply andb_true_iff in Htest as [Hocc _]. rewrite Hnone in Hocc; done.
  - intros -> (phrase & Hphrase & Hocc).
    destruct (List.find (λ entry, contains (lower t) entry.1.1
                                  && value_is (VStr "es") entry.1.2)
                translation_map) as [entry|] eqn:Hfind.
    + pose proof Hfind as Hfound.
      apply find_some in Hfound as [Hin%list_elem_of_In Htest].
      apply andb_true_iff in Htest as [Hentry _].
      destruct (entry_spanish entry Hin) as (Hes & Hne & Hin').
      split.
      * exists entry.1.1, entry.2. split_and!; [|done |by apply translate_found].
        destruct entry as [[p l] tr]. simpl in Hes. by subst l.
      * intros Hcase. rewrite (translate_found t "es" entry Hfind).
        by rewrite replace_absent by auto.
    + exfalso. apply list_elem_of_fmap in Hphrase as (entry & -> & Hin).
      pose proof (find_none _ _ Hfind entry) as Hentry.
      cbv beta in Hentry. rewrite Hocc in Hentry.
      destruct (entry_spanish entry Hin) as (Hes & _). rewrite Hes in Hentry.
      specialize (Hentry ltac:(by apply list_elem_of_In)). done.
Qed.

Lemma translate_cases_witness :
  _translate (VStr "Hello world") (VStr "fr") = Ok "[FR] Hello world"
  ∧ _translate (VStr "Hello world") (VStr "es") = Ok "Hello world".
Proof.
  split.
  - destruct (translate_cases "Hello world" "fr" eq_refl) as (Hother & _).
    apply Hother. discriminate.
  - destruct (translate_cases "Hello world" "es" eq_refl) as (_ & _ & Hspanish).
    destruct (Hspanish eq_refl) as (_ & Hcase).
    + exists "hello". split; [left | reflexivity].
    + apply Hcase. intros phrase Hphrase.
      apply list_elem_of_In in Hphrase. simpl in Hphrase.
      destruct Hphrase as [<-|[<-|[<-|[<-|[<-|[]]]]]]; reflexivity.
Defined.

(** X19 — on ASCII text, language detection answers one of four codes,
    looking for Spanish keywords first, then French, then German.  The
    answer is [en] exactly when no keyword of the three lists occurs in the
    lower-cased text.  [analyse] and [simulation] are French before they are German: a
    text with no Spanish keyword that contains one of them is French, and a
    text detected as German contains [hallo], [energie] or [gebäude]. *)
Theorem detect_language_codes (t : string) :
  is_ascii t = true →
  ∃ code,
    _detect_language (VStr t) = Ok code
    ∧ code ∈ ["es"; "fr"; "de"; "en"]
    ∧ (code = "en"
       ↔ ∀ keyword,
           keyword ∈ spanish_keywords ++ french_keywords ++ german_keywords →
           contains (lower t) keyword = false)
    ∧ (any_in (lower t) spanish_keywords = false →
       contains (lower t) "analyse" = true ∨ contains (lower t) "simulation" = true →
       code = "fr")
    ∧ (code = "de" →
       ∃ keyword,
         keyword ∈ ["hallo"; "energie"; "gebäude"]
         ∧ contains (lower t) keyword = true).
Proof.
  intros _.
  assert (∀ keywords,
            any_in (lower t) keywords = false
            ↔ ∀ keyword, keyword ∈ keywords → contains (lower t) keyword = false)
    as Hnone.
  { intros keywords. unfold any_in. split.
    - intros Hex keyword Hin%list_elem_of_In.
      destruct (contains (lower t) keyword) eqn:Hocc; [|done].
      assert (existsb (λ keyword, contains (lower t) keyword) keywords = true)
        as Htrue by (apply existsb_exists; by exists keyword).
      congruence.
    - intros Hall. destruct (existsb _ keywords) eqn:Hex; [|done].
      apply existsb_exists in Hex as (keyword & Hin%list_elem_of_In & Hocc).
      rewrite Hall in Hocc; done. }
  unfold _detect_language. cbv zeta.
  destruct (any_in (lower t) spanish_keywords) eqn:Hes.
  - exists "es". split_and!; [done | apply list_elem_of_In; simpl; tauto | | done | done].
    split; [done |]. intros Hall.
    assert (any_in (lower t) spanish_keywords = false) as Hfalse; [|congruence].
    apply Hnone. intros keyword Hin. apply Hall. apply elem_of_app. by left.
  - destruct (any_in (lower t) french_keywords) eqn:Hfr.
    + exists "fr". split_and!; [done | apply list_elem_of_In; simpl; tauto | | done | done].
      split; [done |]. intros Hall.
      assert (any_in (lower t) french_keywords = false) as Hfalse; [|congruence].
      apply Hnone. intros keyword Hin. apply Hall.
      apply elem_of_app. right. apply elem_of_app. by left.
    + pose proof (proj1 (Hnone french_keywords) Hfr) as Hfrench.
      assert (contains (lower t) "analyse" = false) as Hanalyse.
      { apply Hfrench. apply list_elem_of_In. simpl. tauto. }
      assert (contains (lower t) "simulation" = false) as Hsimulation.
      { apply Hfrench. apply list_elem_of_In. simpl. tauto. }
      destruct (any_in (lower t) german_keywords) eqn:Hde.
      * exists "de".
        split_and!; [done | apply list_elem_of_In; simpl; tauto | | |].
        -- split; [done |]. intros Hall.
           assert (any_in (lower t) german_keywords = false) as Hfalse; [|congruence].
           apply Hnone. intros keyword Hin. apply Hall.
           apply elem_of_app. right. apply elem_of_app. by right.
        -- intros _ [?|?]; congruence.
        -- intros _. unfold any_in in Hde.
           apply existsb_exists in Hde as (keyword & Hin & Hocc).
           exists keyword. split; [|done]. apply list_elem_of_In.
           simpl in Hin. simpl.
           destruct Hin as [<-|[<-|[<-|[<-|[<-|[]]]]]]; try tauto; congruence.
      * exists "en".
        split_and!; [done | apply list_elem_of_In; simpl; tauto | | | done].
        -- split; [|done]. intros _ keyword [Hin|[Hin|Hin]%elem_of_app]%elem_of_app.
           ++ by apply (proj1 (Hnone spanish_keywords) Hes).
           ++ by apply Hfrench.
           ++ by apply (proj1 (Hnone german_keywords) Hde).
        -- intros _ [?|?]; congruence.
Qed.


Lemma detect_language_codes_witness :
  ∃ code,
    _detect_language (VStr "Run a SIMULATION") = Ok code ∧ code = "fr".
Proof.
  destruct (detect_language_codes "Run a SIMULATION" eq_refl)
    as (code & Hcode & _ & _ & Hfrench & _).
  exists code. split; [exact Hcode |].
  apply Hfrench; [reflexivity | right; reflexivity].
Defined.

Lemma translate_exn (text target_language : value) (e : exn) :
  _translate text target_language = Raise e →
  ∃ msg, e = Exception "AttributeError" msg.
Proof.
  unfold _translate, attribute_error.
  destruct text; try (intros [= <-]; by eexists).
  destruct (List.find _ translation_map); [done |].
  destruct target_language; try done; intros [= <-]; by eexists.
Qed.

Lemma detect_exn (text : value) (e : exn) :
  _detect_language text = Raise e → ∃ msg, e = Exception "AttributeError" msg.
Proof.
  unfold _detect_language, attribute_error.
  destruct text; try (intros [= <-]; by eexists).
  by repeat case_match.
Qed.

Lemma reply_then_return (now : Z) (self : BaseAgent.t) (message : Message.t)
    (performative : Performative) (content_type : string) (content : dict value)
    (r : Router.t) :
  (let '(r', _) :=
     BaseAgent.reply now self message performative content_type content r in
   (r', Ok ()))
  = ((Router.route
        (Message.reply now message performative content_type content
           (Some (BaseAgent.name self))) r).1, Ok ()).
Proof. rewrite AgentFacts.reply_routes. by destruct (Router.route _ r). Qed.

(** What a handler that answers or fails does at the dispatch boundary. *)
Lemma boundary_replies (now : Z) (agent : BaseAgent.t) (message : Message.t)
    (r : Router.t) (h : BaseAgent.handler) :
  BaseAgent._handlers agent !! Message.content_type message = Some h →
  (∃ performative content_type content,
      h message r
      = ((Router.route
            (Message.reply now message performative content_type content
               (Some (BaseAgent.name agent))) r).1, Ok ()))
  ∨ (∃ cls msg, h message r = (r, Raise (Exception cls msg))) →
  ∃ performative content_type content,
    BaseAgent.handle_message now agent message r
    = ((Router.route
          (Message.reply now message performative content_type content
             (Some (BaseAgent.name agent))) r).1, Ok ()).
Proof.
  intros Hh [(performative & content_type & content & Hok)|(cls & msg & Hraise)];
    unfold BaseAgent.handle_message; rewrite Hh.
  - rewrite Hok. by eexists _, _, _.
  - rewrite Hraise, AgentFacts.reply_routes.
    exists FAILURE, "error",
      [("error", VStr msg);
       ("original_content_type", VStr (Message.content_type message))].
    by destruct (Router.route _ r).
Qed.

Section WithProvider.
Context `{CapabilitiesProvider P} (capabilities : P).
Context (iter_set : gset string → list string).
Context (confidence : value) (now : Z) (inbox : nat) (r0 : Router.t).

(** X20 — the translator answers every message of its three content
    types, once: whatever the content of a [translate],
    [language_detect] or [task] message (a missing text, a text or a
    language that is not a string, a content that is not a task), the
    dispatch ends normally after one reply from [translator] to the
    sender in the conversation of the message; a message of any other
    content type is dropped without an answer. *)
Theorem translator_answers_once (message : Message.t) (r : Router.t) :
  let agent := (init capabilities iter_set confidence now inbox r0).1 in
  (Message.content_type message ∈ ["translate"; "language_detect"; "task"] →
   ∃ performative content_type content,
     BaseAgent.handle_message now agent message r
     = ((Router.route
           (Message.reply now message performative content_type content
              (Some "translator")) r).1, Ok ()))
  ∧ (Message.content_type message ∉ ["translate"; "language_detect"; "task"] →
     BaseAgent.handle_message now agent message r = (r, Ok ())).
Proof.
  unfold init, BaseAgent.init, setup_handlers. cbv beta iota zeta. cbn [fst].
  set (self := BaseAgent.mk "translator" inbox ∅ false).
  set (agent := BaseAgent.on "task" _ _).
  split.
  - intros Hct. apply list_elem_of_In in Hct. simpl in Hct.
    destruct Hct as [Hct|[Hct|[Hct|[]]]].
    + apply (boundary_replies now agent message r (handle_translate now self)).
      { rewrite <- Hct. cbn [agent BaseAgent.on BaseAgent._handlers].
        rewrite !lookup_insert_ne by done. apply lookup_insert_eq. }
      change (BaseAgent.name agent) with (BaseAgent.name self).
      unfold handle_translate. cbv zeta.
      destruct (negb (truthy _)).
      * left. eexists _, _, _. apply reply_then_return.
      * destruct (_translate _ _) as [translated_text|e] eqn:Htranslate.
        -- left. eexists _, _, _. apply reply_then_return.
        -- right. destruct (translate_exn _ _ e Htranslate) as [msg ->].
           by eexists _, _.
    + apply (boundary_replies now agent message r
               (handle_language_detect confidence now self)).
      { rewrite <- Hct. cbn [agent BaseAgent.on BaseAgent._handlers].
        rewrite lookup_insert_ne by done. apply lookup_insert_eq. }
      change (BaseAgent.name agent) with (BaseAgent.name self).
      unfold handle_language_detect. cbv zeta.
      destruct (negb (truthy _)).
      * left. eexists _, _, _. apply reply_then_return.
      * destruct (_detect_language _) as [detected_language|e] eqn:Hdetect.
        -- left. eexists _, _, _. apply reply_then_return.
        -- right. destruct (detect_exn _ e Hdetect) as [msg ->].
           by eexists _, _.
    + apply (boundary_replies now agent message r
               (QueryTranslatorAgent.handle_task capabilities iter_set now self)).
      { rewrite <- Hct. cbn [agent BaseAgent.on BaseAgent._handlers].
        apply lookup_insert_eq. }
      change (BaseAgent.name agent) with (BaseAgent.name self).
      left.
      destruct (QueryTranslatorAgent.task_reply capabilities iter_set message)
        as [reply|e] eqn:Hreply.
      * exists reply.1.1, reply.1.2, reply.2.
        apply (TaskFacts.sends_ok capabilities iter_set now self message r reply Hreply).
      * destruct (ReplyFacts.task_reply_exn capabilities iter_set message e Hreply)
          as (cls & msg & ->).
        eexists _, _, _.
        apply (TaskFacts.sends_error capabilities iter_set now self message r
                 cls msg Hreply).
  - intros Hct. unfold BaseAgent.handle_message.
    cbn [agent BaseAgent.on BaseAgent._handlers self].
    rewrite !lookup_insert_ne, lookup_empty; [done | | |];
      intros Heq; apply Hct; rewrite <- Heq; apply list_elem_of_In; simpl; tauto.
Qed.

End WithProvider.

End TranslationFacts.

(** ** The text analysis of the chat agent *)

Module ChatFacts.

Import ChatAgent Conditions.

Lemma count_in_zero (text : string) (words : list string) :
  count_in text words = 0 ↔ ∀ word, word ∈ words → contains text word = false.
Proof.
  unfold count_in. induction words as [|w words IH]; cbn [List.filter].
  - split; [by intros _ word ?%elem_of_nil | done].
  - destruct (contains text w) eqn:Hw; cbn [length].
    + split; [done |]. intros Hall. rewrite Hall in Hw; [done | by left].
    + rewrite IH. split.
      * intros Hall word [-> | ?]%elem_of_cons; [done | by apply Hall].
      * intros Hall word ?. apply Hall. by right.
Qed.

Lemma count_in_pos (text : string) (words : list string) :
  0 < count_in text words ↔ ∃ word, word ∈ words ∧ contains text word = true.
Proof.
  split.
  - intros Hpos. destruct (decide (count_in text words = 0)) as [Hzero|Hne]; [lia |].
    clear Hpos. induction words as [|w words IH]; [done |].
    destruct (contains text w) eqn:Hw.
    + exists w. split; [by left | done].
    + destruct IH as (word & ? & ?).
      { unfold count_in in *. cbn [List.filter] in Hne. by rewrite Hw in Hne. }
      exists word. split; [by right | done].
  - intros (word & Hin & Hocc).
    destruct (decide (count_in text words = 0)) as [Hzero|Hne]; [|lia].
    rewrite count_in_zero in Hzero. rewrite Hzero in Hocc; done.
Qed.

(** X21 — the scope of a text is decided by counting, in the lower-cased
    text, the district words and the building words that occur in it: the
    scope is [district] exactly when more district words than building words
    occur, [building] exactly when a building word occurs and at least as
    many building words as district words do (so a tie goes to
    [building]), and there is no scope exactly when no word of either list
    occurs. *)
Theorem detect_scope_cases (text : string) :
  let district_score := count_in (lower text) district_words in
  let building_score := count_in (lower text) building_words in
  (_detect_scope text = Some district ↔ building_score < district_score)
  ∧ (_detect_scope text = Some building
     ↔ district_score ≤ building_score ∧ 0 < building_score)
  ∧ (_detect_scope text = None
     ↔ ∀ word, word ∈ district_words ++ building_words →
               contains (lower text) word = false)
  ∧ (_detect_scope text = Some district →
     ∃ word, word ∈ district_words ∧ contains (lower text) word = true)
  ∧ (_detect_scope text = Some building →
     ∃ word, word ∈ building_words ∧ contains (lower text) word = true).
Proof.
  cbv zeta. unfold _detect_scope. cbv zeta.
  pose proof (count_in_zero (lower text) district_words) as Hdistrict.
  pose proof (count_in_zero (lower text) building_words) as Hbuilding.
  pose proof (count_in_pos (lower text) district_words) as Hdistrict'.
  pose proof (count_in_pos (lower text) building_words) as Hbuilding'.
  destruct (Nat.ltb_spec (count_in (lower text) building_words)
              (count_in (lower text) district_words)) as [Hlt|Hge].
  - split_and!.
    + done.
    + split; [done | lia].
    + split; [done |]. intros Hall.
      assert (count_in (lower text) district_words = 0); [|lia].
      apply Hdistrict. intros word Hword. apply Hall. apply elem_of_app. by left.
    + intros _. apply Hdistrict'. lia.
    + done.
  - destruct (Nat.ltb_spec 0 (count_in (lower text) building_words)) as [Hpos|Hzero].
    + split_and!.
      * split; [done | lia].
      * done.
      * split; [done |]. intros Hall.
        assert (count_in (lower text) building_words = 0); [|lia].
        apply Hbuilding. intros word Hword. apply Hall. apply elem_of_app. by right.
      * done.
      * intros _. by apply Hbuilding'.
    + split_and!.
      * split; [done | lia].
      * split; [done | lia].
      * split; [|done]. intros _ word [Hword|Hword]%elem_of_app.
        -- apply Hdistrict; [lia | done].
        -- apply Hbuilding; [lia | done].
      * done.
      * done.
Qed.

Lemma find_first {A} (f : A → bool) (l : list A) (x : A) :
  List.find f l = Some x
  ↔ ∃ pre post, l = pre ++ x :: post ∧ f x = true ∧ ∀ y, y ∈ pre → f y = false.
Proof.
  induction l as [|a l IH]; cbn [List.find].
  - split; [done |]. intros (pre & post & Hl & _). by destruct pre.
  - destruct (f a) eqn:Ha.
    + split.
      * intros [= <-]. exists [], l. split_and!; [done | done |].
        by intros y ?%elem_of_nil.
      * intros (pre & post & Hl & Hx & Hpre). destruct pre as [|b pre].
        -- by injection Hl as <- _.
        -- injection Hl as <- _. rewrite Hpre in Ha; [done | by left].
    + rewrite IH. split.
      * intros (pre & post & -> & Hx & Hpre). exists (a :: pre), post.
        split_and!; [done | done |].
        intros y [-> | ?]%elem_of_cons; [done | by apply Hpre].
      * intros (pre & post & Hl & Hx & Hpre). destruct pre as [|b pre].
        -- injection Hl as <- _. congruence.
        -- injection Hl as <- ->. exists pre, post. split_and!; [done | done |].
           intros y ?. apply Hpre. by right.
Qed.

Lemma find_none_iff {A} (f : A → bool) (l : list A) :
  List.find f l = None ↔ ∀ y, y ∈ l → f y = false.
Proof.
  induction l as [|a l IH]; cbn [List.find].
  - split; [by intros _ y ?%elem_of_nil | done].
  - destruct (f a) eqn:Ha.
    + split; [done |]. intros Hall. rewrite Hall in Ha; [done | by left].
    + rewrite IH. split.
      * intros Hall y [-> | ?]%elem_of_cons; [done | by apply Hall].
      * intros Hall y ?. apply Hall. by right.
Qed.

(** The test of the loop of [_lookup_faq]: the stop words and the count
    play no part in it, as no key term is a stop word. *)
Lemma answers_spec (user_text : string) (item : faq_item) :
  answers (lower user_text) item = true ↔ shares_key_term user_text item.
Proof.
  unfold answers, shares_key_term, common_words. cbv zeta.
  rewrite andb_true_iff, Nat.leb_le, existsb_exists.
  set (qw := list_to_set (findall_word (lower (question item))) : gset string).
  set (uw := list_to_set (findall_word (lower user_text)) : gset string).
  split.
  - intros [_ (term & Hin%list_elem_of_In%elem_of_elements & Hkey%SelectionFacts.in_list_spec)].
    exists term. apply elem_of_intersection in Hin as [Hq Hu].
    apply elem_of_difference in Hq as [Hq _]. apply elem_of_difference in Hu as [Hu _].
    split_and!; [done | by apply elem_of_list_to_set in Hq
                | by apply elem_of_list_to_set in Hu].
  - intros (term & Hkey & Hq & Hu).
    assert (term ∉ stop_words) as Hstop.
    { unfold stop_words. rewrite elem_of_list_to_set.
      apply list_elem_of_In in Hkey. rewrite list_elem_of_In.
      simpl in *. intuition (subst; discriminate). }
    assert (term ∈ (qw ∖ stop_words) ∩ (uw ∖ stop_words)) as Hin.
    { apply elem_of_intersection. split; apply elem_of_difference; split; try done;
        by apply elem_of_list_to_set. }
    split.
    + assert (size ((qw ∖ stop_words) ∩ (uw ∖ stop_words)) ≠ 0); [|lia].
      intros Hsize%size_empty_inv.
      apply (not_elem_of_empty (C := gset string) term). by apply Hsize.
    + exists term. split.
      * apply list_elem_of_In. by apply elem_of_elements.
      * by apply SelectionFacts.in_list_spec.
Qed.

(** X23 — on ASCII text and questions, the FAQ lookup answers only what
    looks like a question and only from an entry that shares a key term
    with it: the result is the
    answer of the first entry of the glossary whose question has, as a word,
    a key term that is also a word of the text (case apart), provided the
    lower-cased text contains one of the question phrases; it is [None] when
    the text contains none of them, or when no entry shares a key term. *)
Theorem lookup_faq_cases (glossary : list faq_item) (user_text : string) :
  is_ascii user_text = true →
  forallb (λ item, is_ascii (question item)) glossary = true →
  (∀ a,
      _lookup_faq glossary user_text = Some a
      ↔ asks user_text
        ∧ ∃ pre item post,
            glossary = pre ++ item :: post
            ∧ answer item = a
            ∧ shares_key_term user_text item
            ∧ ∀ earlier, earlier ∈ pre → ¬ shares_key_term user_text earlier)
  ∧ (_lookup_faq glossary user_text = None
     ↔ ¬ asks user_text
       ∨ ∀ item, item ∈ glossary → ¬ shares_key_term user_text item).
Proof.
  intros _ _.
  assert (existsb (λ indicator, contains (lower user_text) indicator) faq_indicators
          = true ↔ asks user_text) as Hasks.
  { rewrite existsb_exists. unfold asks.
    split; intros (indicator & Hin & Hocc); exists indicator;
      (split; [by apply list_elem_of_In | done]). }
  assert (∀ item, answers (lower user_text) item = false
                  ↔ ¬ shares_key_term user_text item) as Hnot.
  { intros item. rewrite <- answers_spec. by destruct (answers _ item). }
  unfold _lookup_faq. cbv zeta.
  destruct (existsb _ faq_indicators) eqn:Hind; cbn [negb].
  - assert (asks user_text) as Hyes by by apply Hasks.
    split.
    + intros a. destruct (List.find _ glossary) as [item|] eqn:Hfind.
      * apply find_first in Hfind as (pre & post & Hl & Hitem & Hpre).
        split.
        -- intros [= <-]. split; [done |]. exists pre, item, post.
           split_and!; [done | done | by apply answers_spec |].
           intros earlier ?. apply Hnot. by apply Hpre.
        -- intros (_ & pre' & item' & post' & Hl' & <- & Hitem' & Hpre').
           f_equal. f_equal.
           assert (List.find (answers (lower user_text)) glossary = Some item') as Hf.
           { apply find_first. exists pre', post'. split_and!; [done | |].
             - by apply answers_spec.
             - intros y ?. apply Hnot. by apply Hpre'. }
           assert (List.find (answers (lower user_text)) glossary = Some item) as Hf'.
           { apply find_first. by exists pre, post. }
           congruence.
      * split; [done |].
        intros (_ & pre & item & post & Hl & _ & Hitem & _).
        rewrite find_none_iff in Hfind.
        apply answers_spec in Hitem. rewrite Hfind in Hitem; [done |].
        rewrite Hl. apply elem_of_app. right. by left.
    + destruct (List.find _ glossary) as [item|] eqn:Hfind.
      * split; [done |]. intros [Hno|Hall]; [done |].
        apply find_first in Hfind as (pre & post & Hl & Hitem & _).
        apply answers_spec in Hitem. exfalso. apply (Hall item); [|done].
        rewrite Hl. apply elem_of_app. right. by left.
      * split; [|done]. intros _. right. intros item Hin.
        apply Hnot. rewrite find_none_iff in Hfind. by apply Hfind.
  - assert (¬ asks user_text) as Hno.
    { intros Hyes%Hasks. congruence. }
    split.
    + intros a. split; [done |]. by intros [? _].
    + split; [by left | done].
Qed.


Lemma lookup_faq_cases_witness :
  _lookup_faq Scenario2.glossary "how do i calculate cooling demand for a building"
  = Some "Run the demand workflow.".
Proof.
  apply (lookup_faq_cases Scenario2.glossary
           "how do i calculate cooling demand for a building" eq_refl eq_refl).
  split.
  - exists "how do". split; [right; left | reflexivity].
  - exists [Build_faq_item "What is CEA?" "The City Energy Analyst."],
      (Build_faq_item "How do I calculate cooling demand?" "Run the demand workflow."),
      [].
    split_and!; [reflexivity | reflexivity | |].
    + exists "cooling".
      split_and!; [right; left | |]; apply list_elem_of_In; vm_compute; tauto.
    + intros earlier Hearlier%list_elem_of_singleton. subst earlier.
      intros Hshare%answers_spec. vm_compute in Hshare. discriminate.
Defined.

Lemma set_fresh {V} (k : string) (v : V) (d : dict V) :
  k ∉ keys d → set k v d = d ++ [(k, v)].
Proof.
  induction d as [|[k' v'] d IH]; [done |].
  unfold keys. rewrite fmap_cons, not_elem_of_cons. cbn [fst]. intros [Hne Hd].
  cbn [set]. apply String.eqb_neq in Hne. rewrite Hne.
  cbn [app]. f_equal. by apply IH.
Qed.

Lemma get_entry {V} (d : dict V) (k : string) (v : V) :
  NoDup (keys d) → (k, v) ∈ d → get k d = Some v.
Proof.
  induction d as [|[k' v'] d IH]; [by intros _ ?%elem_of_nil |].
  unfold keys. rewrite fmap_cons, NoDup_cons. cbn [fst]. intros [Hk' Hd].
  intros [[= -> ->] | Hin]%elem_of_cons; cbn [get].
  - by rewrite String.eqb_refl.
  - destruct (String.eqb k k') eqn:E; [|by apply IH].
    apply String.eqb_eq in E as ->. exfalso. apply Hk'.
    apply list_elem_of_fmap. by exists (k', v).
Qed.

(** The loop over the keywords of an intent counts one for a keyword
    that occurs in the text and one more when it is a word of it. *)
Lemma keyword_score_fold (text : string) (keywords : list string) (score : nat) :
  foldl (add_keyword (lower text) (findall_word (lower text))) score keywords
  = score + keyword_score text keywords.
Proof.
  unfold keyword_score. revert score.
  induction keywords as [|keyword keywords IH]; intros score; [cbn; lia |].
  cbn [foldl List.filter]. rewrite IH. unfold add_keyword.
  destruct (contains (lower text) keyword),
    (QueryTranslatorAgent.in_list keyword (findall_word (lower text)));
    cbn [length]; lia.
Qed.

(** The scores of the intents, in the order of the table. *)
Lemma intent_scores_eq (text : string) (table : dict (list string))
    (acc : dict nat) :
  NoDup (keys acc ++ keys table) →
  foldl (λ (intent_scores : dict nat) '(intent, keywords),
           set intent
             (foldl (add_keyword (lower text) (findall_word (lower text))) 0 keywords)
             intent_scores)
        acc table
  = acc ++ ((λ entry, (entry.1, keyword_score text entry.2)) <$> table).
Proof.
  revert acc. induction table as [|[intent keywords] table IH]; intros acc Hdup.
  - by rewrite app_nil_r.
  - cbn [foldl]. rewrite fmap_cons. cbn [fst snd].
    unfold keys in Hdup. rewrite fmap_cons in Hdup. cbn [fst] in Hdup.
    rewrite keyword_score_fold, Nat.add_0_l, set_fresh.
    + rewrite IH.
      * by rewrite <- app_assoc.
      * unfold keys. rewrite fmap_app, <- app_assoc. done.
    + apply NoDup_app in Hdup as (_ & Hdisjoint & _).
      intros Hin. apply (Hdisjoint intent Hin). by left.
Qed.

(** The loop of [max]: the first element of greatest value. *)
Lemma first_max {A} (val : A → nat) (b : A) (l : list A) :
  let m := foldl (λ best x, if val best <? val x then x else best) b l in
  ∃ pre post,
    b :: l = pre ++ m :: post
    ∧ (∀ x, x ∈ pre → val x < val m)
    ∧ (∀ x, x ∈ post → val x ≤ val m).
Proof.
  induction l as [|y l IH] using rev_ind; cbv zeta.
  - exists [], []. split_and!; [done | |]; by intros x ?%elem_of_nil.
  - rewrite foldl_snoc. destruct IH as (pre & post & Hl & Hpre & Hpost).
    set (m := foldl _ b l) in *.
    destruct (Nat.ltb_spec (val m) (val y)) as [Hlt|Hge].
    + exists (b :: l), []. split_and!; [done | |by intros x ?%elem_of_nil].
      intros x Hx. rewrite Hl in Hx.
      apply elem_of_app in Hx as [Hx|[-> | Hx]%elem_of_cons].
      * specialize (Hpre x Hx). lia.
      * done.
      * specialize (Hpost x Hx). lia.
    + exists pre, (post ++ [y]). split_and!.
      * by rewrite app_comm_cons, Hl, <- app_assoc.
      * done.
      * intros x [Hx|Hx%list_elem_of_singleton]%elem_of_app; [by apply Hpost |].
        by subst x.
Qed.

Lemma add_keyword_ge (text_lower : string) (text_words : list string)
    (score : nat) (keyword : string) :
  score ≤ add_keyword text_lower text_words score keyword.
Proof.
  unfold add_keyword.
  destruct (contains text_lower keyword),
    (QueryTranslatorAgent.in_list keyword text_words); lia.
Qed.

Lemma add_keyword_same (text_lower : string) (text_words : list string)
    (score : nat) (keyword : string) :
  add_keyword text_lower text_words score keyword = score
  ↔ contains text_lower keyword = false ∧ keyword ∉ text_words.
Proof.
  unfold add_keyword. rewrite <- SelectionFacts.in_list_spec.
  destruct (contains text_lower keyword),
    (QueryTranslatorAgent.in_list keyword text_words);
    split; try lia; try (intros [? ?]; done); try done.
Qed.

Lemma keywords_fold (text_lower : string) (text_words keywords : list string)
    (score : nat) :
  score ≤ foldl (add_keyword text_lower text_words) score keywords
  ∧ (foldl (add_keyword text_lower text_words) score keywords = score
     ↔ ∀ keyword, keyword ∈ keywords →
                  contains text_lower keyword = false ∧ keyword ∉ text_words).
Proof.
  revert score. induction keywords as [|keyword keywords IH]; intros score.
  - split; [done |]. split; [by intros _ k ?%elem_of_nil | done].
  - cbn [foldl].
    destruct (IH (add_keyword text_lower text_words score keyword)) as [Hge Hiff].
    pose proof (add_keyword_ge text_lower text_words score keyword) as Hstep.
    split; [lia |]. split.
    + intros Hsame.
      assert (add_keyword text_lower text_words score keyword = score) as Hkeyword
        by lia.
      intros k [-> | Hk]%elem_of_cons.
      * by apply add_keyword_same in Hkeyword.
      * apply Hiff; [|done]. by rewrite Hkeyword in *.
    + intros Hall.
      assert (add_keyword text_lower text_words score keyword = score) as Hkeyword.
      { apply add_keyword_same. apply Hall. by left. }
      rewrite Hkeyword in *. apply Hiff. intros k ?. apply Hall. by right.
Qed.

(** X22 — the intent of an ASCII text is the first intent of the keyword
    table with the greatest score, when that score is positive, and
    [general_analysis] otherwise.  The score of an intent is the number of
    its keywords that occur in the lower-cased text plus the number of its
    keywords that are words of it; it is zero exactly when no keyword of
    the intent occurs in the text or is a word of it. *)
Theorem detect_intent_cases (text : string) (table : dict (list string)) :
  is_ascii text = true →
  NoDup (keys table) →
  let result := _detect_intent text table in
  ((∀ intent keywords,
       (intent, keywords) ∈ table → keyword_score text keywords = 0) →
   result = "general_analysis")
  ∧ ((∃ intent keywords,
         (intent, keywords) ∈ table ∧ 0 < keyword_score text keywords) →
     ∃ pre keywords post,
       table = pre ++ (result, keywords) :: post
       ∧ 0 < keyword_score text keywords
       ∧ (∀ entry, entry ∈ pre →
            keyword_score text entry.2 < keyword_score text keywords)
       ∧ (∀ entry, entry ∈ post →
            keyword_score text entry.2 ≤ keyword_score text keywords))
  ∧ (∀ keywords,
       keyword_score text keywords = 0
       ↔ ∀ keyword, keyword ∈ keywords →
                    contains (lower text) keyword = false
                    ∧ keyword ∉ findall_word (lower text)).
Proof.
  intros _ Hdup result.
  assert (∀ keywords,
            keyword_score text keywords = 0
            ↔ ∀ keyword, keyword ∈ keywords →
                         contains (lower text) keyword = false
                         ∧ keyword ∉ findall_word (lower text)) as Hzero.
  { intros keywords.
    rewrite <- (Nat.add_0_l (keyword_score text keywords)), <- keyword_score_fold.
    apply (keywords_fold (lower text) (findall_word (lower text)) keywords 0). }
  split_and!; [| |done].
  all: subst result; unfold _detect_intent; cbv zeta.
  all: rewrite (intent_scores_eq text table []) by done; rewrite app_nil_l.
  all: set (scores := (λ entry, (entry.1, keyword_score text entry.2)) <$> table).
  all: assert (keys scores = keys table) as Hkeys
      by (unfold keys, scores; rewrite <- list_fmap_compose; done).
  all: assert (∀ intent keywords,
                 (intent, keywords) ∈ table →
                 get_default intent scores 0 = keyword_score text keywords) as Hval
      by (intros intent keywords Hin; unfold get_default;
          rewrite (get_entry scores intent (keyword_score text keywords));
          [done | by rewrite Hkeys
          | apply list_elem_of_fmap; by exists (intent, keywords)]).
  all: unfold max_key; rewrite Hkeys.
  all: destruct table as [|[intent0 keywords0] table'] eqn:Htable;
    [cbn [keys fmap list_fmap] | rewrite <- Htable in *].
  - done.
  - intros Hall.
    assert (keys table = intent0 :: keys table') as -> by by rewrite Htable.
    destruct (first_max (λ k, get_default k scores 0) intent0 (keys table'))
      as (pre & post & Hl & _).
    set (best := foldl _ intent0 (keys table')) in *.
    assert (best ∈ keys table) as Hbest.
    { rewrite Htable. unfold keys at 1. rewrite fmap_cons. cbn [fst].
      fold (keys table'). rewrite Hl. apply elem_of_app. right. by left. }
    apply list_elem_of_fmap in Hbest as ([intent keywords] & Hintent & Hin).
    cbn [fst] in Hintent. rewrite Hintent, (Hval intent keywords Hin).
    by rewrite (Hall intent keywords Hin).
  - by intros (intent & keywords & ?%elem_of_nil & _).
  - intros (intent & keywords & Hin & Hpos).
    assert (keys table = intent0 :: keys table') as Hcons by by rewrite Htable.
    rewrite Hcons.
    destruct (first_max (λ k, get_default k scores 0) intent0 (keys table'))
      as (pre_k & post_k & Hl & Hpre & Hpost).
    set (best := foldl _ intent0 (keys table')) in *.
    rewrite <- Hcons in Hl. unfold keys in Hl.
    apply fmap_app_inv in Hl as (pre & rest & -> & Hrest & Hsplit).
    symmetry in Hrest.
    apply fmap_cons_inv in Hrest as ([best' keywords'] & post & Hbest' & -> & ->).
    cbn [fst] in Hbest'. subst best'.
    assert ((best, keywords') ∈ table) as Hbest_in.
    { rewrite Hsplit. apply elem_of_app. right. by left. }
    assert (∀ entry, entry ∈ pre →
              keyword_score text entry.2 < keyword_score text keywords') as Hpre'.
    { intros [i k] Hentry. cbn [snd].
      rewrite <- (Hval i k), <- (Hval best keywords' Hbest_in).
      - apply Hpre. apply list_elem_of_fmap. by exists (i, k).
      - rewrite Hsplit. apply elem_of_app. by left. }
    assert (∀ entry, entry ∈ post →
              keyword_score text entry.2 ≤ keyword_score text keywords') as Hpost'.
    { intros [i k] Hentry. cbn [snd].
      rewrite <- (Hval i k), <- (Hval best keywords' Hbest_in).
      - apply Hpost. apply list_elem_of_fmap. by exists (i, k).
      - rewrite Hsplit. apply elem_of_app. right. by right. }
    assert (0 < keyword_score text keywords') as Hbest_pos.
    { rewrite Hsplit in Hin.
      apply elem_of_app in Hin as [Hin|[[= -> ->] | Hin]%elem_of_cons].
      - specialize (Hpre' _ Hin). cbn [snd] in Hpre'. lia.
      - done.
      - specialize (Hpost' _ Hin). cbn [snd] in Hpost'. lia. }
    rewrite (Hval best keywords' Hbest_in).
    destruct (Nat.ltb_spec 0 (keyword_score text keywords')) as [_|?]; [|lia].
    by exists pre, keywords', post.
Qed.


Lemma detect_intent_cases_witness :
  ∃ pre keywords post,
    intent_keywords
    = pre ++ (_detect_intent "Estimate the cooling demand" intent_keywords, keywords)
             :: post
    ∧ 0 < keyword_score "Estimate the cooling demand" keywords
    ∧ (∀ entry, entry ∈ pre →
         keyword_score "Estimate the cooling demand" entry.2
         < keyword_score "Estimate the cooling demand" keywords)
    ∧ (∀ entry, entry ∈ post →
         keyword_score "Estimate the cooling demand" entry.2
         ≤ keyword_score "Estimate the cooling demand" keywords).
Proof.
  apply (detect_intent_cases "Estimate the cooling demand" intent_keywords).
  - reflexivity.
  - apply (bool_decide_unpack _). vm_compute. exact I.
  - exists "cooling demand", ["cooling"; "demand"; "cool"; "estimate"].
    split; [left | vm_compute; lia].
Defined.

Lemma get_absent {V} (d : dict V) (k : string) : k ∉ keys d → get k d = None.
Proof.
  intros Hk. pose proof (PyFacts.mem_keys d k) as Hmem. unfold mem in Hmem.
  destruct (get k d); [|done]. exfalso. apply Hk. by apply Hmem.
Qed.

Lemma get_del_eq {V} (d : dict V) (k : string) :
  NoDup (keys d) → get k (del k d) = None.
Proof.
  induction d as [|[k' v] d IH]; [done |].
  unfold keys. rewrite fmap_cons, NoDup_cons. cbn [fst]. intros [Hk' Hd].
  cbn [del]. destruct (String.eqb k k') eqn:E.
  - apply String.eqb_eq in E as ->. by apply get_absent.
  - cbn [get]. rewrite E. by apply IH.
Qed.

Lemma get_del_ne {V} (d : dict V) (k other : string) :
  other ≠ k → get other (del k d) = get other d.
Proof.
  intros Hne. induction d as [|[k' v] d IH]; [done |].
  cbn [del]. destruct (String.eqb k k') eqn:E.
  - apply String.eqb_eq in E as <-. cbn [get].
    apply String.eqb_neq in Hne. by rewrite Hne.
  - cbn [get]. by rewrite IH.
Qed.

(** X24 — a plan is forwarded once to whoever opened the conversation.
    When the conversation of the plan message is pending, the chat agent
    sends the requester one message with the performative, content type and
    content of the plan message, in the conversation of the request, and
    forgets the conversation, the other pending conversations being kept: a
    second plan message in that conversation is dropped.  When the
    conversation is not pending, nothing is sent and nothing changes. *)
Theorem plan_forwarded_once (now : Z) (self : BaseAgent.t)
    (pending_queries : dict Message.t) (message : Message.t) (r : Router.t) :
  NoDup (keys pending_queries) →
  let out := handle_plan now self pending_queries message r in
  (∀ original,
      get (Message.conversation_id message) pending_queries = Some original →
      let forwarded :=
        Message.reply now original (Message.performative message)
          (Message.content_type message) (Message.content message)
          (Some (BaseAgent.name self)) in
      out.2 = (Router.route forwarded r).1
      ∧ Message.receiver forwarded = Message.sender original
      ∧ Message.conversation_id forwarded = Message.conversation_id original
      ∧ Message.performative forwarded = Message.performative message
      ∧ Message.content forwarded = Message.content message
      ∧ get (Message.conversation_id message) out.1 = None
      ∧ (∀ other, other ≠ Message.conversation_id message →
           get other out.1 = get other pending_queries)
      ∧ (∀ now' r', handle_plan now' self out.1 message r' = (out.1, r')))
  ∧ (get (Message.conversation_id message) pending_queries = None →
     out = (pending_queries, r)).
Proof.
  intros Hdup out. subst out. unfold handle_plan. split.
  - intros original Hget. cbv zeta. rewrite Hget, AgentFacts.reply_routes.
    destruct (Router.route _ r) as [r' sent] eqn:Hroute. cbn [fst snd].
    split_and!; try done.
    + by apply get_del_eq.
    + intros other Hother. by apply get_del_ne.
    + intros now' r''. by rewrite get_del_eq.
  - intros Hget. by rewrite Hget.
Qed.

Lemma plan_forwarded_once_witness :
  Router.items 3
    (handle_plan 402 Scenario2.chat [("conv-9", Scenario2.user_query)]
       Scenario2.plan_message Scenario2.user_online).2
  = [Message.mk FAILURE "chat" "user" "conv-9" "plan"
       [("reason", VStr "Missing required inputs: weather_epw")] 402].
Proof.
  destruct (plan_forwarded_once 402 Scenario2.chat [("conv-9", Scenario2.user_query)]
              Scenario2.plan_message Scenario2.user_online) as [Hpending _].
  - apply (bool_decide_unpack _). vm_compute. exact I.
  - destruct (Hpending Scenario2.user_query) as [-> _]; reflexivity.
Defined.

(** X25 — an answer is relayed once to whoever opened the conversation:
    when the conversation of a [response] message is pending, the requester
    is sent an INFORM of content type [response] whose only entry is the
    [answer] of the message, or the text [No response] when the message has
    none, and the conversation is forgotten; when it is not pending, nothing
    is sent and nothing changes. *)
Theorem response_relayed_once (now : Z) (self : BaseAgent.t)
    (pending_queries : dict Message.t) (message : Message.t) (r : Router.t) :
  NoDup (keys pending_queries) →
  let out := handle_response now self pending_queries message r in
  (∀ original,
      get (Message.conversation_id message) pending_queries = Some original →
      let answer :=
        default (VStr "No response") (get "answer" (Message.content message)) in
      out.2
      = (Router.route
           (Message.reply now original INFORM "response" [("answer", answer)]
              (Some (BaseAgent.name self))) r).1
      ∧ get (Message.conversation_id message) out.1 = None
      ∧ (∀ other, other ≠ Message.conversation_id message →
           get other out.1 = get other pending_queries)
      ∧ (∀ now' r', handle_response now' self out.1 message r' = (out.1, r')))
  ∧ (get (Message.conversation_id message) pending_queries = None →
     out = (pending_queries, r)).
Proof.
  intros Hdup out. subst out. unfold handle_response. cbv zeta. split.
  - intros original Hget. rewrite Hget, AgentFacts.reply_routes.
    unfold get_default.
    destruct (get "answer" (Message.content message)) as [answer|];
      cbn [default from_option id];
      destruct (Router.route _ r) as [r' sent] eqn:Hroute; cbn [fst snd];
      (split_and!; [done | by apply get_del_eq
                   | intros other Hother; by apply get_del_ne
                   | intros now' r''; by rewrite get_del_eq]).
  - intros Hget. by rewrite Hget.
Qed.

Lemma response_relayed_once_witness :
  Router.items 3
    (handle_response 402 Scenario2.chat [("conv-9", Scenario2.user_query)]
       Scenario2.plan_message Scenario2.user_online).2
  = [Message.mk INFORM "chat" "user" "conv-9" "response"
       [("answer", VStr "No response")] 402].
Proof.
  destruct (response_relayed_once 402 Scenario2.chat
              [("conv-9", Scenario2.user_query)]
              Scenario2.plan_message Scenario2.user_online) as [Hpending _].
  - apply (bool_decide_unpack _). vm_compute. exact I.
  - destruct (Hpending Scenario2.user_query) as [-> _]; reflexivity.
Defined.

End ChatFacts.
